(** * ChatbotComparison front end: a shallow embedding of its controllers

    The development follows the JavaScript sources under [frontend/js]:

    - [utils/api.js]                     module [Api]
    - [states/UserSelectionState.js],
      [states/AISelectionState.js] and
      [StateManager.js]                  modules [Selection], [AgentScreen]
    - [states/ChatComparisonState.js]    module [Chat]
    - the entry point of the page        module [Startup]
    - the stand-alone chat page          module [Legacy]

    Conventions.  A JavaScript string is a [string] (a sequence of 8-bit
    code units); a JavaScript object used as a dictionary is a [gmap]; a
    [Set] is a [gset]; an array is a [list].  An [async] function is cut at
    its [await] points: each piece between two suspension points is one
    function of the model, and the completion of the awaited network call
    or timer is an event that runs the next piece.  The replies of the
    backend are typed after the wire contract of the HTTP interface, with
    [option] for every field the contract marks optional or whose absence
    the code tests. *)

From stdpp Require Import base option list gmap sets strings pretty numbers.
From Stdlib Require Import Ascii String QArith.

Local Open Scope string_scope.
Local Open Scope Z_scope.

(** ** JavaScript values used by the controllers *)

Module JS.

(** [Error] objects: only the [name] and the [message] are observed. *)
Record Error := mkError { name : string; message : string }.

(** [new Error(msg)] *)
Definition new_Error (msg : string) : Error :=
  {| name := "Error"; message := msg |}.

(** The [TypeError] of a property read on [null] or [undefined]; the
    text of the message is the one of V8. *)
Definition TypeError (value property : string) : Error :=
  {| name := "TypeError";
     message :=
       "Cannot read properties of " +:+ value +:+ " (reading '"
       +:+ property +:+ "')" |}.

(** The settled state of a promise: the awaited call either resolves
    with a value or rejects with an error. *)
Inductive Settled (A : Type) : Type :=
  | Resolved (a : A)
  | Rejected (e : Error).
Arguments Resolved {A} a.
Arguments Rejected {A} e.

(** Truthiness of a string: the empty string is falsy. *)
Definition truthy (s : string) : bool :=
  match s with
  | EmptyString => false
  | String _ _ => true
  end.

(** Truthiness of an optional (possibly [undefined]) string property. *)
Definition truthy_opt (o : option string) : bool :=
  match o with
  | Some s => truthy s
  | None => false
  end.

(** Truthiness of an optional boolean flag. *)
Definition flag (o : option bool) : bool :=
  match o with
  | Some b => b
  | None => false
  end.

(** White space and line terminators of ECMAScript among the code units
    below 256: TAB, LF, VT, FF, CR, SP and NBSP. *)
Definition is_white_space (c : ascii) : bool :=
  match c with
  | "009" | "010" | "011" | "012" | "013" | " " | "160" => true
  | _ => false
  end%char.

Fixpoint trimStart (s : string) : string :=
  match s with
  | EmptyString => EmptyString
  | String c s' => if is_white_space c then trimStart s' else s
  end.

Definition trimEnd (s : string) : string :=
  String.rev (trimStart (String.rev s)).

(** [String.prototype.trim] *)
Definition trim (s : string) : string := trimEnd (trimStart s).

(** A string that starts, or ends, with white space. *)
Definition starts_with_white_space (s : string) : bool :=
  match s with
  | EmptyString => false
  | String c _ => is_white_space c
  end.

Definition ends_with_white_space (s : string) : bool :=
  starts_with_white_space (String.rev s).

(** A string as [trim] returns it: it neither starts nor ends with
    white space. *)
Definition trimmed (s : string) : Prop :=
  starts_with_white_space s = false ∧ ends_with_white_space s = false.

End JS.

Export JS.

(** ** [utils/api.js]: the gateway client *)

Module Api.

(** The object handed to [JSON.stringify]: its properties in order;
    [None] is a value that is [null] or [undefined]. *)
Definition Payload := list (string * option string).

(** The [options] argument of [request]. *)
Record Options := {
  method : option string;
  headers : option (list (string * string));
  body : option Payload
}.

(** [options = {}] *)
Definition no_options : Options :=
  {| method := None; headers := None; body := None |}.

(** The [config] object handed to [fetch]. *)
Record Config := {
  cfg_method : option string;
  cfg_headers : list (string * string);
  cfg_body : option Payload
}.

(** What [response.json()] gives.  A body that is not JSON makes the
    call reject with the parser's error.  A JSON body is seen through
    two views of the same object: the reply of the endpoint, and its
    [detail] property. *)
Inductive Body (A : Type) : Type :=
  | NotJson (why : Error)
  | Json (payload : A) (detail : option string).
Arguments NotJson {A} why.
Arguments Json {A} payload detail.

(** The part of a [Response] that [request] reads. *)
Record Response (A : Type) := {
  status : Z;
  statusText : string;
  json : Body A
}.
Arguments status {A} r.
Arguments statusText {A} r.
Arguments json {A} r.

(** [response.ok]: the status is in the range 200-299. *)
Definition ok {A} (response : Response A) : bool :=
  (200 <=? status response) && (status response <=? 299).

(** The network: what [fetch(url, config)] settles to. *)
Definition Fetch (A : Type) : Type :=
  string → Config → Settled (Response A).

Record APIClient := {
  baseURL : string;
  defaultHeaders : list (string * string)
}.

(** The client built by the constructor, for a given base URL. *)
Definition new_APIClient (base : string) : APIClient :=
  {| baseURL := base;
     defaultHeaders := [("Content-Type", "application/json")] |}.

(** The message of the error raised for a reply that is not [ok]:
    [errorData.detail || `HTTP ${response.status}: ${response.statusText}`]
    where [errorData] is [{}] when the body is not JSON. *)
Definition error_message {A} (response : Response A) : string :=
  let detail :=
    match json response with
    | Json _ d => d
    | NotJson _ => None
    end in
  match detail with
  | Some d =>
      if truthy d then d
      else "HTTP " +:+ pretty (status response) +:+ ": " +:+ statusText response
  | None =>
      "HTTP " +:+ pretty (status response) +:+ ": " +:+ statusText response
  end.

(** [request(endpoint, options)].  The [catch] clause logs and re-throws,
    so the result is the one of the [try] block. *)
Definition request {A} (this : APIClient) (fetch : Fetch A)
    (endpoint : string) (options : Options) : Settled A :=
  let url := baseURL this +:+ endpoint in
  let config :=
    {| cfg_headers :=
         match headers options with
         | Some h => h
         | None => defaultHeaders this
         end;
       cfg_method := method options;
       cfg_body := body options |} in
  match fetch url config with
  | Rejected e => Rejected e
  | Resolved response =>
      if negb (ok response) then
        Rejected (new_Error (error_message response))
      else
        match json response with
        | Json payload _ => Resolved payload
        | NotJson why => Rejected why
        end
  end.

Definition post (fields : Payload) : Options :=
  {| method := Some "POST"; headers := None; body := Some fields |}.

(** The operations of the client, one per backend capability. *)
Section Operations.
Context {A : Type} (this : APIClient) (fetch : Fetch A).

Definition getSessions : Settled A :=
  request this fetch "/sessions" no_options.

Definition createSession (name projectTitle : string) : Settled A :=
  request this fetch "/sessions"
    (post [("action", Some "create"); ("name", Some name);
           ("project_title", Some projectTitle)]).

Definition selectSession (sessionId : string) : Settled A :=
  request this fetch "/sessions"
    (post [("action", Some "select"); ("session_id", Some sessionId)]).

Definition getAvailableAgents (sessionId : string) : Settled A :=
  request this fetch "/ai-selection"
    (post [("session_id", Some sessionId);
           ("action", Some "get_available")]).

Definition selectFirstAgent (sessionId : option string)
    (agentKey : string) : Settled A :=
  request this fetch "/ai-selection"
    (post [("session_id", sessionId); ("action", Some "select_first");
           ("agent_key", Some agentKey)]).

Definition getSecondAgentOptions (sessionId : option string)
    : Settled A :=
  request this fetch "/ai-selection"
    (post [("session_id", sessionId);
           ("action", Some "get_second_options")]).

Definition selectSecondAgent (sessionId : option string)
    (agentKey : string) : Settled A :=
  request this fetch "/ai-selection"
    (post [("session_id", sessionId); ("action", Some "select_second");
           ("agent_key", Some agentKey)]).

Definition sendMessage (sessionId : option string) (message : string)
    : Settled A :=
  request this fetch "/chat"
    (post [("session_id", sessionId); ("message", Some message)]).

Definition startChatMessage (sessionId : option string)
    (message : string) : Settled A :=
  request this fetch "/chat/start"
    (post [("session_id", sessionId); ("message", Some message)]).

(** [`/chat/status/${requestId}`]: a missing id prints as
    [undefined]. *)
Definition getChatStatus (requestId : option string) : Settled A :=
  request this fetch
    ("/chat/status/" +:+ default "undefined" requestId) no_options.

Definition healthCheck : Settled A :=
  request this fetch "/health" no_options.
End Operations.

(** The operations as data, to quantify over all of them. *)
Inductive Operation : Type :=
  | GetSessions
  | CreateSession (name projectTitle : string)
  | SelectSession (sessionId : string)
  | GetAvailableAgents (sessionId : string)
  | SelectFirstAgent (sessionId : option string) (agentKey : string)
  | GetSecondAgentOptions (sessionId : option string)
  | SelectSecondAgent (sessionId : option string) (agentKey : string)
  | SendMessage (sessionId : option string) (message : string)
  | StartChatMessage (sessionId : option string) (message : string)
  | GetChatStatus (requestId : option string)
  | HealthCheck.

Definition perform {A} (this : APIClient) (fetch : Fetch A)
    (op : Operation) : Settled A :=
  match op with
  | GetSessions => getSessions this fetch
  | CreateSession n t => createSession this fetch n t
  | SelectSession s => selectSession this fetch s
  | GetAvailableAgents s => getAvailableAgents this fetch s
  | SelectFirstAgent s k => selectFirstAgent this fetch s k
  | GetSecondAgentOptions s => getSecondAgentOptions this fetch s
  | SelectSecondAgent s k => selectSecondAgent this fetch s k
  | SendMessage s m => sendMessage this fetch s m
  | StartChatMessage s m => startChatMessage this fetch s m
  | GetChatStatus r => getChatStatus this fetch r
  | HealthCheck => healthCheck this fetch
  end.

End Api.

(** ** Data shared by the controllers *)

Module Data.

(** An agent descriptor of the backend catalog. *)
Record Agent := {
  key : string;
  display_name : string;
  description : string;
  input_price : Q;
  output_price : Q
}.

(** [StateManager.sessionData]: every property may be missing. *)
Record SessionData := {
  session_id : option string;
  name : option string;
  project_title : option string;
  selectedAgents : option (list Agent)
}.

(** [{}] *)
Definition no_session_data : SessionData :=
  {| session_id := None; name := None; project_title := None;
     selectedAgents := None |}.

(** [{ ...a, ...b }]: the properties of [b] win. *)
Definition spread (a b : SessionData) : SessionData :=
  {| session_id :=
       match session_id b with Some x => Some x | None => session_id a end;
     name := match name b with Some x => Some x | None => name a end;
     project_title :=
       match project_title b with
       | Some x => Some x
       | None => project_title a
       end;
     selectedAgents :=
       match selectedAgents b with
       | Some x => Some x
       | None => selectedAgents a
       end |}.

(** The loading overlay and the error modal driven by [UIUtils]: the
    text each one shows, when it is displayed. *)
Record Overlay := {
  loading_shown : option string;
  error_shown : option string
}.

Definition showLoading (msg : string) (o : Overlay) : Overlay :=
  {| loading_shown := Some msg; error_shown := error_shown o |}.
Definition hideLoading (o : Overlay) : Overlay :=
  {| loading_shown := None; error_shown := error_shown o |}.
Definition showError (msg : string) (o : Overlay) : Overlay :=
  {| loading_shown := loading_shown o; error_shown := Some msg |}.

End Data.

Export Data.

(** ** [StateManager.js], [UserSelectionState.js], [AISelectionState.js]

    The session screen, the agent screen and the coordinator.  The cards
    of the two agent containers are not modelled: those of the second
    container are built from the list the backend returns for
    [get_second_options], a click on a card that is not disabled calls
    [selectSecondAgent] with the key of the card, and the controller
    makes no check of its own on that key. *)

Module Selection.

Inductive StateName : Type :=
  | user_selection
  | ai_selection
  | chat_comparison.

Record StateManager := {
  currentState : StateName;
  sessionData : SessionData
}.

(** A session of the backend list. *)
Record Session := {
  s_session_id : string;
  s_name : string;
  s_project_title : string
}.

Record UserSelectionState := {
  sessions : list Session;
  selectedSession : option SessionData
}.

Record AISelectionState := {
  availableAgents : list Agent;
  sessionId : option string
}.

(** The replies of the [sessions] and [ai-selection] endpoints. *)
Record SessionReply := {
  sr_success : option bool;
  sr_session_id : option string
}.

Record AISelectionReply := {
  success : option bool;
  available_agents : option (list Agent);
  ready_for_conversation : option bool;
  selected_agents : option (list string)
}.

(** The page as the three controllers see it.  [stateManager] is
    [window.stateManager]; [chatSession] is the session data the chat
    controller was last initialised with ([initializeChat]); [calls]
    are the calls made on [apiClient] and [completions] the arguments
    of the calls of [onAISelectionComplete], latest first. *)
Record App := {
  stateManager : option StateManager;
  user : UserSelectionState;
  ai : AISelectionState;
  chatSession : option SessionData;
  overlay : Overlay;
  calls : list Api.Operation;
  completions : list (list Agent)
}.

Definition with_overlay (f : Overlay → Overlay) (app : App) : App :=
  {| stateManager := stateManager app; user := user app; ai := ai app;
     chatSession := chatSession app; overlay := f (overlay app);
     calls := calls app; completions := completions app |}.

Definition with_manager (m : StateManager) (app : App) : App :=
  {| stateManager := Some m; user := user app; ai := ai app;
     chatSession := chatSession app; overlay := overlay app;
     calls := calls app; completions := completions app |}.

Definition call (op : Api.Operation) (app : App) : App :=
  {| stateManager := stateManager app; user := user app; ai := ai app;
     chatSession := chatSession app; overlay := overlay app;
     calls := op :: calls app; completions := completions app |}.

(** *** The coordinator *)

(** [setSessionData(data)] *)
Definition setSessionData (data : SessionData) (m : StateManager)
    : StateManager :=
  {| currentState := currentState m;
     sessionData := spread (sessionData m) data |}.

(** [showState(stateName)] *)
Definition showState (stateName : StateName) (m : StateManager)
    : StateManager :=
  {| currentState := stateName; sessionData := sessionData m |}.

(** [loadAvailableAgents(sessionId)] up to its [await]. *)
Definition loadAvailableAgents (sid : string) (app : App) : App :=
  let app :=
    {| stateManager := stateManager app; user := user app;
       ai := {| availableAgents := availableAgents (ai app);
                sessionId := Some sid |};
       chatSession := chatSession app; overlay := overlay app;
       calls := calls app; completions := completions app |} in
  call (Api.GetAvailableAgents sid)
    (with_overlay (showLoading "Loading AI agents...") app).

(** [transitionToAISelection()], run on the coordinator [m]. *)
Definition transitionToAISelection (m : StateManager) (app : App) : App :=
  match session_id (sessionData m) with
  | Some sid =>
      if truthy sid then
        with_manager (showState ai_selection m) (loadAvailableAgents sid app)
      else with_overlay (showError "No session selected") app
  | None => with_overlay (showError "No session selected") app
  end.

(** [transitionToChatComparison()]: refused unless a session id and
    selected agents are present (an array is truthy, even empty). *)
Definition transitionToChatComparison (m : StateManager) (app : App)
    : App :=
  match selectedAgents (sessionData m) with
  | Some _ =>
      if truthy_opt (session_id (sessionData m)) then
        {| stateManager := Some (showState chat_comparison m);
           user := user app; ai := ai app;
           chatSession := Some (sessionData m);
           overlay := overlay app; calls := calls app;
           completions := completions app |}
      else
        with_overlay
          (showError "Missing session data or selected agents") app
  | None =>
      with_overlay (showError "Missing session data or selected agents") app
  end.

(** [onAISelectionComplete(selectedAgents)] *)
Definition onAISelectionComplete (agents : list Agent) (m : StateManager)
    (app : App) : App :=
  let app :=
    {| stateManager := stateManager app; user := user app; ai := ai app;
       chatSession := chatSession app; overlay := overlay app;
       calls := calls app; completions := agents :: completions app |} in
  let m :=
    setSessionData
      {| session_id := None; name := None; project_title := None;
         selectedAgents := Some agents |} m in
  transitionToChatComparison m (with_manager m app).

(** *** The session screen *)

(** [handleNewSession(event)] up to its [await]; [form_name] and
    [form_project_title] are the values of the submitted form. *)
Definition handleNewSession (form_name form_project_title : string)
    (app : App) : App :=
  let name := trim form_name in
  let projectTitle := trim form_project_title in
  if negb (truthy name) || negb (truthy projectTitle) then
    with_overlay (showError "Please fill in all fields.") app
  else
    call (Api.CreateSession name projectTitle)
      (with_overlay (showLoading "Creating new session...") app).

(** The rest of [handleNewSession], once [createSession] has settled. *)
Definition handleNewSession_settled (name projectTitle : string)
    (response : Settled SessionReply) (app : App) : App :=
  let app :=
    match response with
    | Resolved response =>
        if flag (sr_success response) then
          let selected :=
            {| session_id := sr_session_id response; name := Some name;
               project_title := Some projectTitle;
               selectedAgents := None |} in
          let app :=
            {| stateManager := stateManager app;
               user := {| sessions := sessions (user app);
                          selectedSession := Some selected |};
               ai := ai app; chatSession := chatSession app;
               overlay := overlay app; calls := calls app;
               completions := completions app |} in
          match stateManager app with
          | Some m =>
              let m := setSessionData selected m in
              transitionToAISelection m (with_manager m app)
          | None => app
          end
        else with_overlay (showError "Error creating session.") app
    | Rejected error =>
        with_overlay
          (showError ("Error creating session: " +:+ JS.message error)) app
    end in
  with_overlay hideLoading app.

(** *** The agent screen *)

(** [Array.prototype.includes] on an array of keys. *)
Definition includes (keys : list string) (k : string) : bool :=
  bool_decide (k ∈ keys).

(** The filter of [selectSecondAgent]:
    [this.availableAgents.filter(agent =>
       response.selected_agents.includes(agent.key))]. *)
Definition filter_selected (catalog : list Agent) (keys : list string)
    : list Agent :=
  List.filter (λ agent, includes keys (key agent)) catalog.

(** [selectSecondAgent(agentKey)] up to its [await]. *)
Definition selectSecondAgent (agentKey : string) (app : App) : App :=
  let app := with_overlay (showLoading "Selecting second agent...") app in
  call (Api.SelectSecondAgent (sessionId (ai app)) agentKey) app.

(** The rest of [selectSecondAgent], once the call has settled.  When
    the reply has no [selected_agents], the callback of [filter] throws
    a [TypeError] on the first agent of the catalog, which the [catch]
    clause reports; on an empty catalog the callback never runs. *)
Definition selectSecondAgent_settled (agentKey : string)
    (response : Settled AISelectionReply) (app : App) : App :=
  let app :=
    match response with
    | Resolved response =>
        if flag (success response) && flag (ready_for_conversation response)
        then
          let filtered : Settled (list Agent) :=
            match selected_agents response, availableAgents (ai app) with
            | Some keys, catalog => Resolved (filter_selected catalog keys)
            | None, [] => Resolved []
            | None, _ :: _ => Rejected (TypeError "undefined" "includes")
            end in
          match filtered with
          | Resolved selectedAgents =>
              match stateManager app with
              | Some m => onAISelectionComplete selectedAgents m app
              | None => app
              end
          | Rejected error =>
              with_overlay
                (showError
                   ("Error selecting second agent: " +:+ JS.message error))
                app
          end
        else with_overlay (showError "Error selecting second agent") app
    | Rejected error =>
        with_overlay
          (showError ("Error selecting second agent: " +:+ JS.message error))
          app
    end in
  with_overlay hideLoading app.

(** *** The session list, and the way back *)

Definition set_user (u : UserSelectionState) (app : App) : App :=
  {| stateManager := stateManager app; user := u; ai := ai app;
     chatSession := chatSession app; overlay := overlay app;
     calls := calls app; completions := completions app |}.

Definition set_ai (a : AISelectionState) (app : App) : App :=
  {| stateManager := stateManager app; user := user app; ai := a;
     chatSession := chatSession app; overlay := overlay app;
     calls := calls app; completions := completions app |}.

(** The reply of [getSessions]. *)
Record SessionsReply := {
  sessions_listed : option (list Session)
}.

(** [loadSessions()] up to its [await]. *)
Definition loadSessions (app : App) : App :=
  call Api.GetSessions (with_overlay (showLoading "Loading sessions...") app).

(** The rest of [loadSessions], as far as the list of the controller
    goes: [this.sessions = response.sessions || []]. *)
Definition loadSessions_settled (response : Settled SessionsReply)
    (app : App) : App :=
  let app :=
    match response with
    | Resolved response =>
        set_user
          {| sessions := default [] (sessions_listed response);
             selectedSession := selectedSession (user app) |}
          app
    | Rejected error =>
        with_overlay
          (showError ("Error loading sessions: " +:+ JS.message error)) app
    end in
  with_overlay hideLoading app.

(** A session of the list, as the properties the coordinator reads. *)
Definition session_data (s : Session) : SessionData :=
  {| session_id := Some (s_session_id s); name := Some (s_name s);
     project_title := Some (s_project_title s); selectedAgents := None |}.

(** [this.sessions.find(s => s.session_id === sessionId)] *)
Definition find_session (sessionId : string) (l : list Session)
    : option Session :=
  List.find (λ s, bool_decide (s_session_id s = sessionId)) l.

(** [selectSession(sessionId)] up to its [await]. *)
Definition selectSession (sessionId : string) (app : App) : App :=
  call (Api.SelectSession sessionId)
    (with_overlay (showLoading "Selecting session...") app).

(** The rest of [selectSession].  A session that is not in the list
    is [undefined]: the spread of [setSessionData] adds nothing. *)
Definition selectSession_settled (sessionId : string)
    (response : Settled SessionReply) (app : App) : App :=
  let app :=
    match response with
    | Resolved response =>
        if flag (sr_success response) then
          let session := find_session sessionId (sessions (user app)) in
          let app :=
            set_user
              {| sessions := sessions (user app);
                 selectedSession := session_data <$> session |}
              app in
          match stateManager app with
          | Some m =>
              let m :=
                setSessionData
                  (default no_session_data (session_data <$> session)) m in
              transitionToAISelection m (with_manager m app)
          | None => app
          end
        else with_overlay (showError "Error selecting session.") app
    | Rejected error =>
        with_overlay
          (showError ("Error selecting session: " +:+ JS.message error)) app
    end in
  with_overlay hideLoading app.

(** [UserSelectionState.reset()], as far as the controller goes: the
    selection is dropped and the sessions are loaded again. *)
Definition reset_user (app : App) : App :=
  loadSessions
    (set_user
       {| sessions := sessions (user app); selectedSession := None |} app).

(** [AISelectionState.reset()], as far as the controller goes. *)
Definition reset_ai (app : App) : App :=
  set_ai {| availableAgents := []; sessionId := None |} app.

(** [transitionToUserSelection()] *)
Definition transitionToUserSelection (m : StateManager) (app : App) : App :=
  reset_user (with_manager (showState user_selection m) app).

(** [resetToUserSelection()]: the session data is dropped, the
    controllers are reset in the order of the keys of [states] (the
    reset of the chat controller is [Chat.reset]), and the session
    screen is shown, which resets its controller once more. *)
Definition resetToUserSelection (m : StateManager) (app : App) : App :=
  let m := {| currentState := currentState m;
              sessionData := no_session_data |} in
  transitionToUserSelection m (reset_ai (reset_user (with_manager m app))).

End Selection.

(** ** [ChatComparisonState.js]: the dual-agent chat controller *)

Module Chat.

(** The two columns of the chat screen, ['ai-1'] and ['ai-2']. *)
Inductive AiId : Type := ai_1 | ai_2.

Global Instance AiId_eq_dec : EqDecision AiId.
Proof. solve_decision. Defined.

Global Instance AiId_countable : Countable AiId.
Proof.
  refine (inj_countable' (λ a, match a with ai_1 => false | ai_2 => true end)
            (λ b : bool, if b then ai_2 else ai_1) _).
  by intros [].
Defined.

(** One value per column. *)
Record Two (A : Type) := two { at_1 : A; at_2 : A }.
Arguments two {A} at_1 at_2.
Arguments at_1 {A} t.
Arguments at_2 {A} t.

Definition get {A} (ai : AiId) (t : Two A) : A :=
  match ai with ai_1 => at_1 t | ai_2 => at_2 t end.

Definition set {A} (ai : AiId) (x : A) (t : Two A) : Two A :=
  match ai with
  | ai_1 => two x (at_2 t)
  | ai_2 => two (at_1 t) x
  end.

(** [agents[0]] for ['ai-1'], [agents[1]] for ['ai-2']. *)
Definition index (ai : AiId) : nat :=
  match ai with ai_1 => 0%nat | ai_2 => 1%nat end.

(** Response metadata; every property may be missing. *)
Record Metadata := {
  display_name : option string;
  processing_time_seconds : option Q;
  cost_usd : option Q;
  error : option bool
}.

(** [{}], the default of the [metadata] parameter of [createMessage]. *)
Definition no_metadata : Metadata :=
  {| display_name := None; processing_time_seconds := None;
     cost_usd := None; error := None |}.

Inductive Role : Type := user | assistant.

(** The children of a message container.  A placeholder carries the
    identity of its element, by which the closure of its job finds it
    again; a message element is never looked up once inserted. *)
Inductive Node : Type :=
  | PlaceholderEl (id : nat)
  | MessageEl (role : Role) (content : string) (metadata : Metadata).

Global Instance Metadata_eq_dec : EqDecision Metadata.
Proof.
  intros [a b c d] [a' b' c' d'].
  destruct (decide (a = a')); [|right; congruence].
  destruct (decide (d = d')); [|right; congruence].
  assert (Hq : ∀ x y : option Q, Decision (x = y)).
  { intros [[n1 d1]|] [[n2 d2]|]; try (right; congruence);
      [|left; reflexivity].
    destruct (decide (n1 = n2)); [|right; congruence].
    destruct (decide (d1 = d2)); [|right; congruence].
    left; congruence. }
  destruct (Hq b b'); [|right; congruence].
  destruct (Hq c c'); [|right; congruence].
  left; congruence.
Defined.

Global Instance Role_eq_dec : EqDecision Role.
Proof. solve_decision. Defined.

Global Instance Node_eq_dec : EqDecision Node.
Proof. solve_decision. Defined.

(** [UIUtils.createMessage(content, role, metadata = {})] *)
Definition createMessage (content : string) (role : Role)
    (metadata : option Metadata) : Node :=
  MessageEl role content (default no_metadata metadata).

(** A status indicator, [ai-N-status]. *)
Record StatusEl := {
  className : string;
  textContent : string
}.

Record ButtonEl := {
  button_disabled : bool;
  button_text : string
}.

Record InputEl := {
  input_disabled : bool
}.

(** The elements of the page the controller looks up by id; [None] is
    an element the page does not have.  [next_element] numbers the
    elements created by [document.createElement]. *)
Record Dom := {
  messages : Two (option (list Node));
  statuses : Two (option StatusEl);
  send_button : option ButtonEl;
  message_input : option InputEl;
  overlay : Overlay;
  next_element : nat
}.

(** The reply of [chat/start]. *)
Record StartReply := {
  request_id : option string
}.

(** The reply of [chat/status], as far as [pollForResponses] reads it. *)
Record ChatStatus := {
  status : option string;
  responses : option (gmap string string);
  metadata : option (gmap string Metadata)
}.

(** Where the activation of [sendMessageWithStreaming] for one message
    stands: suspended on [startChatMessage], suspended on
    [getChatStatus], waiting for the timer set by [setTimeout], or
    over. *)
Inductive Phase : Type :=
  | AwaitingStart
  | AwaitingStatus
  | TimerPending (delay : Z)
  | Ended.

Global Instance Phase_eq_dec : EqDecision Phase.
Proof. solve_decision. Defined.

(** The variables of one activation of [sendMessageWithStreaming].
    [requestId], [responsesReceived] and [startTime] are bound when
    [startChatMessage] resolves. *)
Record Job := {
  message : string;
  agents : list Agent;
  placeholders : Two (option nat);
  requestId : option string;
  responsesReceived : gset AiId;
  startTime : Z;
  phase : Phase
}.

(** The controller, the page, the activations started so far (oldest
    first) and the calls made on [apiClient] (latest first). *)
Record State := {
  sessionData : SessionData;
  isProcessing : bool;
  dom : Dom;
  jobs : list Job;
  calls : list Api.Operation
}.

Definition maxWaitTime : Z := 60000.
Definition pollInterval : Z := 200.

(** *** Exceptions *)

(** A piece of code ends normally or throws, in both cases with the
    state it has reached. *)
Inductive Outcome (S : Type) : Type :=
  | Normal (s : S)
  | Thrown (e : JS.Error) (s : S).
Arguments Normal {S} s.
Arguments Thrown {S} e s.

(** A statement, and the sequence of two statements. *)
Definition Stmt (S : Type) : Type := S → Outcome S.

Definition seq {S} (f g : Stmt S) : Stmt S :=
  λ s,
    match f s with
    | Normal s' => g s'
    | Thrown e s' => Thrown e s'
    end.

Notation "f >> g" := (seq f g) (at level 60, right associativity).

(** A statement that cannot throw. *)
Definition pure {S} (f : S → S) : Stmt S := λ s, Normal (f s).

(** [try { f } catch (error) { h error }] *)
Definition try_catch {S} (f : Stmt S) (h : JS.Error → Stmt S) : Stmt S :=
  λ s,
    match f s with
    | Normal s' => Normal s'
    | Thrown e s' => h e s'
    end.

(** [try { f } finally { g }], for a [g] that does not throw. *)
Definition try_finally {S} (f : Stmt S) (g : S → S) : Stmt S :=
  λ s,
    match f s with
    | Normal s' => Normal (g s')
    | Thrown e s' => Thrown e (g s')
    end.

(** The state a piece of code ends in. *)
Definition final {S} (o : Outcome S) : S :=
  match o with
  | Normal s => s
  | Thrown _ s => s
  end.

(** *** The page *)

Definition set_messages (ai : AiId) (children : list Node) (d : Dom)
    : Dom :=
  {| messages := set ai (Some children) (messages d);
     statuses := statuses d; send_button := send_button d;
     message_input := message_input d; overlay := overlay d;
     next_element := next_element d |}.

(** [UIUtils.updateAIStatus(aiId, status, text)] *)
Definition updateAIStatus (aiId : AiId) (status text : string) (d : Dom)
    : Dom :=
  match get aiId (statuses d) with
  | Some _ =>
      {| messages := messages d;
         statuses :=
           set aiId
             (Some {| className := "ai-status " +:+ status;
                      textContent := text |})
             (statuses d);
         send_button := send_button d; message_input := message_input d;
         overlay := overlay d; next_element := next_element d |}
  | None => d
  end.

(** [UIUtils.showError(message)] *)
Definition showErrorModal (msg : string) (d : Dom) : Dom :=
  {| messages := messages d; statuses := statuses d;
     send_button := send_button d; message_input := message_input d;
     overlay := showError msg (overlay d);
     next_element := next_element d |}.

(** [container.appendChild(node)] on the container
    [document.getElementById(`${aiId}-messages`)], which may be [null]. *)
Definition appendChild (aiId : AiId) (node : Node) : Stmt Dom :=
  λ d,
    match get aiId (messages d) with
    | Some children => Normal (set_messages aiId (children ++ [node])%list d)
    | None => Thrown (TypeError "null" "appendChild") d
    end.

(** [parent.replaceChild(new, old)] on the children of [parent]. *)
Fixpoint replaceChild (new : Node) (old : nat) (children : list Node)
    : list Node :=
  match children with
  | [] => []
  | node :: rest =>
      if decide (node = PlaceholderEl old) then new :: rest
      else node :: replaceChild new old rest
  end.

Definition contains (aiId : AiId) (placeholder : nat) (d : Dom) : bool :=
  match get aiId (messages d) with
  | Some children => bool_decide (PlaceholderEl placeholder ∈ children)
  | None => false
  end.

(** [placeholder.parentNode]: the container the element is a child of,
    [None] once it has been taken out of the page. *)
Definition parentNode (placeholder : nat) (d : Dom) : option AiId :=
  if contains ai_1 placeholder d then Some ai_1
  else if contains ai_2 placeholder d then Some ai_2
  else None.

(** [placeholder.parentNode.replaceChild(messageEl, placeholder)] *)
Definition replace_placeholder (messageEl : Node) (placeholder : nat)
    : Stmt Dom :=
  λ d,
    match parentNode placeholder d with
    | Some parent =>
        Normal
          (set_messages parent
             (replaceChild messageEl placeholder
                (default [] (get parent (messages d))))
             d)
    | None => Thrown (TypeError "null" "replaceChild") d
    end.

(** [createPlaceholderMessage(aiId)]: the new element, or [null] when
    the page has no container for the column. *)
Definition createPlaceholderMessage (aiId : AiId) (d : Dom)
    : option nat * Dom :=
  match get aiId (messages d) with
  | None => (None, d)
  | Some children =>
      let placeholder := next_element d in
      (Some placeholder,
       {| messages :=
            set aiId (Some (children ++ [PlaceholderEl placeholder])%list)
              (messages d);
          statuses := statuses d; send_button := send_button d;
          message_input := message_input d; overlay := overlay d;
          next_element := S (next_element d) |})
  end.

(** [replaceWithActualResponse(placeholder, aiId, content, metadata)] *)
Definition replaceWithActualResponse (placeholder : option nat)
    (aiId : AiId) (content : string) (metadata : option Metadata)
    : Stmt Dom :=
  match placeholder with
  | None => pure id
  | Some placeholder =>
      replace_placeholder (createMessage content assistant metadata)
        placeholder
      >> pure (updateAIStatus aiId "ready" "Ready")
  end.

(** [handleResponseFailure(placeholder, aiId, message, metadata, status)] *)
Definition handleResponseFailure (placeholder : option nat) (aiId : AiId)
    (message : string) (metadata : Metadata) (status : string)
    : Stmt Dom :=
  match placeholder with
  | None => pure id
  | Some placeholder =>
      replace_placeholder (createMessage message assistant (Some metadata))
        placeholder
      >> pure (updateAIStatus aiId "error" status)
  end.

Definition timeout_metadata : Metadata :=
  {| display_name := None;
     processing_time_seconds := Some (inject_Z 30);
     cost_usd := Some (inject_Z 0);
     error := Some true |}.

Definition error_metadata : Metadata :=
  {| display_name := None;
     processing_time_seconds := Some (inject_Z 0);
     cost_usd := Some (inject_Z 0);
     error := Some true |}.

(** [handleResponseTimeout(placeholder, aiId)] *)
Definition handleResponseTimeout (placeholder : option nat) (aiId : AiId)
    : Stmt Dom :=
  handleResponseFailure placeholder aiId "Request timeout" timeout_metadata
    "Timeout".

(** [handleResponseError(placeholder, aiId, error)] *)
Definition handleResponseError (placeholder : option nat) (aiId : AiId)
    (error : JS.Error) : Stmt Dom :=
  handleResponseFailure placeholder aiId ("Error: " +:+ JS.message error)
    error_metadata "Error".

(** *** The poll loop of one job *)

Definition on_dom (f : Stmt Dom) : Stmt (Job * Dom) :=
  λ '(job, d),
    match f d with
    | Normal d' => Normal (job, d')
    | Thrown e d' => Thrown e (job, d')
    end.

Definition set_phase (ph : Phase) (job : Job) : Job :=
  {| message := message job; agents := agents job;
     placeholders := placeholders job; requestId := requestId job;
     responsesReceived := responsesReceived job;
     startTime := startTime job; phase := ph |}.

(** [responsesReceived.has(aiId)] *)
Definition has (aiId : AiId) (job : Job) : bool :=
  bool_decide (aiId ∈ responsesReceived job).

(** [responsesReceived.add(aiId)] *)
Definition add (aiId : AiId) (job : Job) : Job :=
  {| message := message job; agents := agents job;
     placeholders := placeholders job; requestId := requestId job;
     responsesReceived := {[aiId]} ∪ responsesReceived job;
     startTime := startTime job; phase := phase job |}.

(** One of the two blocks "Check first AI response" and "Check second
    AI response" of [pollForResponses]. *)
Definition check_response (aiId : AiId) (responses : gmap string string)
    (metadata : gmap string Metadata) : Stmt (Job * Dom) :=
  λ '(job, d),
    match agents job !! index aiId with
    | Some agent =>
        if truthy_opt (responses !! key agent) && negb (has aiId job) then
          on_dom
            (replaceWithActualResponse (get aiId (placeholders job)) aiId
               (default EmptyString (responses !! key agent))
               (metadata !! key agent))
            (add aiId job, d)
        else Normal (job, d)
    | None => Normal (job, d)
    end.

(** [if (status.responses && status.metadata) { ... }] *)
Definition check_responses (status : ChatStatus) : Stmt (Job * Dom) :=
  match responses status, metadata status with
  | Some responses, Some metadata =>
      check_response ai_1 responses metadata
      >> check_response ai_2 responses metadata
  | _, _ => pure id
  end.

(** The condition under which [pollForResponses] re-arms its timer:
    [responsesReceived.size < 2 && status.status !== 'completed' &&
     (Date.now() - startTime) < maxWaitTime]. *)
Definition continue_polling (status : ChatStatus) (now : Z) (job : Job)
    : bool :=
  bool_decide (size (responsesReceived job) < 2)%nat
  && negb (bool_decide (Chat.status status = Some "completed"))
  && bool_decide (now - startTime job < maxWaitTime).

(** The two guarded calls of [handleResponseTimeout]. *)
Definition timeout_remaining : Stmt (Job * Dom) :=
  (λ '(job, d),
     if has ai_1 job then Normal (job, d)
     else on_dom (handleResponseTimeout (at_1 (placeholders job)) ai_1)
            (job, d))
  >> (λ '(job, d),
        if has ai_2 job then Normal (job, d)
        else on_dom (handleResponseTimeout (at_2 (placeholders job)) ai_2)
               (job, d)).

(** The two guarded calls of [handleResponseError], in the [catch]
    clause of [pollForResponses]. *)
Definition error_remaining (error : JS.Error) : Stmt (Job * Dom) :=
  (λ '(job, d),
     if has ai_1 job then Normal (job, d)
     else on_dom (handleResponseError (at_1 (placeholders job)) ai_1 error)
            (job, d))
  >> (λ '(job, d),
        if has ai_2 job then Normal (job, d)
        else
          on_dom (handleResponseError (at_2 (placeholders job)) ai_2 error)
            (job, d)).

(** The [try] block of [pollForResponses] after [getChatStatus] has
    resolved; [now] is the value of [Date.now()].  [setTimeout] arms
    the timer of the job. *)
Definition poll_body (status : ChatStatus) (now : Z) : Stmt (Job * Dom) :=
  check_responses status
  >> (λ '(job, d),
        if continue_polling status now job then
          Normal (set_phase (TimerPending pollInterval) job, d)
        else if bool_decide (size (responsesReceived job) < 2)%nat then
          timeout_remaining (job, d)
        else Normal (job, d)).

(** [pollForResponses] from the point where [getChatStatus] settles.
    Unless the timer is armed again the activation is over.  An
    exception that escapes the [catch] clause rejects the promise of
    [pollForResponses], which nothing awaits. *)
Definition pollForResponses_settled (reply : Settled ChatStatus) (now : Z)
    (job : Job) (d : Dom) : Job * Dom :=
  final
    (match reply with
     | Resolved status =>
         try_catch (poll_body status now) error_remaining
           (set_phase Ended job, d)
     | Rejected error => error_remaining error (set_phase Ended job, d)
     end).

(** *** The controller *)

Definition set_dom (d : Dom) (st : State) : State :=
  {| sessionData := sessionData st; isProcessing := isProcessing st;
     dom := d; jobs := jobs st; calls := calls st |}.

Definition set_isProcessing (b : bool) (st : State) : State :=
  {| sessionData := sessionData st; isProcessing := b; dom := dom st;
     jobs := jobs st; calls := calls st |}.

Definition call (op : Api.Operation) (st : State) : State :=
  {| sessionData := sessionData st; isProcessing := isProcessing st;
     dom := dom st; jobs := jobs st; calls := op :: calls st |}.

Definition on_page (f : Stmt Dom) : Stmt State :=
  λ st,
    match f (dom st) with
    | Normal d => Normal (set_dom d st)
    | Thrown e d => Thrown e (set_dom d st)
    end.

(** [updateSendButton()] *)
Definition updateSendButton (st : State) : State :=
  let d := dom st in
  set_dom
    {| messages := messages d; statuses := statuses d;
       send_button :=
         match send_button d with
         | Some _ =>
             Some {| button_disabled := isProcessing st;
                     button_text :=
                       if isProcessing st then "Sending..." else "Send" |}
         | None => None
         end;
       message_input :=
         match message_input d with
         | Some _ => Some {| input_disabled := isProcessing st |}
         | None => None
         end;
       overlay := overlay d; next_element := next_element d |}
    st.

(** [this.sessionData.selectedAgents || []] *)
Definition selected (st : State) : list Agent :=
  default [] (selectedAgents (sessionData st)).

(** [addUserMessage(message)] *)
Definition addUserMessage (message : string) : Stmt State :=
  λ st,
    ((match selected st !! 0%nat with
      | Some _ => on_page (appendChild ai_1 (createMessage message user None))
      | None => pure id
      end)
     >> (match selected st !! 1%nat with
         | Some _ =>
             on_page (appendChild ai_2 (createMessage message user None))
         | None => pure id
         end)) st.

(** [sendMessageWithStreaming(message)] up to its [await]: the two
    placeholders are created and [startChatMessage] is called. *)
Definition sendMessageWithStreaming (message : string) (st : State)
    : State :=
  let agents := selected st in
  let '(ai1Placeholder, d) := createPlaceholderMessage ai_1 (dom st) in
  let '(ai2Placeholder, d) := createPlaceholderMessage ai_2 d in
  let job :=
    {| message := message; agents := agents;
       placeholders := two ai1Placeholder ai2Placeholder;
       requestId := None; responsesReceived := ∅; startTime := 0;
       phase := AwaitingStart |} in
  {| sessionData := sessionData st; isProcessing := isProcessing st;
     dom := d; jobs := (jobs st ++ [job])%list;
     calls :=
       Api.StartChatMessage (session_id (sessionData st)) message
       :: calls st |}.

(** [handleMessageSubmit(event)] up to the [await] of
    [sendMessageWithStreaming]; [value] is the text of the message
    input when the form is submitted. *)
Definition handleMessageSubmit (value : string) : Stmt State :=
  λ st,
    if isProcessing st then Normal st
    else
      match message_input (dom st) with
      | None => Thrown (TypeError "null" "value") st
      | Some _ =>
          let message := trim value in
          if negb (truthy message) then Normal st
          else
            (pure (set_isProcessing true)
             >> pure updateSendButton
             >> addUserMessage message
             >> on_page
                  (pure (updateAIStatus ai_1 "processing" "Processing..."))
             >> on_page
                  (pure (updateAIStatus ai_2 "processing" "Processing..."))
             >> pure (sendMessageWithStreaming message)) st
      end.

Definition set_job (j : nat) (job : Job) (st : State) : State :=
  {| sessionData := sessionData st; isProcessing := isProcessing st;
     dom := dom st; jobs := <[j := job]> (jobs st); calls := calls st |}.

(** [pollForResponses()] up to its [await]: [getChatStatus] is called. *)
Definition pollForResponses (j : nat) (job : Job) (st : State) : State :=
  call (Api.GetChatStatus (requestId job))
    (set_job j (set_phase AwaitingStatus job) st).

(** The rest of [sendMessageWithStreaming] for the job [j], once
    [startChatMessage] has settled; [now] is the value of
    [Date.now()]. *)
Definition sendMessageWithStreaming_settled (j : nat) (job : Job)
    (reply : Settled StartReply) (now : Z) : Stmt State :=
  match reply with
  | Resolved startResponse =>
      pure
        (pollForResponses j
           {| message := message job; agents := agents job;
              placeholders := placeholders job;
              requestId := request_id startResponse;
              responsesReceived := ∅; startTime := now;
              phase := phase job |})
  | Rejected error =>
      pure (set_job j (set_phase Ended job))
      >> on_page (handleResponseError (at_1 (placeholders job)) ai_1 error)
      >> on_page (handleResponseError (at_2 (placeholders job)) ai_2 error)
  end.

(** The rest of [handleMessageSubmit]: the [await] of
    [sendMessageWithStreaming] inside [try], the [catch] and the
    [finally] clauses. *)
Definition handleMessageSubmit_settled (j : nat) (job : Job)
    (reply : Settled StartReply) (now : Z) : Stmt State :=
  try_finally
    (try_catch (sendMessageWithStreaming_settled j job reply now)
       (λ error,
          on_page
            (pure
               (showErrorModal
                  ("Error sending message: " +:+ JS.message error)))
          >> on_page (pure (updateAIStatus ai_1 "error" "Error"))
          >> on_page (pure (updateAIStatus ai_2 "error" "Error"))))
    (λ st, updateSendButton (set_isProcessing false st)).

(** The rest of [pollForResponses] for the job [j]. *)
Definition pollForResponses_resumed (j : nat) (job : Job)
    (reply : Settled ChatStatus) (now : Z) (st : State) : State :=
  let '(job', d) := pollForResponses_settled reply now job (dom st) in
  set_dom d (set_job j job' st).

(** [clearMessages()] *)
Definition clearMessages (d : Dom) : Dom :=
  {| messages :=
       two (match at_1 (messages d) with Some _ => Some [] | None => None end)
           (match at_2 (messages d) with Some _ => Some [] | None => None end);
     statuses := statuses d; send_button := send_button d;
     message_input := message_input d; overlay := overlay d;
     next_element := next_element d |}.

(** [updateAIHeaders()], as far as the status indicators go. *)
Definition updateAIHeaders (agents : list Agent) (d : Dom) : Dom :=
  if bool_decide (2 ≤ List.length agents)%nat then
    updateAIStatus ai_2 "ready" "Ready" (updateAIStatus ai_1 "ready" "Ready" d)
  else d.

(** [new ChatComparisonState()] on a page. *)
Definition new_ChatComparisonState (page : Dom) : State :=
  {| sessionData := no_session_data; isProcessing := false; dom := page;
     jobs := []; calls := [] |}.

(** [initializeChat(sessionData)] *)
Definition initializeChat (data : SessionData) (st : State) : State :=
  updateSendButton
    {| sessionData := data; isProcessing := false;
       dom :=
         clearMessages
           (updateAIHeaders (default [] (selectedAgents data)) (dom st));
       jobs := jobs st; calls := calls st |}.

(** [reset()], as far as the status indicators go. *)
Definition reset (st : State) : State :=
  let st :=
    updateSendButton
      {| sessionData := no_session_data; isProcessing := false;
         dom := clearMessages (dom st); jobs := jobs st;
         calls := calls st |} in
  set_dom
    (updateAIStatus ai_2 "ready" "Ready"
       (updateAIStatus ai_1 "ready" "Ready" (dom st)))
    st.

(** *** Events *)

(** What happens on the chat screen: the form is submitted, a call of
    [startChatMessage] or of [getChatStatus] settles, or the timer of a
    job fires.  A job is named by its position in [jobs]. *)
Inductive Event : Type :=
  | Submit (value : string)
  | StartSettled (j : nat) (reply : Settled StartReply) (now : Z)
  | StatusSettled (j : nat) (reply : Settled ChatStatus) (now : Z)
  | TimerFired (j : nat).

(** The handler run by an event; [None] when the event cannot occur:
    the job does not exist or is not waiting for it. *)
Definition step (ev : Event) (st : State) : option State :=
  match ev with
  | Submit value => Some (final (handleMessageSubmit value st))
  | StartSettled j reply now =>
      match jobs st !! j with
      | Some job =>
          match phase job with
          | AwaitingStart =>
              Some (final (handleMessageSubmit_settled j job reply now st))
          | _ => None
          end
      | None => None
      end
  | StatusSettled j reply now =>
      match jobs st !! j with
      | Some job =>
          match phase job with
          | AwaitingStatus =>
              Some (pollForResponses_resumed j job reply now st)
          | _ => None
          end
      | None => None
      end
  | TimerFired j =>
      match jobs st !! j with
      | Some job =>
          match phase job with
          | TimerPending _ => Some (pollForResponses j job st)
          | _ => None
          end
      | None => None
      end
  end.

(** The page has every element the controller looks up. *)
Definition complete (page : Dom) : Prop :=
  is_Some (at_1 (messages page)) ∧ is_Some (at_2 (messages page))
  ∧ is_Some (at_1 (statuses page)) ∧ is_Some (at_2 (statuses page))
  ∧ is_Some (send_button page) ∧ is_Some (message_input page).

(** The states of a chat session: the controller is created on a
    complete page and initialised, then events occur.  Leaving the chat
    screen, resetting it or initialising it again while a job is going
    on is not part of a session. *)
Inductive reachable : State → Prop :=
  | reachable_init page data :
      complete page →
      reachable (initializeChat data (new_ChatComparisonState page))
  | reachable_step st ev st' :
      reachable st → step ev st = Some st' → reachable st'.

(** A run: the events of a list occur one after the other. *)
Fixpoint run (evs : list Event) (st : State) : option State :=
  match evs with
  | [] => Some st
  | ev :: evs =>
      match step ev st with
      | Some st' => run evs st'
      | None => None
      end
  end.

(** *** Notions used to state and prove the properties *)

Definition other (aiId : AiId) : AiId :=
  match aiId with ai_1 => ai_2 | ai_2 => ai_1 end.

(** The children of the message container of a column. *)
Definition column (aiId : AiId) (d : Dom) : list Node :=
  default [] (get aiId (messages d)).

(** The status indicator of a column. *)
Definition indicator (aiId : AiId) (d : Dom) : option StatusEl :=
  get aiId (statuses d).

(** The page after the placeholder of a column has been replaced by
    [node] and the indicator of the column set. *)
Definition resolve (aiId : AiId) (placeholder : nat) (node : Node)
    (status text : string) (d : Dom) : Dom :=
  updateAIStatus aiId status text
    (set_messages aiId (replaceChild node placeholder (column aiId d)) d).

(** The message element of a response. *)
Definition is_message (node : Node) : Prop :=
  match node with
  | MessageEl _ _ _ => True
  | PlaceholderEl _ => False
  end.

(** The slot of a job for a column is open: the job is not over and
    has not received the response of the column. *)
Definition open (aiId : AiId) (job : Job) : Prop :=
  phase job ≠ Ended ∧ aiId ∉ responsesReceived job.

(** The placeholder of a slot is where the closure of the job expects
    it: on no other column, and on its own column as long as the
    response has not been received. *)
Definition slot_ok (aiId : AiId) (job : Job) (d : Dom) : Prop :=
  ∃ p, get aiId (placeholders job) = Some p
    ∧ contains (other aiId) p d = false
    ∧ (aiId ∉ responsesReceived job → contains aiId p d = true).

(** The message element a status reply brings for a column whose
    response has not been received yet. *)
Definition answer (aiId : AiId) (responses : gmap string string)
    (metadata : gmap string Metadata) (job : Job) : option Node :=
  match agents job !! index aiId with
  | Some agent =>
      if truthy_opt (responses !! key agent) && negb (has aiId job) then
        Some (createMessage (default EmptyString (responses !! key agent))
                assistant (metadata !! key agent))
      else None
  | None => None
  end.

(** The handlers, read on a page where the placeholders are in place
    and no exception occurs: [receive] is one of the two blocks that
    check a response, [settle_open] one guarded call of
    [handleResponseTimeout] or of [handleResponseError], and [settled]
    is [pollForResponses_settled]. *)
Definition receive (aiId : AiId) (status : ChatStatus) (jd : Job * Dom)
    : Job * Dom :=
  match responses status, metadata status with
  | Some responses, Some metadata =>
      match answer aiId responses metadata (jd.1),
            get aiId (placeholders (jd.1)) with
      | Some node, Some p =>
          (add aiId (jd.1), resolve aiId p node "ready" "Ready" (jd.2))
      | _, _ => jd
      end
  | _, _ => jd
  end.

Definition settle_open (aiId : AiId) (node : Node) (text : string)
    (job : Job) (d : Dom) : Dom :=
  if has aiId job then d
  else
    match get aiId (placeholders job) with
    | Some p => resolve aiId p node "error" text d
    | None => d
    end.

Definition timeout_node : Node :=
  createMessage "Request timeout" assistant (Some timeout_metadata).

Definition error_node (error : JS.Error) : Node :=
  createMessage ("Error: " +:+ JS.message error) assistant
    (Some error_metadata).

Definition settled (reply : Settled ChatStatus) (now : Z) (job : Job)
    (d : Dom) : Job * Dom :=
  match reply with
  | Resolved status =>
      let jd :=
        receive ai_2 status (receive ai_1 status (set_phase Ended job, d)) in
      if continue_polling status now (jd.1) then
        (set_phase (TimerPending pollInterval) (jd.1), jd.2)
      else
        (jd.1,
         settle_open ai_2 timeout_node "Timeout" (jd.1)
           (settle_open ai_1 timeout_node "Timeout" (jd.1) (jd.2)))
  | Rejected error =>
      (set_phase Ended job,
       settle_open ai_2 (error_node error) "Error" (set_phase Ended job)
         (settle_open ai_1 (error_node error) "Error" (set_phase Ended job)
            d))
  end.

(** [d'] is [d] up to the replacement of placeholders among [ps] by
    messages, the state of the indicators and of the form, and the
    error modal. *)
Record resolves (ps : list nat) (d d' : Dom) : Prop := {
  res_next : next_element d' = next_element d;
  res_button : is_Some (send_button d') ↔ is_Some (send_button d);
  res_input : is_Some (message_input d') ↔ is_Some (message_input d);
  res_messages :
    ∀ aiId, is_Some (get aiId (messages d')) ↔ is_Some (get aiId (messages d));
  res_statuses :
    ∀ aiId, is_Some (indicator aiId d') ↔ is_Some (indicator aiId d);
  res_in : ∀ aiId q, contains aiId q d' = true → contains aiId q d = true;
  res_keep :
    ∀ aiId q, q ∉ ps → contains aiId q d = true → contains aiId q d' = true
}.

(** The variables of the job a handler may change are
    [responsesReceived], which grows, and the phase. *)
Definition same_closure (job job' : Job) : Prop :=
  message job' = message job ∧ agents job' = agents job
  ∧ placeholders job' = placeholders job ∧ requestId job' = requestId job
  ∧ startTime job' = startTime job
  ∧ responsesReceived job ⊆ responsesReceived job'.

(** The invariant of a chat session: the page is complete; the
    placeholders on the page are numbered below [next_element]; every
    job has a placeholder for each column, which is on no other column
    and is still on its own while the slot is open; no placeholder
    belongs to two slots; a job waiting for [startChatMessage] has
    received nothing. *)
Record Inv (st : State) : Prop := {
  inv_complete : complete (dom st);
  inv_bound :
    ∀ aiId p, contains aiId p (dom st) = true → (p < next_element (dom st))%nat;
  inv_slot :
    ∀ j job aiId, jobs st !! j = Some job →
      ∃ p, get aiId (placeholders job) = Some p
        ∧ (p < next_element (dom st))%nat
        ∧ contains (other aiId) p (dom st) = false
        ∧ (open aiId job → contains aiId p (dom st) = true);
  inv_distinct :
    ∀ j k job job' aiId aiId' p,
      jobs st !! j = Some job → jobs st !! k = Some job' →
      get aiId (placeholders job) = Some p →
      get aiId' (placeholders job') = Some p →
      j = k ∧ aiId = aiId';
  inv_fresh :
    ∀ j job, jobs st !! j = Some job → phase job = AwaitingStart →
      responsesReceived job = ∅
}.

(** The reply to a poll carries a response for the agent of the
    column: the job has an agent for the column, the reply has its two
    maps, and the response of the agent is a non-empty string. *)
Definition brings (aiId : AiId) (status : ChatStatus) (job : Job) : Prop :=
  ∃ agent rs ms content,
    agents job !! index aiId = Some agent
    ∧ responses status = Some rs ∧ metadata status = Some ms
    ∧ rs !! key agent = Some content ∧ content ≠ EmptyString.

(** A call as a chat session makes them: [startChatMessage] for the
    session of the controller, with a message that is not empty and is
    trimmed, or [getChatStatus] for the request of a job that has been
    started. *)
Definition chat_call (st : State) (op : Api.Operation) : Prop :=
  match op with
  | Api.StartChatMessage sid message =>
      sid = session_id (sessionData st) ∧ message ≠ EmptyString
      ∧ trimmed message
  | Api.GetChatStatus rid =>
      ∃ j job, jobs st !! j = Some job ∧ phase job ≠ AwaitingStart
        ∧ requestId job = rid
  | _ => False
  end.

(** A statement takes every state where [P] holds to a state related
    to it by [R], whether it ends normally or throws. *)
Definition keeps {S} (P : S → Prop) (R : S → S → Prop) (f : Stmt S)
    : Prop :=
  ∀ s, P s → R s (final (f s)).

(** No placeholder of the job is on the page: the elements have been
    taken out of their containers. *)
Definition detached (job : Job) (d : Dom) : Prop :=
  ∀ aiId p, get aiId (placeholders job) = Some p → parentNode p d = None.


(** The page is left as it is, and the job keeps its placeholders. *)
Definition page_left (jd jd' : Job * Dom) : Prop :=
  jd'.2 = jd.2 ∧ placeholders jd'.1 = placeholders jd.1.

(** The columns of [d'] continue those of [d]: none is shorter, and
    every message of [d] is in [d'] at the same place. *)
Definition history_kept (d d' : Dom) : Prop :=
  ∀ aiId,
    (List.length (column aiId d) ≤ List.length (column aiId d'))%nat
    ∧ ∀ i node, column aiId d !! i = Some node → is_message node →
        column aiId d' !! i = Some node.

(** The form of [d'] is the one of [d]. *)
Definition same_form (d d' : Dom) : Prop :=
  send_button d' = send_button d ∧ message_input d' = message_input d.

(** A quiet handler keeps the history and leaves the form as it is;
    on the controller, it also leaves the guard and the session data. *)
Definition quiet (d d' : Dom) : Prop := history_kept d d' ∧ same_form d d'.

Definition quiet_state (st st' : State) : Prop :=
  quiet (dom st) (dom st')
  ∧ isProcessing st' = isProcessing st ∧ sessionData st' = sessionData st.

Definition quiet_pair (jd jd' : Job * Dom) : Prop := quiet jd.2 jd'.2.

(** The condition that holds of every state. *)
Definition always {S : Type} (s : S) : Prop := True.

(** The form shows the guard: the send button and the message input
    are disabled exactly while [isProcessing] is set. *)
Definition form_shows_guard (st : State) : Prop :=
  send_button (dom st)
  = Some {| button_disabled := isProcessing st;
            button_text := if isProcessing st then "Sending..." else "Send" |}
  ∧ message_input (dom st) = Some {| input_disabled := isProcessing st |}.

End Chat.


(** ** [AISelectionState.js]: the cards of the agent screen *)

Module AgentScreen.
Import Selection.

(** A card of an agent container, as [UIUtils.createAICard] builds it:
    the agent it shows, whose key is its [data-agent-key]; its classes
    [selected] and [disabled]; and whether its header holds the badge
    [Selected]. *)
Record Card := {
  agent : Agent;
  selected : bool;
  disabled : bool;
  badge : bool
}.

(** [UIUtils.createAICard(agent, selected, disabled)] *)
Definition createAICard (agent : Agent) (selected disabled : bool) : Card :=
  {| agent := agent; selected := selected; disabled := disabled;
     badge := selected |}.

(** The children of a container: cards, or the notice that stands for
    them. *)
Inductive Child : Type :=
  | CardEl (card : Card)
  | NoticeEl (text : string).

(** The elements of the agent screen the controller looks up by id;
    [None] is an element the page does not have.  For the section of
    the second selection, whether it is displayed. *)
Record Page := {
  first_ai_options : option (list Child);
  second_ai_options : option (list Child);
  second_ai_section : option bool
}.

(** [container.querySelectorAll('.ai-card')] *)
Definition cards (children : list Child) : list Card :=
  omap (λ child, match child with
                 | CardEl card => Some card
                 | NoticeEl _ => None
                 end) children.

(** The cards appended to an emptied container, one for each agent:
    [agents.forEach(agent => container.appendChild(
       UIUtils.createAICard(agent, false, false)))]. *)
Definition render (agents : list Agent) : list Child :=
  (λ agent, CardEl (createAICard agent false false)) <$> agents.

(** [renderFirstAgentOptions()] *)
Definition renderFirstAgentOptions (catalog : list Agent) (p : Page) : Page :=
  match first_ai_options p with
  | None => p
  | Some _ =>
      {| first_ai_options :=
           Some match catalog with
                | [] => [NoticeEl "No AI agents available."]
                | _ :: _ => render catalog
                end;
         second_ai_options := second_ai_options p;
         second_ai_section := second_ai_section p |}
  end.

(** What [updateAgentSelection] does to one card. *)
Definition update_card (agentKey : string) (disableOthers : bool)
    (card : Card) : Card :=
  if decide (key (agent card) = agentKey) then
    {| agent := agent card; selected := true; disabled := disabled card;
       badge := true |}
  else
    {| agent := agent card; selected := false; disabled := disableOthers;
       badge := false |}.

(** [updateAgentSelection(containerId, agentKey, disableOthers)], on
    the children of the container. *)
Definition updateAgentSelection (agentKey : string) (disableOthers : bool)
    (container : option (list Child)) : option (list Child) :=
  match container with
  | None => None
  | Some children =>
      Some ((λ child,
               match child with
               | CardEl card =>
                   CardEl (update_card agentKey disableOthers card)
               | NoticeEl text => NoticeEl text
               end) <$> children)
  end.

(** [updateFirstAgentSelection(agentKey)] *)
Definition updateFirstAgentSelection (agentKey : string) (p : Page) : Page :=
  {| first_ai_options :=
       updateAgentSelection agentKey false (first_ai_options p);
     second_ai_options := second_ai_options p;
     second_ai_section := second_ai_section p |}.

(** [updateSecondAgentSelection(agentKey)] *)
Definition updateSecondAgentSelection (agentKey : string) (p : Page) : Page :=
  {| first_ai_options := first_ai_options p;
     second_ai_options :=
       updateAgentSelection agentKey true (second_ai_options p);
     second_ai_section := second_ai_section p |}.

(** The click listeners of [bindEvents]: a click on the child [i] of a
    container selects the key of that child when it is a card that is
    not disabled, and does nothing otherwise. *)
Definition clicked (container : option (list Child)) (i : nat)
    : option string :=
  match container with
  | None => None
  | Some children =>
      match children !! i with
      | Some (CardEl card) =>
          if disabled card then None else Some (key (agent card))
      | _ => None
      end
  end.

(** Where an activation of an [async] method of the controller
    stands: [loadAvailableAgents] waits for the catalog;
    [selectFirstAgent] waits for its call and then, inside
    [renderSecondAgentOptions], for the options; [selectSecondAgent]
    waits for its call; or the activation is over. *)
Inductive Pending : Type :=
  | Catalog
  | First (agentKey : string)
  | Options
  | Second (agentKey : string)
  | Over.

(** The controller with its page and its activations, oldest first. *)
Record Screen := {
  app : App;
  page : Page;
  pending : list Pending
}.

(** [new AISelectionState()] on a page. *)
Definition new_AISelectionState (app : App) (page : Page) : Screen :=
  {| app := set_ai {| availableAgents := []; sessionId := None |} app;
     page := page; pending := [] |}.

(** [loadAvailableAgents(sessionId)] up to its [await]. *)
Definition loadAvailableAgents (sid : string) (s : Screen) : Screen :=
  {| app := Selection.loadAvailableAgents sid (app s); page := page s;
     pending := (pending s ++ [Catalog])%list |}.

(** The rest of [loadAvailableAgents]. *)
Definition loadAvailableAgents_settled (i : nat)
    (response : Settled AISelectionReply) (s : Screen) : Screen :=
  let '(app', page') :=
    match response with
    | Resolved response =>
        match flag (success response), available_agents response with
        | true, Some agents =>
            (set_ai {| availableAgents := agents;
                       sessionId := sessionId (ai (app s)) |} (app s),
             renderFirstAgentOptions agents (page s))
        | _, _ =>
            (with_overlay (showError "Error loading AI agents") (app s),
             page s)
        end
    | Rejected error =>
        (with_overlay
           (showError ("Error loading AI agents: " +:+ JS.message error))
           (app s),
         page s)
    end in
  {| app := with_overlay hideLoading app'; page := page';
     pending := <[i := Over]> (pending s) |}.

(** [selectFirstAgent(agentKey)] up to its first [await]. *)
Definition selectFirstAgent (agentKey : string) (s : Screen) : Screen :=
  {| app :=
       call (Api.SelectFirstAgent (sessionId (ai (app s))) agentKey)
         (with_overlay (showLoading "Selecting first agent...") (app s));
     page := page s;
     pending := (pending s ++ [First agentKey])%list |}.

(** [selectFirstAgent] once its call has settled: on success the card
    is marked and [renderSecondAgentOptions] runs up to its [await];
    otherwise the error is reported and the method ends. *)
Definition selectFirstAgent_settled (i : nat) (agentKey : string)
    (response : Settled AISelectionReply) (s : Screen) : Screen :=
  match response with
  | Resolved response =>
      if flag (success response) then
        {| app :=
             call (Api.GetSecondAgentOptions (sessionId (ai (app s))))
               (app s);
           page := updateFirstAgentSelection agentKey (page s);
           pending := <[i := Options]> (pending s) |}
      else
        {| app :=
             with_overlay hideLoading
               (with_overlay (showError "Error selecting first agent")
                  (app s));
           page := page s;
           pending := <[i := Over]> (pending s) |}
  | Rejected error =>
      {| app :=
           with_overlay hideLoading
             (with_overlay
                (showError
                   ("Error selecting first agent: " +:+ JS.message error))
                (app s));
         page := page s;
         pending := <[i := Over]> (pending s) |}
  end.

(** The rest of [renderSecondAgentOptions], and the [finally] clause
    of [selectFirstAgent], which awaited it. *)
Definition renderSecondAgentOptions_settled (i : nat)
    (response : Settled AISelectionReply) (s : Screen) : Screen :=
  let '(app', page') :=
    match response with
    | Resolved response =>
        match flag (success response), available_agents response,
              second_ai_options (page s) with
        | true, Some agents, Some _ =>
            (app s,
             {| first_ai_options := first_ai_options (page s);
                second_ai_options := Some (render agents);
                second_ai_section :=
                  match second_ai_section (page s) with
                  | Some _ => Some true
                  | None => None
                  end |})
        | _, _, _ => (app s, page s)
        end
    | Rejected error =>
        (with_overlay
           (showError
              ("Error loading second agent options: "
               +:+ JS.message error))
           (app s),
         page s)
    end in
  {| app := with_overlay hideLoading app'; page := page';
     pending := <[i := Over]> (pending s) |}.

(** [selectSecondAgent(agentKey)] up to its [await]. *)
Definition selectSecondAgent (agentKey : string) (s : Screen) : Screen :=
  {| app := Selection.selectSecondAgent agentKey (app s); page := page s;
     pending := (pending s ++ [Second agentKey])%list |}.

(** The rest of [selectSecondAgent]: the card is marked as soon as the
    reply has its two flags, before the agents are filtered. *)
Definition selectSecondAgent_settled (i : nat) (agentKey : string)
    (response : Settled AISelectionReply) (s : Screen) : Screen :=
  {| app := Selection.selectSecondAgent_settled agentKey response (app s);
     page :=
       match response with
       | Resolved response =>
           if flag (success response)
              && flag (ready_for_conversation response)
           then updateSecondAgentSelection agentKey (page s)
           else page s
       | Rejected _ => page s
       end;
     pending := <[i := Over]> (pending s) |}.

(** [reset()] *)
Definition reset (s : Screen) : Screen :=
  {| app := reset_ai (app s);
     page :=
       {| first_ai_options :=
            match first_ai_options (page s) with
            | Some _ => Some [NoticeEl "Loading AI options..."]
            | None => None
            end;
          second_ai_options :=
            match second_ai_options (page s) with
            | Some _ => Some []
            | None => None
            end;
          second_ai_section :=
            match second_ai_section (page s) with
            | Some _ => Some false
            | None => None
            end |};
     pending := pending s |}.

(** What happens on the agent screen: the coordinator opens it for a
    session, a child of a container is clicked, the call an activation
    waits for settles, or the coordinator resets the controller. *)
Inductive Event : Type :=
  | Load (sid : string)
  | ClickFirst (i : nat)
  | ClickSecond (i : nat)
  | Settle (i : nat) (response : Settled AISelectionReply)
  | Reset.

Definition step (ev : Event) (s : Screen) : option Screen :=
  match ev with
  | Load sid => Some (loadAvailableAgents sid s)
  | ClickFirst i =>
      Some match clicked (first_ai_options (page s)) i with
           | Some agentKey => selectFirstAgent agentKey s
           | None => s
           end
  | ClickSecond i =>
      Some match clicked (second_ai_options (page s)) i with
           | Some agentKey => selectSecondAgent agentKey s
           | None => s
           end
  | Settle i response =>
      match pending s !! i with
      | Some Catalog => Some (loadAvailableAgents_settled i response s)
      | Some (First agentKey) =>
          Some (selectFirstAgent_settled i agentKey response s)
      | Some Options => Some (renderSecondAgentOptions_settled i response s)
      | Some (Second agentKey) =>
          Some (selectSecondAgent_settled i agentKey response s)
      | Some Over | None => None
      end
  | Reset => Some (reset s)
  end.

(** The containers of the page hold no card. *)
Definition without_cards (p : Page) : Prop :=
  (∀ children, first_ai_options p = Some children → cards children = [])
  ∧ (∀ children, second_ai_options p = Some children → cards children = []).

(** The states of the agent screen: the controller is created on a
    page whose containers hold no card yet, then events occur. *)
Inductive reachable : Screen → Prop :=
  | reachable_init app page :
      without_cards page → reachable (new_AISelectionState app page)
  | reachable_step s ev s' :
      reachable s → step ev s = Some s' → reachable s'.

(** A run: the events of a list occur one after the other. *)
Fixpoint run (evs : list Event) (s : Screen) : option Screen :=
  match evs with
  | [] => Some s
  | ev :: evs =>
      match step ev s with
      | Some s' => run evs s'
      | None => None
      end
  end.

(** *** Notions used to state the properties *)

(** The cards of a container of the page. *)
Definition shown (container : option (list Child)) : list Card :=
  cards (default [] container).

(** A card as [createAICard] and [updateAgentSelection] leave it: it
    has the badge exactly when it is selected. *)
Definition well_formed (card : Card) : Prop := badge card = selected card.

(** The cards of the first container show the catalog of the
    controller, in its order, and none of them is disabled; every card
    of the page is well formed. *)
Definition cards_show_catalog (s : Screen) : Prop :=
  (∀ children, first_ai_options (page s) = Some children →
     agent <$> cards children = availableAgents (ai (app s)))
  ∧ (∀ card, card ∈ shown (first_ai_options (page s)) →
       disabled card = false ∧ well_formed card)
  ∧ (∀ card, card ∈ shown (second_ai_options (page s)) → well_formed card).

End AgentScreen.

(** ** The entry point: waiting for the scripts *)

Module Startup.

(** The globals the application looks up on [window]: the classes
    that are defined, and whether [apiClient] is set. *)
Record Window := {
  classes : gset string;
  apiClient : bool
}.

Definition requiredClasses : list string :=
  ["UIUtils"; "UserSelectionState"; "AISelectionState";
   "ChatComparisonState"; "StateManager"].

(** [requiredClasses.filter(className => !window[className])] *)
Definition missing (w : Window) : list string :=
  List.filter (λ className, negb (bool_decide (className ∈ classes w)))
    requiredClasses.

(** [Array.prototype.join] *)
Fixpoint join (separator : string) (l : list string) : string :=
  match l with
  | [] => EmptyString
  | x :: rest =>
      match rest with
      | [] => x
      | _ :: _ => x +:+ separator +:+ join separator rest
      end
  end.

Definition maxWait : Z := 5000.
Definition checkInterval : Z := 100.

(** [missing.length === 0 && window.apiClient] *)
Definition ready (w : Window) : bool :=
  bool_decide (missing w = []) && apiClient w.

(** The error [waitForScripts] rejects with. *)
Definition timeout_error (w : Window) : JS.Error :=
  new_Error
    ("Timeout waiting for scripts. Missing: " +:+ join ", " (missing w)).

(** [checkScripts], which [waitForScripts] runs and arms again with
    [setTimeout]: [windows n] is the window at the check number [n],
    [waited] the value of the variable, and [fuel] bounds the number
    of timers. *)
Fixpoint checkScripts (fuel : nat) (windows : nat → Window) (n : nat)
    (waited : Z) : option (Settled unit) :=
  if ready (windows n) then Some (Resolved ())
  else
    let waited := waited + checkInterval in
    if bool_decide (maxWait ≤ waited) then
      Some (Rejected (timeout_error (windows n)))
    else
      match fuel with
      | O => None
      | S fuel => checkScripts fuel windows (S n) waited
      end.

(** [waitForScripts()] *)
Definition waitForScripts (fuel : nat) (windows : nat → Window)
    : option (Settled unit) :=
  checkScripts fuel windows 0 0.

(** [checkDependencies()]: the error it throws, if any. *)
Definition checkDependencies (w : Window) : option JS.Error :=
  match missing w with
  | [] =>
      if apiClient w then None
      else Some (new_Error "API client not initialized")
  | _ :: _ =>
      Some
        (new_Error
           ("Missing required classes: " +:+ join ", " (missing w)))
  end.

End Startup.

(** ** The stand-alone chat page: a script of its own, with one request
    for the two answers *)

Module Legacy.

(** [localStorage], and the start of the script: the session id is
    recovered, or generated with [crypto.randomUUID()] and saved. *)
Definition Storage := gmap string string.

Definition recover_session (uuid : string) (storage : Storage)
    : string * Storage :=
  match storage !! "session_id" with
  | Some sessionId =>
      if truthy sessionId then (sessionId, storage)
      else (uuid, <["session_id" := uuid]> storage)
  | None => (uuid, <["session_id" := uuid]> storage)
  end.

(** A message of a chat box: its class and its text. *)
Inductive Kind : Type := from_user | from_bot.

Record Message := { kind : Kind; text : string }.

(** The two chat boxes, [azureChat] and [awsChat]. *)
Record Boxes := { azureChat : list Message; awsChat : list Message }.

(** [appendMessage(container, text, type)], for each container. *)
Definition append_azure (text : string) (k : Kind) (b : Boxes) : Boxes :=
  {| azureChat := (azureChat b ++ [{| kind := k; text := text |}])%list;
     awsChat := awsChat b |}.

Definition append_aws (text : string) (k : Kind) (b : Boxes) : Boxes :=
  {| azureChat := azureChat b;
     awsChat := (awsChat b ++ [{| kind := k; text := text |}])%list |}.

Definition append_both (text : string) (k : Kind) (b : Boxes) : Boxes :=
  append_aws text k (append_azure text k b).

(** The reply of the backend: the two answers, each possibly missing
    or [null]. *)
Record Answers := { azure : option string; aws : option string }.

(** What the script sees of the answer to its request: [fetch]
    rejects; or the response is not [ok], with its status and with its
    body, which is not JSON or is JSON with its [detail] and its text
    as [JSON.stringify] gives it; or the response is [ok], with a body
    that is not JSON, or is [null] so that reading an answer of it
    throws, or holds the answers. *)
Inductive ErrorBody : Type :=
  | not_json
  | json (detail : option string) (stringified : string).

Inductive Reply : Type :=
  | Unreachable
  | Refused (status : Z) (body : ErrorBody)
  | Malformed
  | Answered (data : Answers).

(** [sendMessage()] up to its [await]: [None] when the trimmed input
    is empty, and else the message and the boxes with it. *)
Definition sendMessage (value : string) (b : Boxes)
    : option (string * Boxes) :=
  let message := trim value in
  if negb (truthy message) then None
  else Some (message, append_both ("Usuario: " +:+ message) from_user b).

(** The rest of [sendMessage]. *)
Definition sendMessage_settled (reply : Reply) (b : Boxes) : Boxes :=
  match reply with
  | Unreachable | Malformed =>
      append_both "Error connecting to the backend" from_bot b
  | Refused status body =>
      let errText :=
        match body with
        | not_json => "HTTP " +:+ pretty status
        | json detail stringified =>
            if truthy_opt detail then default EmptyString detail
            else stringified
        end in
      append_both ("Error: " +:+ errText) from_bot b
  | Answered data =>
      append_aws ("AWS: " +:+ default "No response from AWS" (aws data))
        from_bot
        (append_azure
           ("Azure: " +:+ default "No response from Azure" (azure data))
           from_bot b)
  end.

(** A message is sent and answered. *)
Definition exchange (value : string) (reply : Reply) (b : Boxes) : Boxes :=
  match sendMessage value b with
  | Some (_, b') => sendMessage_settled reply b'
  | None => b
  end.

End Legacy.
(** * Example data *)

Module Examples.
Import Api.



(** A catalog of three agents. *)
Definition agent (k title : string) : Agent :=
  {| key := k; display_name := title; description := EmptyString;
     input_price := 0; output_price := 0 |}.

Definition agent_a : Agent := agent "a" "Agent A".
Definition agent_b : Agent := agent "b" "Agent B".
Definition agent_c : Agent := agent "c" "Agent C".

Definition session_s1 : SessionData :=
  {| session_id := Some "s1"; name := Some "Ada";
     project_title := Some "Demo"; selectedAgents := None |}.

(** The agent screen of session [s1], with the catalog loaded. *)
Definition agent_screen : Selection.App :=
  {| Selection.stateManager :=
       Some {| Selection.currentState := Selection.ai_selection;
               Selection.sessionData := session_s1 |};
     Selection.user :=
       {| Selection.sessions := [];
          Selection.selectedSession := Some session_s1 |};
     Selection.ai :=
       {| Selection.availableAgents := [agent_a; agent_b; agent_c];
          Selection.sessionId := Some "s1" |};
     Selection.chatSession := None;
     Selection.overlay := {| loading_shown := None; error_shown := None |};
     Selection.calls := [];
     Selection.completions := [] |}.

(** The session screen before any session is chosen. *)
Definition session_screen : Selection.App :=
  {| Selection.stateManager :=
       Some {| Selection.currentState := Selection.user_selection;
               Selection.sessionData := no_session_data |};
     Selection.user :=
       {| Selection.sessions := []; Selection.selectedSession := None |};
     Selection.ai :=
       {| Selection.availableAgents := []; Selection.sessionId := None |};
     Selection.chatSession := None;
     Selection.overlay := {| loading_shown := None; error_shown := None |};
     Selection.calls := [];
     Selection.completions := [] |}.

(** The reply to the selection of the second agent: the user chose
    [b] first and [a] second. *)
Definition ready_reply : Selection.AISelectionReply :=
  {| Selection.success := Some true;
     Selection.available_agents := None;
     Selection.ready_for_conversation := Some true;
     Selection.selected_agents := Some ["b"; "a"] |}.

(** A reply with both flags and no [selected_agents]. *)
Definition ready_reply_without_agents : Selection.AISelectionReply :=
  {| Selection.success := Some true;
     Selection.available_agents := None;
     Selection.ready_for_conversation := Some true;
     Selection.selected_agents := None |}.


(** The chat screen: a complete page, and the session [s1] with the
    agents [a] and [b]. *)
Definition chat_page : Chat.Dom :=
  {| Chat.messages := Chat.two (Some []) (Some []);
     Chat.statuses :=
       Chat.two
         (Some {| Chat.className := "ai-status ready";
                  Chat.textContent := "Ready" |})
         (Some {| Chat.className := "ai-status ready";
                  Chat.textContent := "Ready" |});
     Chat.send_button :=
       Some {| Chat.button_disabled := false; Chat.button_text := "Send" |};
     Chat.message_input := Some {| Chat.input_disabled := false |};
     Chat.overlay := {| loading_shown := None; error_shown := None |};
     Chat.next_element := 0 |}.

Definition chat_session : SessionData :=
  {| session_id := Some "s1"; name := Some "Ada";
     project_title := Some "Demo";
     selectedAgents := Some [agent_a; agent_b] |}.

Definition chat_start : Chat.State :=
  Chat.initializeChat chat_session (Chat.new_ChatComparisonState chat_page).

Definition started : Chat.StartReply := {| Chat.request_id := Some "r1" |}.

(** The message [hello] has been submitted. *)
Definition sending : Chat.State :=
  default chat_start (Chat.run [Chat.Submit "hello"] chat_start).

(** The job has been started at time 1000 and polls. *)
Definition polling : Chat.State :=
  default chat_start
    (Chat.run [Chat.Submit "hello"; Chat.StartSettled 0 (Resolved started) 1000]
       chat_start).

(** The job of [hello] while it waits for the start, and while it
    polls. *)
Definition hello_job (ph : Chat.Phase) (id : option string) (t : Z)
    (received : gset Chat.AiId) : Chat.Job :=
  {| Chat.message := "hello"; Chat.agents := [agent_a; agent_b];
     Chat.placeholders := Chat.two (Some 0%nat) (Some 1%nat);
     Chat.requestId := id; Chat.responsesReceived := received;
     Chat.startTime := t; Chat.phase := ph |}.

Definition metadata_a : Chat.Metadata :=
  {| Chat.display_name := Some "Agent A";
     Chat.processing_time_seconds := Some (12 # 10);
     Chat.cost_usd := Some (3 # 1000);
     Chat.error := Some false |}.

(** A status reply with the response of [a] only. *)
Definition status_a (state : string) : Chat.ChatStatus :=
  {| Chat.status := Some state;
     Chat.responses := Some {[ "a" := "hi" ]};
     Chat.metadata := Some {[ "a" := metadata_a ]} |}.

(** The first poll has brought the response of [a], at time 1400. *)
Definition half_answered : Chat.State :=
  default chat_start
    (Chat.run
       [Chat.Submit "hello"; Chat.StartSettled 0 (Resolved started) 1000;
        Chat.StatusSettled 0 (Resolved (status_a "processing")) 1400]
       chat_start).

(** The timer has fired and the second poll is under way. *)
Definition polling_again : Chat.State :=
  default chat_start
    (Chat.run
       [Chat.Submit "hello"; Chat.StartSettled 0 (Resolved started) 1000;
        Chat.StatusSettled 0 (Resolved (status_a "processing")) 1400;
        Chat.TimerFired 0]
       chat_start).


(** The second poll is answered at time 61400, after the budget. *)
Definition timed_out : Chat.State :=
  default chat_start
    (Chat.run
       [Chat.Submit "hello"; Chat.StartSettled 0 (Resolved started) 1000;
        Chat.StatusSettled 0 (Resolved (status_a "processing")) 1400;
        Chat.TimerFired 0;
        Chat.StatusSettled 0 (Resolved (status_a "processing")) 61400]
       chat_start).

(** The second poll is answered at time 1700 with the same response. *)
Definition answered_again : Chat.State :=
  default chat_start
    (Chat.run
       [Chat.Submit "hello"; Chat.StartSettled 0 (Resolved started) 1000;
        Chat.StatusSettled 0 (Resolved (status_a "processing")) 1400;
        Chat.TimerFired 0;
        Chat.StatusSettled 0 (Resolved (status_a "processing")) 1700]
       chat_start).

(** [startChatMessage] has failed. *)
Definition network_error : JS.Error := new_Error "Failed to fetch".

Definition start_failed : Chat.State :=
  default chat_start
    (Chat.run
       [Chat.Submit "hello"; Chat.StartSettled 0 (Rejected network_error) 1000]
       chat_start).

(** A poll of the job fails. *)
Definition poll_failed : Chat.State :=
  default chat_start
    (Chat.run
       [Chat.Submit "hello"; Chat.StartSettled 0 (Resolved started) 1000;
        Chat.StatusSettled 0 (Rejected network_error) 1400]
       chat_start).

(** While the job of [hello] polls, [again] is submitted; then the
    first job is answered as completed. *)
Definition two_jobs : Chat.State :=
  default chat_start
    (Chat.run
       [Chat.Submit "hello"; Chat.StartSettled 0 (Resolved started) 1000;
        Chat.Submit "again"]
       chat_start).

Definition again_job : Chat.Job :=
  {| Chat.message := "again"; Chat.agents := [agent_a; agent_b];
     Chat.placeholders := Chat.two (Some 2%nat) (Some 3%nat);
     Chat.requestId := None; Chat.responsesReceived := ∅;
     Chat.startTime := 0; Chat.phase := Chat.AwaitingStart |}.

Definition first_job_over : Chat.State :=
  default chat_start
    (Chat.run
       [Chat.Submit "hello"; Chat.StartSettled 0 (Resolved started) 1000;
        Chat.Submit "again";
        Chat.StatusSettled 0 (Resolved (status_a "completed")) 1400]
       chat_start).

(** The session screen with two sessions listed. *)
Definition listed_s1 : Selection.Session :=
  {| Selection.s_session_id := "s1"; Selection.s_name := "Ada";
     Selection.s_project_title := "Demo" |}.

Definition listed_s2 : Selection.Session :=
  {| Selection.s_session_id := "s2"; Selection.s_name := "Grace";
     Selection.s_project_title := "Compiler" |}.

Definition listed_screen : Selection.App :=
  Selection.set_user
    {| Selection.sessions := [listed_s1; listed_s2];
       Selection.selectedSession := None |}
    session_screen.

(** The replies of the [sessions] endpoint to a creation and to a
    selection. *)
Definition created_s1 : Selection.SessionReply :=
  {| Selection.sr_success := Some true;
     Selection.sr_session_id := Some "s1" |}.

(** The agent screen of session [s1]: the catalog is shown in the
    first container and nothing has been selected. *)
Definition agent_page : AgentScreen.Page :=
  {| AgentScreen.first_ai_options :=
       Some (AgentScreen.render [agent_a; agent_b; agent_c]);
     AgentScreen.second_ai_options := Some [];
     AgentScreen.second_ai_section := Some false |}.

Definition blank_agent_page : AgentScreen.Page :=
  {| AgentScreen.first_ai_options :=
       Some [AgentScreen.NoticeEl "Loading AI options..."];
     AgentScreen.second_ai_options := Some [];
     AgentScreen.second_ai_section := Some false |}.

(** The reply that lists the catalog, and the reply that lists the
    agents offered for the second slot once [a] has been selected. *)
Definition catalog_reply : Selection.AISelectionReply :=
  {| Selection.success := Some true;
     Selection.available_agents := Some [agent_a; agent_b; agent_c];
     Selection.ready_for_conversation := None;
     Selection.selected_agents := None |}.

Definition first_selected_reply : Selection.AISelectionReply :=
  {| Selection.success := Some true;
     Selection.available_agents := None;
     Selection.ready_for_conversation := Some false;
     Selection.selected_agents := Some ["a"] |}.

Definition options_reply : Selection.AISelectionReply :=
  {| Selection.success := Some true;
     Selection.available_agents := Some [agent_b; agent_c];
     Selection.ready_for_conversation := None;
     Selection.selected_agents := None |}.

(** The agent screen is opened for the session [s1]; the catalog
    arrives; the card of [a] is clicked, the selection is confirmed
    and the options for the second slot arrive. *)
Definition agents_start : AgentScreen.Screen :=
  AgentScreen.new_AISelectionState session_screen blank_agent_page.

Definition agents_offered : AgentScreen.Screen :=
  default agents_start
    (AgentScreen.run
       [AgentScreen.Load "s1";
        AgentScreen.Settle 0 (Resolved catalog_reply);
        AgentScreen.ClickFirst 0;
        AgentScreen.Settle 1 (Resolved first_selected_reply);
        AgentScreen.Settle 1 (Resolved options_reply)]
       agents_start).

End Examples.

(** * Properties *)

(** ** The gateway client *)

Module ApiSpec.
Import Api Examples.

Lemma ok_iff {A} (response : Response A) :
  ok response = true ↔ 200 ≤ status response ≤ 299.
Proof.
  unfold ok. rewrite andb_true_iff, !Z.leb_le. reflexivity.
Qed.

(** Every operation is one call of [request]. *)
Lemma perform_request {A} (this : APIClient) (fetch : Fetch A)
    (op : Operation) :
  ∃ endpoint options, perform this fetch op = request this fetch endpoint options.
Proof. destruct op; simpl; eauto. Qed.

Lemma request_constant {A} (this : APIClient) (fetch : Fetch A)
    (response : Response A) endpoint options :
  (∀ url config, fetch url config = Resolved response) →
  request this fetch endpoint options =
    if negb (ok response) then Rejected (new_Error (error_message response))
    else match json response with
         | Json payload _ => Resolved payload
         | NotJson why => Rejected why
         end.
Proof. intros Hfetch. unfold request. rewrite Hfetch. reflexivity. Qed.





(** The generic message of a reply without detail starts with
    [HTTP <status>]. *)
Example generic_message_503 :
  error_message
    {| status := 503; statusText := "Service Unavailable";
       json := NotJson (A := unit) (new_Error "Unexpected token <") |}
  = "HTTP 503: Service Unavailable".
Proof. reflexivity. Qed.

End ApiSpec.

(** ** The session screen and the agent screen *)

Module SelectionSpec.
Import Selection Examples.

Lemma trim_blank : trim "   " = EmptyString.
Proof. reflexivity. Qed.

Lemma trim_padded : trim "  my project " = "my project".
Proof. reflexivity. Qed.

(** C9: a submission of the new-session form whose name or project
    title is empty after trimming shows the validation error and makes
    no call on the gateway; [createSession] is called, with the trimmed
    values, exactly when both are non-empty. *)
Theorem handleNewSession_validation (form_name form_project_title : string)
    (app : App) :
  let app' := handleNewSession form_name form_project_title app in
  (trim form_name = EmptyString ∨ trim form_project_title = EmptyString →
     calls app' = calls app
     ∧ error_shown (overlay app') = Some "Please fill in all fields."
     ∧ stateManager app' = stateManager app
     ∧ user app' = user app)
  ∧ (trim form_name ≠ EmptyString ∧ trim form_project_title ≠ EmptyString →
       calls app' =
         Api.CreateSession (trim form_name) (trim form_project_title)
         :: calls app)
  ∧ (calls app' ≠ calls app →
       trim form_name ≠ EmptyString ∧ trim form_project_title ≠ EmptyString).
Proof.
  unfold handleNewSession. cbv zeta.
  destruct (trim form_name) as [|c1 n], (trim form_project_title) as [|c2 t];
    simpl; (split; [|split]); intros H;
    repeat match goal with
           | H : _ ∧ _ |- _ => destruct H
           | H : _ ∨ _ |- _ => destruct H
           | |- _ ∧ _ => split
           end; congruence.
Qed.

Example blank_title_is_local :
  calls (handleNewSession "Ada" "   " session_screen) = []
  ∧ calls (handleNewSession " Ada " " Demo" session_screen)
    = [Api.CreateSession "Ada" "Demo"].
Proof. split; reflexivity. Qed.

(** *** What the handlers leave unchanged *)

Lemma completions_transitionToChatComparison m app :
  completions (transitionToChatComparison m app) = completions app.
Proof.
  unfold transitionToChatComparison.
  destruct (selectedAgents (sessionData m)); [|reflexivity].
  destruct (truthy_opt _); reflexivity.
Qed.

Lemma completions_onAISelectionComplete agents m app :
  completions (onAISelectionComplete agents m app)
  = agents :: completions app.
Proof.
  unfold onAISelectionComplete.
  rewrite completions_transitionToChatComparison. reflexivity.
Qed.

Lemma cons_neq_self {A} (x : A) (l : list A) : l ≠ x :: l.
Proof.
  intros H. apply (f_equal List.length) in H. simpl in H. lia.
Qed.

Lemma flag_true (o : option bool) : flag o = true ↔ o = Some true.
Proof. destruct o as [[]|]; simpl; split; intros; congruence. Qed.

Lemma includes_true (keys : list string) (k : string) :
  includes keys k = true ↔ k ∈ keys.
Proof. unfold includes. apply bool_decide_eq_true. Qed.

Lemma filter_selected_sublist catalog keys :
  filter_selected catalog keys `sublist_of` catalog.
Proof.
  unfold filter_selected.
  induction catalog as [|agent catalog IH]; simpl; [constructor|].
  destruct (includes keys (key agent));
    auto using sublist_skip, sublist_cons.
Qed.

Lemma filter_selected_elem catalog keys agent :
  agent ∈ filter_selected catalog keys
  ↔ agent ∈ catalog ∧ key agent ∈ keys.
Proof.
  unfold filter_selected.
  rewrite <- includes_true, !list_elem_of_In.
  apply List.filter_In.
Qed.


(** The filter only depends on which keys the reply lists. *)
Lemma filter_selected_ext catalog keys keys' :
  (∀ k, k ∈ keys ↔ k ∈ keys') →
  filter_selected catalog keys = filter_selected catalog keys'.
Proof.
  intros Hsame. unfold filter_selected. apply List.filter_ext.
  intros agent. unfold includes. apply bool_decide_ext, Hsame.
Qed.

(** The completions after the second selection has settled: either one
    more, the filtered catalog, or none more. *)
Lemma selectSecondAgent_settled_completions agentKey reply app :
  let app' := selectSecondAgent_settled agentKey reply app in
  (∃ r keys m,
      reply = Resolved r
      ∧ success r = Some true ∧ ready_for_conversation r = Some true
      ∧ (selected_agents r = Some keys
         ∨ selected_agents r = None ∧ availableAgents (ai app) = []
           ∧ keys = [])
      ∧ stateManager app = Some m
      ∧ app' =
          with_overlay hideLoading
            (onAISelectionComplete
               (filter_selected (availableAgents (ai app)) keys) m app))
  ∨ (completions app' = completions app
     ∧ stateManager app' = stateManager app
     ∧ chatSession app' = chatSession app).
Proof.
  unfold selectSecondAgent_settled. cbv zeta.
  destruct reply as [r|e]; [|right; done].
  destruct (flag (success r)) eqn:Hs; [|right; done].
  destruct (flag (ready_for_conversation r)) eqn:Hr; [|right; done].
  apply flag_true in Hs, Hr. simpl.
  destruct (selected_agents r) as [keys|] eqn:Hk.
  - destruct (stateManager app) as [m|] eqn:Hm; [|right; by rewrite ?Hm].
    left. exists r, keys, m. rewrite Hk. auto 10.
  - destruct (availableAgents (ai app)) as [|agent catalog] eqn:Hc;
      [|right; done].
    destruct (stateManager app) as [m|] eqn:Hm; [|right; by rewrite ?Hm].
    left. exists r, [], m. rewrite Hk. auto 10.
Qed.



(** The second selection on a reply with both flags and the keys. *)
Lemma selectSecondAgent_settled_ready agentKey r keys app m :
  stateManager app = Some m →
  success r = Some true → ready_for_conversation r = Some true →
  selected_agents r = Some keys →
  selectSecondAgent_settled agentKey (Resolved r) app
  = with_overlay hideLoading
      (onAISelectionComplete
         (filter_selected (availableAgents (ai app)) keys) m app).
Proof.
  intros Hm Hs%flag_true Hr%flag_true Hkeys.
  unfold selectSecondAgent_settled. rewrite Hs, Hr, Hkeys, Hm.
  reflexivity.
Qed.

(** C7, as stated, fails: a reply that carries both flags and no
    [selected_agents] list does not reach the coordinator when the
    catalog is not empty; the error is reported instead. *)
Lemma ready_flags_do_not_suffice :
  ¬ (∀ (agentKey : string) (reply : AISelectionReply) (app : App)
       (m : StateManager),
       stateManager app = Some m →
       (∃ agents,
          completions (selectSecondAgent_settled agentKey (Resolved reply) app)
          = agents :: completions app)
       ↔ success reply = Some true
         ∧ ready_for_conversation reply = Some true).
Proof.
  intros H.
  destruct (H "b" ready_reply_without_agents agent_screen
              {| currentState := ai_selection; sessionData := session_s1 |}
              eq_refl) as [_ Hnotify].
  destruct Hnotify as [agents Hagents]; [split; reflexivity|].
  vm_compute in Hagents. discriminate Hagents.
Qed.

Example ready_flags_without_agents_report :
  error_shown
    (overlay
       (selectSecondAgent_settled "b" (Resolved ready_reply_without_agents)
          agent_screen))
  = Some
      "Error selecting second agent: Cannot read properties of undefined (reading 'includes')".
Proof. reflexivity. Qed.

(** C7, amended: the second selection hands the pair to the coordinator
    if and only if the call resolved with a reply whose [success] and
    [ready_for_conversation] flags are both true and which lists the
    [selected_agents] (or the catalog is empty); when a flag is absent
    or false the coordinator, its screen and the session of the chat
    are unchanged and the error [Error selecting second agent] is shown;
    when the flags are true and the keys are listed the coordinator
    receives the catalog filtered by them. *)
Theorem selectSecondAgent_notifies (agentKey : string)
    (reply : Settled AISelectionReply) (app : App) (m : StateManager) :
  stateManager app = Some m →
  let app' := selectSecondAgent_settled agentKey reply app in
  ((∃ agents, completions app' = agents :: completions app)
   ↔ ∃ r, reply = Resolved r
       ∧ success r = Some true ∧ ready_for_conversation r = Some true
       ∧ (is_Some (selected_agents r) ∨ availableAgents (ai app) = []))
  ∧ (∀ r, reply = Resolved r →
       ¬ (success r = Some true ∧ ready_for_conversation r = Some true) →
       stateManager app' = stateManager app
       ∧ chatSession app' = chatSession app
       ∧ completions app' = completions app
       ∧ error_shown (overlay app') = Some "Error selecting second agent")
  ∧ (∀ r keys, reply = Resolved r →
       success r = Some true → ready_for_conversation r = Some true →
       selected_agents r = Some keys →
       app' =
         with_overlay hideLoading
           (onAISelectionComplete
              (filter_selected (availableAgents (ai app)) keys) m app)).
Proof.
  intros Hm app'. split; [|split].
  - split.
    + intros [agents Hagents].
      destruct (selectSecondAgent_settled_completions agentKey reply app)
        as [(r & keys & m' & -> & Hs & Hr & Hkeys & _)|(Hsame & _)].
      * exists r. repeat split; try assumption.
        destruct Hkeys as [->|(_ & -> & _)]; [left; eauto|by right].
      * subst app'. rewrite Hsame in Hagents.
        by apply cons_neq_self in Hagents.
    + intros (r & -> & Hs & Hr & Hkeys). subst app'.
      unfold selectSecondAgent_settled.
      apply flag_true in Hs, Hr. rewrite Hs, Hr, Hm. simpl.
      destruct Hkeys as [[keys ->]| ->].
      * simpl. rewrite completions_onAISelectionComplete. eauto.
      * destruct (selected_agents r); simpl;
          rewrite completions_onAISelectionComplete; eauto.
  - intros r -> Hflags. subst app'. unfold selectSecondAgent_settled.
    destruct (flag (success r)) eqn:Hs;
      [destruct (flag (ready_for_conversation r)) eqn:Hr|]; simpl;
      [|done..].
    apply flag_true in Hs, Hr. tauto.
  - intros r keys -> Hs Hr Hkeys. subst app'.
    by apply selectSecondAgent_settled_ready.
Qed.

Lemma selectSecondAgent_notifies_witness :
  stateManager agent_screen
  = Some {| currentState := ai_selection; sessionData := session_s1 |}
  ∧ completions
      (selectSecondAgent_settled "a" (Resolved ready_reply) agent_screen)
    = [[agent_a; agent_b]].
Proof.
  split; [reflexivity|].
  rewrite (proj2 (proj2 (selectSecondAgent_notifies "a"
                           (Resolved ready_reply) agent_screen _ eq_refl))
             ready_reply ["b"; "a"] eq_refl eq_refl eq_refl eq_refl).
  reflexivity.
Defined.

Lemma filter_selected_none catalog keys :
  (∀ other, other ∈ catalog → key other ∉ keys) →
  filter_selected catalog keys = [].
Proof.
  intros Hnone. induction catalog as [|agent catalog IH]; [done|].
  unfold filter_selected in *. simpl.
  destruct (includes keys (key agent)) eqn:Hin.
  - apply includes_true in Hin. destruct (Hnone agent); [by left|done].
  - apply IH. intros other Hother. apply Hnone. by right.
Qed.

Lemma filter_selected_app l1 l2 keys :
  filter_selected (l1 ++ l2) keys
  = (filter_selected l1 keys ++ filter_selected l2 keys)%list.
Proof. apply List.filter_app. Qed.

Lemma filter_selected_cons agent l keys :
  key agent ∈ keys →
  filter_selected (agent :: l) keys = agent :: filter_selected l keys.
Proof.
  intros Hin%includes_true. unfold filter_selected. simpl.
  by rewrite Hin.
Qed.

(** C10: when the second selection completes, the pair handed to the
    coordinator is the catalog of the first slot filtered, in catalog
    order, by membership of the key in [selected_agents]; it depends
    neither on the key clicked nor on the order of the keys in the
    reply, so that of two selected agents the one listed first in the
    catalog is the first of the pair; and the chat controller
    initialised with the session reads its two columns from that
    list. *)
Theorem finalized_pair_in_catalog_order (agentKey : string)
    (r : AISelectionReply) (keys : list string) (app : App)
    (m : StateManager) :
  stateManager app = Some m →
  success r = Some true → ready_for_conversation r = Some true →
  selected_agents r = Some keys →
  let catalog := availableAgents (ai app) in
  let agents := filter_selected catalog keys in
  let app' := selectSecondAgent_settled agentKey (Resolved r) app in
  completions app' = agents :: completions app
  ∧ agents = List.filter (λ agent, bool_decide (key agent ∈ keys)) catalog
  ∧ agents `sublist_of` catalog
  ∧ (∀ agent, agent ∈ agents ↔ agent ∈ catalog ∧ key agent ∈ keys)
  ∧ (∀ agentKey' r' keys',
       success r' = Some true → ready_for_conversation r' = Some true →
       selected_agents r' = Some keys' → keys' ≡ₚ keys →
       completions (selectSecondAgent_settled agentKey' (Resolved r') app)
       = agents :: completions app)
  ∧ (∀ before x between y after,
       catalog = (before ++ x :: between ++ y :: after)%list →
       key x ∈ keys → key y ∈ keys →
       (∀ other, other ∈ (before ++ between ++ after)%list →
                 key other ∉ keys) →
       agents = [x; y])
  ∧ (truthy_opt (session_id (sessionData m)) = true →
       ∃ data, chatSession app' = Some data
         ∧ selectedAgents data = Some agents
         ∧ ∀ page,
             Chat.selected
               (Chat.initializeChat data (Chat.new_ChatComparisonState page))
             = agents).
Proof.
  intros Hm Hs Hr Hkeys catalog agents app'.
  assert (Happ : ∀ agentKey' r' keys',
    success r' = Some true → ready_for_conversation r' = Some true →
    selected_agents r' = Some keys' →
    selectSecondAgent_settled agentKey' (Resolved r') app
    = with_overlay hideLoading
        (onAISelectionComplete (filter_selected catalog keys') m app)).
  { intros agentKey' r' keys' Hs' Hr' Hkeys'.
    by apply selectSecondAgent_settled_ready. }
  split; [|split; [|split; [|split; [|split; [|split]]]]].
  - subst app'. rewrite (Happ agentKey r keys) by assumption. simpl.
    apply completions_onAISelectionComplete.
  - reflexivity.
  - apply filter_selected_sublist.
  - apply filter_selected_elem.
  - intros agentKey' r' keys' Hs' Hr' Hkeys' Hperm.
    rewrite (Happ agentKey' r' keys') by assumption. simpl.
    rewrite completions_onAISelectionComplete. f_equal.
    apply filter_selected_ext. intros k. by rewrite Hperm.
  - intros before x between y after Hcat Hx Hy Hothers.
    subst agents. rewrite Hcat.
    rewrite filter_selected_app, (filter_selected_cons x) by done.
    rewrite filter_selected_app, (filter_selected_cons y) by done.
    rewrite !filter_selected_none; [done|intros o Ho; apply Hothers..].
    + rewrite !elem_of_app. auto.
    + rewrite !elem_of_app. auto.
    + rewrite !elem_of_app. auto.
  - intros Hsid. subst app'. rewrite (Happ agentKey r keys) by assumption.
    unfold onAISelectionComplete, transitionToChatComparison. simpl.
    rewrite Hsid. simpl.
    eexists. split; [reflexivity|]. split; reflexivity.
Qed.

Lemma finalized_pair_in_catalog_order_witness :
  stateManager agent_screen
  = Some {| currentState := ai_selection; sessionData := session_s1 |}
  ∧ success ready_reply = Some true
  ∧ ready_for_conversation ready_reply = Some true
  ∧ selected_agents ready_reply = Some ["b"; "a"]
  ∧ completions
      (selectSecondAgent_settled "a" (Resolved ready_reply) agent_screen)
    = [agent_a; agent_b] :: completions agent_screen.
Proof.
  repeat (split; [reflexivity|]).
  exact (proj1 (finalized_pair_in_catalog_order "a" ready_reply ["b"; "a"]
                  agent_screen _ eq_refl eq_refl eq_refl eq_refl)).
Defined.

End SelectionSpec.

(** ** The chat controller *)

Module ChatSpec.
Import Chat Examples.

(** *** The page *)

Lemma get_set_eq {A} (aiId : AiId) (x : A) (t : Two A) :
  get aiId (set aiId x t) = x.
Proof. by destruct aiId. Qed.

Lemma get_set_ne {A} (aiId aiId' : AiId) (x : A) (t : Two A) :
  aiId ≠ aiId' → get aiId (set aiId' x t) = get aiId t.
Proof. by destruct aiId, aiId'. Qed.

Lemma ne_other (aiId aiId' : AiId) : aiId' ≠ aiId → aiId' = other aiId.
Proof. by destruct aiId, aiId'. Qed.

Lemma contains_true (aiId : AiId) (p : nat) (d : Dom) :
  contains aiId p d = true ↔ PlaceholderEl p ∈ column aiId d.
Proof.
  unfold contains, column. destruct (get aiId (messages d)); simpl.
  - apply bool_decide_eq_true.
  - split; [done|]. by intros ?%not_elem_of_nil.
Qed.

Lemma elem_of_replaceChild (node : Node) (p q : nat) (l : list Node) :
  is_message node →
  PlaceholderEl q ∈ replaceChild node p l → PlaceholderEl q ∈ l.
Proof.
  intros Hnode. induction l as [|x l IH]; simpl; [done|].
  destruct (decide (x = PlaceholderEl p)) as [->|Hx].
  - rewrite !elem_of_cons. intros [Heq|Hin]; [|by right].
    subst node. destruct Hnode.
  - rewrite !elem_of_cons. intros [Heq|Hin]; auto.
Qed.

Lemma elem_of_replaceChild_ne (node : Node) (p q : nat) (l : list Node) :
  q ≠ p → PlaceholderEl q ∈ l → PlaceholderEl q ∈ replaceChild node p l.
Proof.
  intros Hne. induction l as [|x l IH]; simpl; [done|].
  destruct (decide (x = PlaceholderEl p)) as [->|Hx].
  - rewrite !elem_of_cons. intros [Heq|Hin]; [congruence|by right].
  - rewrite !elem_of_cons. intros [Heq|Hin]; auto.
Qed.

(** The placeholder is replaced where it stands. *)
Lemma replaceChild_split (node : Node) (p : nat) (l : list Node) :
  PlaceholderEl p ∈ l →
  ∃ before after,
    l = (before ++ (PlaceholderEl p :: after))%list
    ∧ (PlaceholderEl p ∉ before)
    ∧ replaceChild node p l = (before ++ (node :: after))%list.
Proof.
  induction l as [|x l IH]; [by intros ?%not_elem_of_nil|].
  simpl. destruct (decide (x = PlaceholderEl p)) as [->|Hx].
  - intros _. exists [], l. split; [done|]. split; [|done].
    apply not_elem_of_nil.
  - intros [Heq|Hin]%elem_of_cons; [congruence|].
    destruct (IH Hin) as (before & after & -> & Hnot & ->).
    exists (x :: before), after. split; [done|]. split; [|done].
    intros [?|?]%elem_of_cons; [congruence|done].
Qed.

Lemma column_set_messages (aiId aiId' : AiId) (l : list Node) (d : Dom) :
  column aiId' (set_messages aiId l d)
  = if decide (aiId' = aiId) then l else column aiId' d.
Proof.
  unfold column, set_messages. simpl.
  destruct (decide (aiId' = aiId)) as [->|Hne].
  - by rewrite get_set_eq.
  - by rewrite get_set_ne.
Qed.

Lemma column_updateAIStatus (aiId aiId' : AiId) (c t : string) (d : Dom) :
  column aiId' (updateAIStatus aiId c t d) = column aiId' d.
Proof.
  unfold column, updateAIStatus. by destruct (get aiId (statuses d)).
Qed.

Lemma messages_updateAIStatus (aiId : AiId) (c t : string) (d : Dom) :
  messages (updateAIStatus aiId c t d) = messages d.
Proof. unfold updateAIStatus. by destruct (get aiId (statuses d)). Qed.

Lemma indicator_updateAIStatus (aiId aiId' : AiId) (c t : string)
    (d : Dom) :
  indicator aiId' (updateAIStatus aiId c t d)
  = if decide (aiId' = aiId) then
      match indicator aiId d with
      | Some _ =>
          Some {| className := "ai-status " +:+ c; textContent := t |}
      | None => None
      end
    else indicator aiId' d.
Proof.
  unfold indicator, updateAIStatus.
  destruct (decide (aiId' = aiId)) as [->|Hne];
    destruct (get aiId (statuses d)) eqn:E; simpl;
    rewrite ?get_set_eq, ?get_set_ne by done; done.
Qed.

Lemma column_resolve (aiId aiId' : AiId) p node c t (d : Dom) :
  column aiId' (resolve aiId p node c t d)
  = if decide (aiId' = aiId) then replaceChild node p (column aiId d)
    else column aiId' d.
Proof.
  unfold resolve. by rewrite column_updateAIStatus, column_set_messages.
Qed.

Lemma indicator_resolve (aiId aiId' : AiId) p node c t (d : Dom) :
  indicator aiId' (resolve aiId p node c t d)
  = if decide (aiId' = aiId) then
      match indicator aiId d with
      | Some _ =>
          Some {| className := "ai-status " +:+ c; textContent := t |}
      | None => None
      end
    else indicator aiId' d.
Proof. unfold resolve. by rewrite indicator_updateAIStatus. Qed.

Lemma contains_resolve (aiId aiId' : AiId) p q node c t (d : Dom) :
  is_message node →
  contains aiId' q (resolve aiId p node c t d) = true →
  contains aiId' q d = true.
Proof.
  intros Hnode. rewrite !contains_true, column_resolve.
  destruct (decide (aiId' = aiId)) as [->|]; [|done].
  by apply elem_of_replaceChild.
Qed.

Lemma contains_resolve_ne (aiId aiId' : AiId) p q node c t (d : Dom) :
  q ≠ p → contains aiId' q d = true →
  contains aiId' q (resolve aiId p node c t d) = true.
Proof.
  intros Hne. rewrite !contains_true, column_resolve.
  destruct (decide (aiId' = aiId)) as [->|]; [|done].
  by apply elem_of_replaceChild_ne.
Qed.

Lemma contains_resolve_other (aiId aiId' : AiId) p q node c t (d : Dom) :
  aiId' ≠ aiId →
  contains aiId' q (resolve aiId p node c t d) = contains aiId' q d.
Proof.
  intros Hne. apply eq_true_iff_eq.
  rewrite !contains_true, column_resolve. by rewrite decide_False.
Qed.

(** *** The handlers without exceptions *)

Lemma replace_placeholder_here (aiId : AiId) p node (d : Dom) :
  contains aiId p d = true → contains (other aiId) p d = false →
  replace_placeholder node p d
  = Normal (set_messages aiId (replaceChild node p (column aiId d)) d).
Proof.
  intros Hin Hout. unfold replace_placeholder, parentNode.
  destruct aiId; simpl in Hout; rewrite Hin, ?Hout; reflexivity.
Qed.

Lemma resolve_here (aiId : AiId) p node c t (d : Dom) :
  contains aiId p d = true → contains (other aiId) p d = false →
  (replace_placeholder node p >> pure (updateAIStatus aiId c t)) d
  = Normal (resolve aiId p node c t d).
Proof.
  intros Hin Hout. unfold seq.
  by rewrite (replace_placeholder_here aiId).
Qed.

Lemma has_true (aiId : AiId) (job : Job) :
  has aiId job = true ↔ aiId ∈ responsesReceived job.
Proof. apply bool_decide_eq_true. Qed.

Lemma has_false (aiId : AiId) (job : Job) :
  has aiId job = false ↔ aiId ∉ responsesReceived job.
Proof. apply bool_decide_eq_false. Qed.

Lemma answer_not_received aiId rs ms job node :
  answer aiId rs ms job = Some node → aiId ∉ responsesReceived job.
Proof.
  unfold answer. destruct (agents job !! index aiId); [|done].
  destruct (truthy_opt _); simpl; [|done].
  destruct (has aiId job) eqn:E; simpl; [done|].
  intros _. by apply has_false.
Qed.

Lemma check_response_ok aiId rs ms status job (d : Dom) :
  responses status = Some rs → metadata status = Some ms →
  slot_ok aiId job d →
  check_response aiId rs ms (job, d)
  = Normal (receive aiId status (job, d)).
Proof.
  intros Hrs Hms (p & Hp & Hout & Hin).
  unfold receive. rewrite Hrs, Hms. simpl. rewrite Hp.
  destruct (answer aiId rs ms job) as [node|] eqn:Hanswer.
  - pose proof (answer_not_received _ _ _ _ _ Hanswer) as Hopen.
    unfold answer in Hanswer. unfold check_response.
    destruct (agents job !! index aiId) as [agent|]; [|done].
    destruct (truthy_opt (rs !! key agent) && negb (has aiId job));
      [|done].
    injection Hanswer as <-. unfold on_dom. simpl.
    by rewrite (resolve_here aiId) by auto.
  - unfold answer in Hanswer. unfold check_response.
    destruct (agents job !! index aiId) as [agent|]; [|done].
    by destruct (truthy_opt (rs !! key agent) && negb (has aiId job)).
Qed.

Lemma receive_cases aiId status job d :
  receive aiId status (job, d) = (job, d)
  ∨ ∃ rs ms node p,
      responses status = Some rs ∧ metadata status = Some ms
      ∧ answer aiId rs ms job = Some node
      ∧ get aiId (placeholders job) = Some p
      ∧ (aiId ∉ responsesReceived job)
      ∧ is_message node
      ∧ receive aiId status (job, d)
        = (add aiId job, resolve aiId p node "ready" "Ready" d).
Proof.
  unfold receive. simpl.
  destruct (responses status) as [rs|]; [|by left].
  destruct (metadata status) as [ms|]; [|by left].
  destruct (answer aiId rs ms job) as [node|] eqn:Hanswer; [|by left].
  destruct (get aiId (placeholders job)) as [p|] eqn:Hp; [|by left].
  right. exists rs, ms, node, p.
  repeat split; try done.
  - by eapply answer_not_received.
  - unfold answer in Hanswer.
    destruct (agents job !! index aiId); [|done].
    destruct (_ && _); [|done]. by injection Hanswer as <-.
Qed.

Lemma slot_ok_receive aiId aiId' status job d :
  slot_ok aiId job d → slot_ok aiId' job d →
  slot_ok aiId (receive aiId' status (job, d)).1
    (receive aiId' status (job, d)).2.
Proof.
  intros Hslot Hslot'.
  destruct (receive_cases aiId' status job d)
    as [->|(rs & ms & node & p' & _ & _ & _ & Hp' & _ & Hnode & ->)];
    [done|].
  destruct Hslot as (p & Hp & Hout & Hin). simpl.
  exists p. split; [done|]. split.
  - apply not_true_iff_false. intros Hc%contains_resolve; [|done].
    congruence.
  - simpl. intros Hnot.
    destruct (decide (aiId = aiId')) as [->|Hne]; [set_solver|].
    rewrite contains_resolve_other by done. apply Hin. set_solver.
Qed.

Lemma check_responses_ok status job (d : Dom) :
  slot_ok ai_1 job d → slot_ok ai_2 job d →
  check_responses status (job, d)
  = Normal (receive ai_2 status (receive ai_1 status (job, d))).
Proof.
  intros H1 H2. unfold check_responses.
  destruct (responses status) as [rs|] eqn:Hrs;
    [destruct (metadata status) as [ms|] eqn:Hms|].
  - unfold seq.
    rewrite (check_response_ok ai_1 rs ms status) by done.
    pose proof (slot_ok_receive ai_2 ai_1 status job d H2 H1) as H2'.
    destruct (receive ai_1 status (job, d)) as [job1 d1] eqn:E.
    by rewrite (check_response_ok ai_2 rs ms status).
  - unfold receive. by rewrite Hrs, Hms.
  - unfold receive. by rewrite Hrs.
Qed.

Lemma not_received_size (X : gset AiId) (aiId : AiId) :
  aiId ∉ X → (size X < 2)%nat.
Proof.
  intros Hnot.
  assert (Hsub : X ⊆ {[other aiId]}).
  { intros x Hx. apply elem_of_singleton.
    apply ne_other. intros ->. done. }
  apply subseteq_size in Hsub. rewrite size_singleton in Hsub. lia.
Qed.

Lemma size_two_received (X : gset AiId) (aiId : AiId) :
  ¬ (size X < 2)%nat → aiId ∈ X.
Proof.
  intros Hsize. destruct (decide (aiId ∈ X)) as [|Hnot]; [done|].
  by apply not_received_size in Hnot.
Qed.

Lemma slot_ok_settle_open aiId aiId' node text job d :
  is_message node → aiId ≠ aiId' →
  slot_ok aiId job d → slot_ok aiId job (settle_open aiId' node text job d).
Proof.
  intros Hnode Hne (p & Hp & Hout & Hin). unfold settle_open.
  destruct (has aiId' job); [by exists p|].
  destruct (get aiId' (placeholders job)) as [p'|]; [|by exists p].
  exists p. split; [done|]. split.
  - apply not_true_iff_false. intros Hc%contains_resolve; [|done].
    congruence.
  - intros Hnot. rewrite contains_resolve_other by done. auto.
Qed.

Lemma failure_ok aiId message metadata text job (d : Dom) :
  slot_ok aiId job d →
  (if has aiId job then Normal (job, d)
   else on_dom
          (handleResponseFailure (get aiId (placeholders job)) aiId message
             metadata text)
          (job, d))
  = Normal
      (job,
       settle_open aiId (createMessage message assistant (Some metadata))
         text job d).
Proof.
  intros (p & Hp & Hout & Hin). unfold settle_open.
  destruct (has aiId job) eqn:Hhas; [done|].
  apply has_false in Hhas. rewrite Hp. unfold on_dom. simpl.
  by rewrite (resolve_here aiId) by auto.
Qed.

Lemma timeout_remaining_ok job (d : Dom) :
  slot_ok ai_1 job d → slot_ok ai_2 job d →
  timeout_remaining (job, d)
  = Normal
      (job,
       settle_open ai_2 timeout_node "Timeout" job
         (settle_open ai_1 timeout_node "Timeout" job d)).
Proof.
  intros H1 H2. unfold timeout_remaining, seq, handleResponseTimeout.
  rewrite (failure_ok ai_1 _ _ _ job d H1).
  apply (failure_ok ai_2).
  by apply slot_ok_settle_open.
Qed.

Lemma error_remaining_ok error job (d : Dom) :
  slot_ok ai_1 job d → slot_ok ai_2 job d →
  error_remaining error (job, d)
  = Normal
      (job,
       settle_open ai_2 (error_node error) "Error" job
         (settle_open ai_1 (error_node error) "Error" job d)).
Proof.
  intros H1 H2. unfold error_remaining, seq, handleResponseError.
  rewrite (failure_ok ai_1 _ _ _ job d H1).
  apply (failure_ok ai_2).
  by apply slot_ok_settle_open.
Qed.

(** On a page where the two placeholders of the job are in place,
    [pollForResponses_settled] raises no exception. *)
Lemma pollForResponses_settled_ok reply now job (d : Dom) :
  slot_ok ai_1 job d → slot_ok ai_2 job d →
  pollForResponses_settled reply now job d = settled reply now job d.
Proof.
  intros H1 H2. unfold pollForResponses_settled, settled.
  destruct reply as [status|error].
  - unfold try_catch, poll_body, seq.
    rewrite check_responses_ok by done.
    pose proof (slot_ok_receive ai_1 ai_1 status (set_phase Ended job) d
                  H1 H1) as H1'.
    pose proof (slot_ok_receive ai_2 ai_1 status (set_phase Ended job) d
                  H2 H1) as H2'.
    destruct (receive ai_1 status (set_phase Ended job, d)) as [job1 d1].
    pose proof (slot_ok_receive ai_1 ai_2 status job1 d1 H1' H2') as H1''.
    pose proof (slot_ok_receive ai_2 ai_2 status job1 d1 H2' H2') as H2''.
    destruct (receive ai_2 status (job1, d1)) as [job2 d2]. simpl in *.
    destruct (continue_polling status now job2); [done|].
    rewrite timeout_remaining_ok by done.
    destruct (bool_decide (size (responsesReceived job2) < 2)%nat) eqn:Hsize;
      [done|].
    simpl. apply bool_decide_eq_false in Hsize.
    unfold settle_open.
    rewrite !(proj2 (has_true _ job2)) by by apply size_two_received.
    reflexivity.
  - by rewrite error_remaining_ok.
Qed.

(** *** What a handler changes on the page *)

Lemma resolves_refl ps d : resolves ps d d.
Proof. by split. Qed.

Lemma resolves_trans ps d1 d2 d3 :
  resolves ps d1 d2 → resolves ps d2 d3 → resolves ps d1 d3.
Proof.
  intros [] []. split; try congruence; try (intros; etrans; eauto); eauto.
Qed.

Lemma resolves_updateSendButton ps d st :
  dom st = d → resolves ps d (dom (updateSendButton st)).
Proof.
  intros <-. split; simpl; try done.
  - destruct (send_button (dom st)); split; intros []; eauto; done.
  - destruct (message_input (dom st)); split; intros []; eauto; done.
Qed.

Lemma resolves_updateAIStatus ps aiId c t d :
  resolves ps d (updateAIStatus aiId c t d).
Proof.
  split.
  - unfold updateAIStatus; by destruct (get aiId (statuses d)).
  - unfold updateAIStatus; by destruct (get aiId (statuses d)).
  - unfold updateAIStatus; by destruct (get aiId (statuses d)).
  - intros aiId'. by rewrite messages_updateAIStatus.
  - intros aiId'. rewrite indicator_updateAIStatus.
    destruct (decide (aiId' = aiId)) as [->|]; [|done].
    destruct (indicator aiId d); split; intros []; eauto; done.
  - intros aiId' q. by rewrite !contains_true, column_updateAIStatus.
  - intros aiId' q _. by rewrite !contains_true, column_updateAIStatus.
Qed.

Lemma contains_is_Some aiId p d :
  contains aiId p d = true → is_Some (get aiId (messages d)).
Proof. unfold contains. destruct (get aiId (messages d)); eauto; done. Qed.

Lemma resolves_resolve ps aiId p node c t d :
  is_message node → p ∈ ps → contains aiId p d = true →
  resolves ps d (resolve aiId p node c t d).
Proof.
  intros Hnode Hp Hin%contains_is_Some. split.
  - unfold resolve, updateAIStatus. by destruct (get aiId (statuses _)).
  - unfold resolve, updateAIStatus. by destruct (get aiId (statuses _)).
  - unfold resolve, updateAIStatus. by destruct (get aiId (statuses _)).
  - intros aiId'. unfold resolve. rewrite messages_updateAIStatus. simpl.
    destruct (decide (aiId' = aiId)) as [->|Hne].
    + rewrite get_set_eq. split; eauto.
    + by rewrite get_set_ne.
  - intros aiId'. rewrite indicator_resolve.
    destruct (decide (aiId' = aiId)) as [->|]; [|done].
    destruct (indicator aiId d); split; intros []; eauto; done.
  - intros aiId' q. by apply contains_resolve.
  - intros aiId' q Hq. apply contains_resolve_ne. intros ->. done.
Qed.

Lemma resolves_settle_open ps aiId p node text job d :
  is_message node → get aiId (placeholders job) = Some p → p ∈ ps →
  slot_ok aiId job d →
  resolves ps d (settle_open aiId node text job d).
Proof.
  intros Hnode Hp Hps (p' & Hp' & _ & Hin). unfold settle_open.
  destruct (has aiId job) eqn:Hhas; [apply resolves_refl|].
  rewrite Hp. apply resolves_resolve; try done.
  apply has_false in Hhas. assert (p' = p) as -> by congruence. auto.
Qed.

Lemma resolves_receive ps aiId p status job d :
  get aiId (placeholders job) = Some p → p ∈ ps →
  slot_ok aiId job d →
  resolves ps d (receive aiId status (job, d)).2.
Proof.
  intros Hp Hps (p' & Hp' & _ & Hin).
  destruct (receive_cases aiId status job d)
    as [->|(rs & ms & node & p'' & _ & _ & _ & Hp'' & Hopen & Hnode & ->)];
    [apply resolves_refl|].
  simpl. assert (p'' = p) as -> by congruence.
  assert (p' = p) as -> by congruence.
  apply resolves_resolve; auto.
Qed.

Lemma same_closure_refl job : same_closure job job.
Proof. by repeat split. Qed.

Lemma same_closure_trans job1 job2 job3 :
  same_closure job1 job2 → same_closure job2 job3 → same_closure job1 job3.
Proof.
  intros (?&?&?&?&?&?) (?&?&?&?&?&?).
  repeat split; try congruence. set_solver.
Qed.

Lemma same_closure_set_phase ph job : same_closure job (set_phase ph job).
Proof. by repeat split. Qed.

Lemma same_closure_receive aiId status job d :
  same_closure job (receive aiId status (job, d)).1.
Proof.
  destruct (receive_cases aiId status job d)
    as [->|(rs & ms & node & p & _ & _ & _ & _ & _ & _ & ->)];
    [apply same_closure_refl|].
  repeat split; simpl; try done. set_solver.
Qed.

Lemma phase_receive aiId status job d :
  phase (receive aiId status (job, d)).1 = phase job.
Proof.
  by destruct (receive_cases aiId status job d)
    as [->|(rs & ms & node & p & _ & _ & _ & _ & _ & _ & ->)].
Qed.

(** A column whose response the job has already, or does not get from
    this reply, is not touched by the check of a response. *)
Lemma receive_untouched aiId aiId' status job d :
  aiId ≠ aiId' ∨ aiId ∈ responsesReceived job
  ∨ aiId ∉ responsesReceived (receive aiId' status (job, d)).1 →
  column aiId (receive aiId' status (job, d)).2 = column aiId d
  ∧ indicator aiId (receive aiId' status (job, d)).2 = indicator aiId d.
Proof.
  destruct (receive_cases aiId' status job d)
    as [->|(rs & ms & node & p & _ & _ & _ & _ & Hopen & _ & ->)]; [done|].
  simpl. intros Hcase. rewrite column_resolve, indicator_resolve.
  destruct (decide (aiId = aiId')) as [->|Hne]; [|done].
  destruct Hcase as [?|[?|Hnot]]; [done..|]. set_solver.
Qed.

Lemma settle_open_untouched aiId aiId' node text job d :
  aiId ≠ aiId' ∨ aiId ∈ responsesReceived job →
  column aiId (settle_open aiId' node text job d) = column aiId d
  ∧ indicator aiId (settle_open aiId' node text job d) = indicator aiId d.
Proof.
  intros Hcase. unfold settle_open.
  destruct (has aiId' job) eqn:Hhas; [done|]. apply has_false in Hhas.
  destruct (get aiId' (placeholders job)); [|done].
  rewrite column_resolve, indicator_resolve.
  destruct (decide (aiId = aiId')) as [->|Hne]; [|done].
  by destruct Hcase.
Qed.

Lemma settle_open_here aiId p node text job d :
  get aiId (placeholders job) = Some p → aiId ∉ responsesReceived job →
  column aiId (settle_open aiId node text job d)
  = replaceChild node p (column aiId d)
  ∧ indicator aiId (settle_open aiId node text job d)
    = match indicator aiId d with
      | Some _ =>
          Some {| className := "ai-status error"; textContent := text |}
      | None => None
      end.
Proof.
  intros Hp Hopen%has_false. unfold settle_open. rewrite Hopen, Hp.
  rewrite column_resolve, indicator_resolve, !decide_True by done.
  done.
Qed.

Lemma resolves_settle_both p1 p2 node text job d :
  is_message node →
  at_1 (placeholders job) = Some p1 → at_2 (placeholders job) = Some p2 →
  slot_ok ai_1 job d → slot_ok ai_2 job d →
  resolves [p1; p2] d
    (settle_open ai_2 node text job (settle_open ai_1 node text job d)).
Proof.
  intros Hnode Hp1 Hp2 Hs1 Hs2.
  apply (resolves_trans _ _ (settle_open ai_1 node text job d)).
  - apply (resolves_settle_open _ ai_1 p1); [done|exact Hp1|set_solver|done].
  - apply (resolves_settle_open _ ai_2 p2); [done|exact Hp2|set_solver|].
    by apply slot_ok_settle_open.
Qed.

(** *** The outcome of a poll *)

Section Settled.
Context (reply : Settled ChatStatus) (now : Z) (job : Job) (d : Dom).
Context (p1 p2 : nat).
Hypothesis Hp1 : at_1 (placeholders job) = Some p1.
Hypothesis Hp2 : at_2 (placeholders job) = Some p2.
Hypothesis Hslot1 : slot_ok ai_1 job d.
Hypothesis Hslot2 : slot_ok ai_2 job d.

Let job0 := set_phase Ended job.
Let received1 status := receive ai_1 status (job0, d).
Let received2 status := receive ai_2 status (received1 status).

Lemma received1_facts status :
  same_closure job (received1 status).1
  ∧ phase (received1 status).1 = Ended
  ∧ resolves [p1; p2] d (received1 status).2
  ∧ slot_ok ai_1 (received1 status).1 (received1 status).2
  ∧ slot_ok ai_2 (received1 status).1 (received1 status).2.
Proof.
  unfold received1. split; [|split; [|split; [|split]]].
  - eapply same_closure_trans; [apply (same_closure_set_phase Ended)|].
    apply same_closure_receive.
  - by rewrite phase_receive.
  - apply (resolves_receive _ ai_1 p1); [exact Hp1|set_solver|done].
  - by apply slot_ok_receive.
  - by apply slot_ok_receive.
Qed.

Lemma received2_facts status :
  same_closure job (received2 status).1
  ∧ phase (received2 status).1 = Ended
  ∧ resolves [p1; p2] d (received2 status).2
  ∧ slot_ok ai_1 (received2 status).1 (received2 status).2
  ∧ slot_ok ai_2 (received2 status).1 (received2 status).2.
Proof.
  destruct (received1_facts status) as (Hc & Hph & Hres & Hs1 & Hs2).
  unfold received2. destruct (received1 status) as [job1 d1]. simpl in *.
  split; [|split; [|split; [|split]]].
  - eapply same_closure_trans; [exact Hc|]. apply same_closure_receive.
  - by rewrite phase_receive.
  - eapply resolves_trans; [exact Hres|].
    apply (resolves_receive _ ai_2 p2); [|set_solver|done].
    destruct Hc as (_ & _ & -> & _). exact Hp2.
  - by apply slot_ok_receive.
  - by apply slot_ok_receive.
Qed.

Lemma settled_closure : same_closure job (settled reply now job d).1.
Proof.
  unfold settled. destruct reply as [status|error].
  - fold job0. fold (received1 status). fold (received2 status).
    destruct (received2_facts status) as (Hc & _).
    destruct (continue_polling status now _); simpl; [|done].
    eapply same_closure_trans; [exact Hc|]. apply same_closure_set_phase.
  - apply same_closure_set_phase.
Qed.

Lemma settled_resolves : resolves [p1; p2] d (settled reply now job d).2.
Proof.
  unfold settled. destruct reply as [status|error].
  - fold job0. fold (received1 status). fold (received2 status).
    destruct (received2_facts status)
      as ((_ & _ & Hpl & _) & _ & Hres & Hs1 & Hs2).
    destruct (continue_polling status now _); simpl; [done|].
    eapply resolves_trans; [exact Hres|].
    apply resolves_settle_both; rewrite ?Hpl; done.
  - simpl. by apply resolves_settle_both.
Qed.

(** After a reply, the timer is armed, for [pollInterval], exactly
    when the condition to continue holds; after a failure of the call
    the job is over. *)
Lemma settled_phase :
  phase (settled reply now job d).1
  = match reply with
    | Resolved status =>
        if continue_polling status now (settled reply now job d).1
        then TimerPending pollInterval else Ended
    | Rejected _ => Ended
    end.
Proof.
  unfold settled. destruct reply as [status|error]; [|done].
  fold job0. fold (received1 status). fold (received2 status).
  destruct (received2_facts status) as (_ & Hph & _).
  destruct (continue_polling status now (received2 status).1) eqn:Hc;
    simpl.
  - unfold continue_polling in *. simpl. by rewrite Hc.
  - by rewrite Hc.
Qed.

(** While the job goes on, its placeholders are in place. *)
Lemma settled_slot_ok aiId :
  phase (settled reply now job d).1 ≠ Ended →
  slot_ok aiId (settled reply now job d).1 (settled reply now job d).2.
Proof.
  unfold settled. destruct reply as [status|error]; [|done].
  fold job0. fold (received1 status). fold (received2 status).
  destruct (received2_facts status) as (_ & Hph & _ & Hs1 & Hs2).
  destruct (continue_polling status now (received2 status).1); simpl.
  - intros _. by destruct aiId.
  - done.
Qed.

(** A column whose response had been received is left as it is. *)
Lemma settled_received aiId :
  aiId ∈ responsesReceived job →
  column aiId (settled reply now job d).2 = column aiId d
  ∧ indicator aiId (settled reply now job d).2 = indicator aiId d.
Proof.
  intros Hin.
  assert (Hsettle : ∀ node text job' d',
    aiId ∈ responsesReceived job' →
    column aiId
      (settle_open ai_2 node text job' (settle_open ai_1 node text job' d'))
    = column aiId d'
    ∧ indicator aiId
        (settle_open ai_2 node text job'
           (settle_open ai_1 node text job' d'))
      = indicator aiId d').
  { intros node text job' d' Hin'.
    destruct (settle_open_untouched aiId ai_2 node text job'
                (settle_open ai_1 node text job' d')) as [-> ->]; [auto|].
    apply settle_open_untouched. auto. }
  assert (Hreceived : ∀ status,
    column aiId (received2 status).2 = column aiId d
    ∧ indicator aiId (received2 status).2 = indicator aiId d).
  { clear Hsettle. intros status. unfold received2.
    pose proof (same_closure_receive ai_1 status job0 d)
      as (_ & _ & _ & _ & _ & Hsub). fold (received1 status) in Hsub.
    destruct (receive_untouched aiId ai_1 status job0 d) as [Hc Hi];
      [auto|]. fold (received1 status) in Hc, Hi.
    destruct (received1 status) as [job1 d1]. simpl in *.
    destruct (receive_untouched aiId ai_2 status job1 d1) as [-> ->];
      [|done].
    right. left. set_solver. }
  unfold settled. destruct reply as [status|error].
  - fold job0. fold (received1 status). fold (received2 status).
    destruct (received2_facts status) as ((_ & _ & _ & _ & _ & Hsub) & _).
    specialize (Hreceived status). destruct Hreceived as [Hc Hi].
    destruct (continue_polling status now _); simpl; [done|].
    specialize (Hsettle timeout_node "Timeout" (received2 status).1
                  (received2 status).2).
    destruct Hsettle as [-> ->]; [|done].
    clear Hc Hi. set_solver.
  - simpl. apply Hsettle. done.
Qed.


End Settled.

(** *** The invariant *)

Lemma Inv_slot_ok st j job aiId :
  Inv st → jobs st !! j = Some job → phase job ≠ Ended →
  slot_ok aiId job (dom st).
Proof.
  intros HI Hj Hph.
  destruct (inv_slot st HI j job aiId Hj) as (p & Hp & _ & Hout & Hin).
  exists p. repeat split; try done. intros Hnot. by apply Hin.
Qed.

Lemma Inv_placeholders st j job :
  Inv st → jobs st !! j = Some job →
  ∃ p1 p2, at_1 (placeholders job) = Some p1
         ∧ at_2 (placeholders job) = Some p2.
Proof.
  intros HI Hj.
  destruct (inv_slot st HI j job ai_1 Hj) as (p1 & Hp1 & _).
  destruct (inv_slot st HI j job ai_2 Hj) as (p2 & Hp2 & _).
  eauto.
Qed.

(** A handler that works for the job [j] only, replaces placeholders
    of that job only and keeps the placeholders of open slots in place
    preserves the invariant. *)
Lemma Inv_intro st st' j job job' p1 p2 :
  Inv st → jobs st !! j = Some job →
  jobs st' = <[j := job']> (jobs st) →
  at_1 (placeholders job) = Some p1 → at_2 (placeholders job) = Some p2 →
  placeholders job' = placeholders job →
  resolves [p1; p2] (dom st) (dom st') →
  (∀ aiId p, open aiId job' → get aiId (placeholders job) = Some p →
             contains aiId p (dom st') = true) →
  (phase job' = AwaitingStart → responsesReceived job' = ∅) →
  Inv st'.
Proof.
  intros HI Hj Hjobs Hp1 Hp2 Hpl Hres Hopen Hfresh.
  assert (Hlt : (j < List.length (jobs st))%nat) by by eapply lookup_lt_Some.
  assert (Hlookup : ∀ k jobk, jobs st' !! k = Some jobk →
            (k = j ∧ jobk = job') ∨ (k ≠ j ∧ jobs st !! k = Some jobk)).
  { intros k jobk. rewrite Hjobs.
    destruct (decide (k = j)) as [->|Hne].
    - rewrite list_lookup_insert_eq by done. intros [= <-]. by left.
    - rewrite list_lookup_insert_ne by done. by right. }
  assert (Hold : ∀ k jobk, jobs st' !! k = Some jobk →
            ∃ jobk', jobs st !! k = Some jobk'
                     ∧ placeholders jobk = placeholders jobk').
  { intros k jobk [[-> ->]|[_ Hk]]%Hlookup; eauto. }
  destruct Hres as [Hnext Hbutton Hinput Hmsgs Hstats Hin Hkeep].
  split.
  - destruct (inv_complete st HI) as (?&?&?&?&?&?).
    repeat split.
    + by apply (Hmsgs ai_1).
    + by apply (Hmsgs ai_2).
    + by apply (Hstats ai_1).
    + by apply (Hstats ai_2).
    + by apply Hbutton.
    + by apply Hinput.
  - intros aiId p Hc. rewrite Hnext. eapply inv_bound; eauto.
  - intros k jobk aiId Hk.
    destruct (Hold k jobk Hk) as (jobk' & Hk' & Hplk).
    destruct (inv_slot st HI k jobk' aiId Hk') as (p & Hp & Hb & Hout & Hinn).
    exists p. rewrite Hplk, Hnext. split; [done|]. split; [done|]. split.
    + apply not_true_iff_false. intros Hc%Hin. congruence.
    + intros Ho. destruct (Hlookup k jobk Hk) as [[-> ->]|[Hne Hk'']].
      * apply Hopen; [done|]. congruence.
      * assert (jobk' = jobk) as -> by congruence.
        apply Hkeep; [|by apply Hinn].
        intros Hp12. apply elem_of_cons in Hp12 as [->|Hp12].
        { destruct (inv_distinct st HI k j jobk job aiId ai_1 p1); auto. }
        apply elem_of_cons in Hp12 as [->|Hp12].
        { destruct (inv_distinct st HI k j jobk job aiId ai_2 p2); auto. }
        by apply not_elem_of_nil in Hp12.
  - intros k1 k2 job1 job2 aiId aiId' p Hk1 Hk2 Hq1 Hq2.
    destruct (Hold k1 job1 Hk1) as (job1' & Hk1' & Hpl1).
    destruct (Hold k2 job2 Hk2) as (job2' & Hk2' & Hpl2).
    rewrite Hpl1 in Hq1. rewrite Hpl2 in Hq2.
    eapply (inv_distinct st HI); eauto.
  - intros k jobk Hk Hph.
    destruct (Hlookup k jobk Hk) as [[-> ->]|[Hne Hk'']]; [auto|].
    eapply inv_fresh; eauto.
Qed.

Lemma Inv_TimerFired st j job :
  Inv st → jobs st !! j = Some job → phase job ≠ Ended →
  Inv (pollForResponses j job st).
Proof.
  intros HI Hj Hph.
  destruct (Inv_placeholders st j job HI Hj) as (p1 & p2 & Hp1 & Hp2).
  apply (Inv_intro st _ j job (set_phase AwaitingStatus job) p1 p2);
    [done|done|done|done|done|done|apply resolves_refl| |done].
  intros aiId p [_ Hnot] Hp.
  destruct (inv_slot st HI j job aiId Hj) as (p' & Hp' & _ & _ & Hin).
  assert (p' = p) as -> by congruence. by apply Hin.
Qed.

Lemma Inv_StatusSettled st j job reply now :
  Inv st → jobs st !! j = Some job → phase job = AwaitingStatus →
  pollForResponses_resumed j job reply now st
  = set_dom (settled reply now job (dom st)).2
      (set_job j (settled reply now job (dom st)).1 st)
  ∧ Inv (pollForResponses_resumed j job reply now st).
Proof.
  intros HI Hj Hph.
  assert (Hs1 : slot_ok ai_1 job (dom st))
    by (eapply Inv_slot_ok; eauto; congruence).
  assert (Hs2 : slot_ok ai_2 job (dom st))
    by (eapply Inv_slot_ok; eauto; congruence).
  destruct (Inv_placeholders st j job HI Hj) as (p1 & p2 & Hp1 & Hp2).
  assert (Heq : pollForResponses_resumed j job reply now st
                = set_dom (settled reply now job (dom st)).2
                    (set_job j (settled reply now job (dom st)).1 st)).
  { unfold pollForResponses_resumed.
    rewrite pollForResponses_settled_ok by done.
    by destruct (settled reply now job (dom st)). }
  split; [exact Heq|]. rewrite Heq.
  pose proof (settled_closure reply now job (dom st) p1 p2 Hp1 Hp2 Hs1 Hs2)
    as (_ & _ & Hpl & _).
  apply (Inv_intro st _ j job (settled reply now job (dom st)).1 p1 p2);
    [done|done|done|done|done|done| | |].
  - by apply settled_resolves.
  - intros aiId p [Hopen Hnot] Hp.
    destruct (settled_slot_ok reply now job (dom st) p1 p2 Hp1 Hp2 Hs1 Hs2
                aiId Hopen) as (p' & Hp' & _ & Hin).
    rewrite Hpl in Hp'. assert (p' = p) as -> by congruence. auto.
  - rewrite (settled_phase reply now job (dom st) p1 p2) by done.
    destruct reply; [|done]. by destruct (continue_polling _ _ _).
Qed.

Lemma handleMessageSubmit_settled_resolved j job startResponse now st :
  final (handleMessageSubmit_settled j job (Resolved startResponse) now st)
  = updateSendButton
      (set_isProcessing false
         (pollForResponses j
            {| message := message job; agents := agents job;
               placeholders := placeholders job;
               requestId := request_id startResponse;
               responsesReceived := ∅; startTime := now;
               phase := phase job |} st)).
Proof. reflexivity. Qed.

Lemma handleResponseError_ok aiId job error (d : Dom) :
  slot_ok aiId job d → aiId ∉ responsesReceived job →
  handleResponseError (get aiId (placeholders job)) aiId error d
  = Normal (settle_open aiId (error_node error) "Error" job d).
Proof.
  intros Hslot Hnot.
  pose proof (failure_ok aiId ("Error: " +:+ JS.message error)
                error_metadata "Error" job d Hslot) as H.
  apply has_false in Hnot. rewrite Hnot in H. unfold on_dom in H.
  unfold handleResponseError.
  destruct (handleResponseFailure _ _ _ _ _ d); by simplify_eq.
Qed.

(** When [startChatMessage] fails on a page where the placeholders are
    in place, no exception occurs: the [catch] clause of
    [handleMessageSubmit] is not entered. *)
Lemma handleMessageSubmit_settled_rejected j job error now st :
  slot_ok ai_1 job (dom st) → slot_ok ai_2 job (dom st) →
  responsesReceived job = ∅ →
  final (handleMessageSubmit_settled j job (Rejected error) now st)
  = updateSendButton
      (set_isProcessing false
         (set_dom
            (settle_open ai_2 (error_node error) "Error" job
               (settle_open ai_1 (error_node error) "Error" job (dom st)))
            (set_job j (set_phase Ended job) st))).
Proof.
  intros Hs1 Hs2 Hrr.
  unfold handleMessageSubmit_settled, try_finally, try_catch,
    sendMessageWithStreaming_settled, seq, pure, on_page.
  simpl.
  assert (Hnot : ∀ aiId, aiId ∉ responsesReceived job)
    by (rewrite Hrr; set_solver).
  pose proof (handleResponseError_ok ai_1 job error (dom st) Hs1 (Hnot _))
    as E1.
  pose proof (handleResponseError_ok ai_2 job error
                (settle_open ai_1 (error_node error) "Error" job (dom st))
                (slot_ok_settle_open ai_2 ai_1 (error_node error) _ job _ I
                   ltac:(done) Hs2)
                (Hnot _)) as E2.
  simpl in E1, E2. rewrite E1. simpl. rewrite E2. reflexivity.
Qed.

Lemma Inv_StartSettled st j job reply now :
  Inv st → jobs st !! j = Some job → phase job = AwaitingStart →
  Inv (final (handleMessageSubmit_settled j job reply now st)).
Proof.
  intros HI Hj Hph.
  assert (Hrr : responsesReceived job = ∅) by by eapply inv_fresh.
  assert (Hs1 : slot_ok ai_1 job (dom st))
    by (eapply Inv_slot_ok; eauto; congruence).
  assert (Hs2 : slot_ok ai_2 job (dom st))
    by (eapply Inv_slot_ok; eauto; congruence).
  destruct (Inv_placeholders st j job HI Hj) as (p1 & p2 & Hp1 & Hp2).
  destruct reply as [startResponse|error].
  - rewrite handleMessageSubmit_settled_resolved.
    eapply (Inv_intro st _ j job _ p1 p2);
      [done|done|reflexivity|done|done|reflexivity| | |done].
    + by apply resolves_updateSendButton.
    + intros aiId p _ Hp.
      destruct (inv_slot st HI j job aiId Hj) as (p' & Hp' & _ & _ & Hin).
      assert (p' = p) as -> by congruence.
      eapply (res_keep []); [by apply resolves_updateSendButton| |].
      * apply not_elem_of_nil.
      * apply Hin. split; [congruence|]. rewrite Hrr. set_solver.
  - rewrite handleMessageSubmit_settled_rejected by done.
    eapply (Inv_intro st _ j job (set_phase Ended job) p1 p2);
      [done|done|reflexivity|done|done|reflexivity| | |done].
    + eapply resolves_trans; [|by apply resolves_updateSendButton].
      simpl. by apply resolves_settle_both.
    + by intros aiId p [Hopen _].
Qed.

(** *** Submitting a message *)

Lemma handleMessageSubmit_rejected value st :
  isProcessing st = true ∨ trim value = EmptyString →
  complete (dom st) →
  handleMessageSubmit value st = Normal st.
Proof.
  intros Hcase (_ & _ & _ & _ & _ & [i Hi]). unfold handleMessageSubmit.
  destruct (isProcessing st); [done|]. rewrite Hi.
  destruct Hcase as [?| ->]; done.
Qed.

(** A submission that is accepted: the user message is appended to
    the column of each agent there is, the two placeholders are
    created, and the job is started. *)
Lemma handleMessageSubmit_accepted value st :
  complete (dom st) → isProcessing st = false →
  trim value ≠ EmptyString →
  ∃ st' u1 u2,
    handleMessageSubmit value st = Normal st'
    ∧ Forall is_message u1 ∧ Forall is_message u2
    ∧ column ai_1 (dom st')
      = (column ai_1 (dom st) ++ u1
         ++ [PlaceholderEl (next_element (dom st))])%list
    ∧ column ai_2 (dom st')
      = (column ai_2 (dom st) ++ u2
         ++ [PlaceholderEl (S (next_element (dom st)))])%list
    ∧ next_element (dom st') = S (S (next_element (dom st)))
    ∧ complete (dom st')
    ∧ isProcessing st' = true
    ∧ send_button (dom st')
      = Some {| button_disabled := true; button_text := "Sending..." |}
    ∧ sessionData st' = sessionData st
    ∧ calls st'
      = Api.StartChatMessage (session_id (sessionData st)) (trim value)
        :: calls st
    ∧ jobs st'
      = (jobs st
         ++ [{| message := trim value; agents := selected st;
                placeholders :=
                  two (Some (next_element (dom st)))
                      (Some (S (next_element (dom st))));
                requestId := None; responsesReceived := ∅;
                startTime := 0; phase := AwaitingStart |}])%list.
Proof.
  intros ([c1 Hc1] & [c2 Hc2] & [s1 Hs1] & [s2 Hs2] & [b Hb] & [i Hi])
    Hip Hmsg.
  unfold handleMessageSubmit. rewrite Hip, Hi.
  destruct (trim value) as [|ch rest] eqn:Htrim; [done|]. simpl negb. cbv iota.
  destruct st as [sd ip [[m1 m2] [t1 t2] b' i' o n] js cs].
  simpl in *. subst.
  unfold seq, pure, addUserMessage, on_page, selected,
    sendMessageWithStreaming, createPlaceholderMessage, appendChild,
    updateAIStatus, updateSendButton, set_isProcessing, set_dom,
    set_messages, column. simpl.
  destruct (default [] (selectedAgents sd)) as [|a0 [|a1 agents]] eqn:Hsel;
    simpl.
  - eexists _, [], []. split; [reflexivity|].
    repeat split; eauto; unfold selected; simpl;
      rewrite ?Hsel, ?app_nil_r; done.
  - eexists _, [_], []. split; [reflexivity|].
    repeat split; eauto; unfold selected; simpl;
      rewrite ?Hsel, <- ?app_assoc; try done; by repeat constructor.
  - eexists _, [_], [_]. split; [reflexivity|].
    repeat split; eauto; unfold selected; simpl;
      rewrite ?Hsel, <- ?app_assoc; try done; by repeat constructor.
Qed.

Lemma placeholder_not_message (u : list Node) (p : nat) :
  Forall is_message u → PlaceholderEl p ∉ u.
Proof.
  intros Hu Hin. rewrite List.Forall_forall in Hu.
  apply list_elem_of_In in Hin. exact (Hu _ Hin).
Qed.

Lemma contains_extended aiId (d d' : Dom) u n p :
  column aiId d' = (column aiId d ++ u ++ [PlaceholderEl n])%list →
  Forall is_message u →
  contains aiId p d' = true ↔ contains aiId p d = true ∨ p = n.
Proof.
  intros Hcol Hu. rewrite !contains_true, Hcol, !elem_of_app.
  rewrite list_elem_of_singleton.
  pose proof (placeholder_not_message u p Hu) as Hnot. split.
  - intros [?|[?|?]]; [by left|done|right; congruence].
  - intros [?| ->]; [by left|by right; right].
Qed.

Lemma Inv_Submit st value :
  Inv st → Inv (final (handleMessageSubmit value st)).
Proof.
  intros HI.
  destruct (isProcessing st) eqn:Hip;
    [by rewrite handleMessageSubmit_rejected by (auto; apply HI)|].
  destruct (decide (trim value = EmptyString)) as [Hempty|Hmsg];
    [by rewrite handleMessageSubmit_rejected by (auto; apply HI)|].
  destruct (handleMessageSubmit_accepted value st (inv_complete st HI)
              Hip Hmsg)
    as (st' & u1 & u2 & -> & Hu1 & Hu2 & Hc1 & Hc2 & Hnext & Hcomplete
        & _ & _ & _ & _ & Hjobs).
  simpl.
  set (n := next_element (dom st)) in *.
  assert (Hcontains : ∀ aiId p,
    contains aiId p (dom st') = true
    ↔ contains aiId p (dom st) = true ∨ p = (n + index aiId)%nat).
  { intros [] p.
    - rewrite (contains_extended ai_1 (dom st) (dom st') u1 n) by done.
      simpl. by rewrite Nat.add_0_r.
    - rewrite (contains_extended ai_2 (dom st) (dom st') u2 (S n)) by done.
      simpl. by rewrite Nat.add_1_r. }
  assert (Hlookup : ∀ k jobk, jobs st' !! k = Some jobk →
    jobs st !! k = Some jobk
    ∨ (k = List.length (jobs st)
       ∧ ∀ aiId, get aiId (placeholders jobk) = Some (n + index aiId)%nat)
         ∧ phase jobk = AwaitingStart ∧ responsesReceived jobk = ∅).
  { intros k jobk. rewrite Hjobs, lookup_snoc_Some.
    intros [[_ ?]|[-> <-]]; [by left|right].
    repeat split; try done. intros []; simpl; f_equal; lia. }
  assert (Hbound : ∀ aiId p,
    contains aiId p (dom st) = true → (p < n)%nat)
    by (intros; eapply inv_bound; eauto).
  split.
  - done.
  - intros aiId p [Hold| ->]%Hcontains; rewrite Hnext.
    + apply Hbound in Hold. lia.
    + destruct aiId; simpl; lia.
  - intros k jobk aiId [Hk|((-> & Hp) & Hph & Hrr)]%Hlookup.
    + destruct (inv_slot st HI k jobk aiId Hk) as (p & Hp & Hlt & Hout & Hin).
      exists p. rewrite Hnext. split; [done|]. split; [lia|]. split.
      * apply not_true_iff_false. intros [Hc| ->]%Hcontains; [congruence|].
        fold n in Hlt. lia.
      * intros Ho. apply Hcontains. left. auto.
    + exists (n + index aiId)%nat. rewrite Hnext.
      split; [done|]. split; [destruct aiId; simpl; lia|]. split.
      * apply not_true_iff_false. intros [Hc| Heq]%Hcontains.
        { apply Hbound in Hc. lia. }
        destruct aiId; simpl in Heq; lia.
      * intros _. apply Hcontains. by right.
  - intros k1 k2 job1 job2 aiId aiId' p
      [Hk1|((-> & Hp1) & _)]%Hlookup [Hk2|((-> & Hp2) & _)]%Hlookup Hq1 Hq2.
    + eapply (inv_distinct st HI); eauto.
    + destruct (inv_slot st HI k1 job1 aiId Hk1) as (p' & Hp' & Hlt & _).
      rewrite Hp2 in Hq2. fold n in Hlt.
      assert (p' = p) as -> by congruence.
      injection Hq2 as <-. lia.
    + destruct (inv_slot st HI k2 job2 aiId' Hk2) as (p' & Hp' & Hlt & _).
      rewrite Hp1 in Hq1. fold n in Hlt.
      assert (p' = p) as -> by congruence.
      injection Hq1 as <-. lia.
    + split; [done|]. rewrite Hp1 in Hq1. rewrite Hp2 in Hq2.
      destruct aiId, aiId'; simpl in *; try done; simplify_eq; lia.
  - intros k jobk [Hk|(_ & _ & Hrr)]%Hlookup Hph; [|done].
    eapply inv_fresh; eauto.
Qed.

Lemma resolves_updateAIHeaders ps agents d :
  resolves ps d (updateAIHeaders agents d).
Proof.
  unfold updateAIHeaders. destruct (bool_decide _); [|apply resolves_refl].
  eapply resolves_trans; apply resolves_updateAIStatus.
Qed.

Lemma Inv_init page data :
  complete page → Inv (initializeChat data (new_ChatComparisonState page)).
Proof.
  intros (Hc1 & Hc2 & Hs1 & Hs2 & Hb & Hi).
  destruct (resolves_updateAIHeaders [] (default [] (selectedAgents data))
              page) as [_ Hb' Hi' Hm' Hs' _ _].
  apply Hb' in Hb. apply Hi' in Hi.
  apply (Hm' ai_1) in Hc1. apply (Hm' ai_2) in Hc2.
  apply (Hs' ai_1) in Hs1. apply (Hs' ai_2) in Hs2.
  unfold indicator in Hs1, Hs2. simpl in Hc1, Hc2, Hs1, Hs2.
  destruct Hc1 as [c1 Hc1], Hc2 as [c2 Hc2], Hb as [b Hb], Hi as [i Hi].
  assert (Hcol : ∀ aiId p,
    contains aiId p
      (dom (initializeChat data (new_ChatComparisonState page))) = false).
  { intros aiId p. unfold contains. simpl. rewrite Hc1, Hc2.
    by destruct aiId. }
  split.
  - unfold complete. simpl. rewrite Hc1, Hc2, Hb, Hi.
    repeat split; eauto.
  - intros aiId p. by rewrite Hcol.
  - intros j job aiId Hj. simpl in Hj. by rewrite lookup_nil in Hj.
  - intros j k job job' aiId aiId' p Hj. simpl in Hj.
    by rewrite lookup_nil in Hj.
  - intros j job Hj. simpl in Hj. by rewrite lookup_nil in Hj.
Qed.

Lemma Inv_step st ev st' : Inv st → step ev st = Some st' → Inv st'.
Proof.
  intros HI. destruct ev as [value|j reply now|j reply now|j]; simpl.
  - intros [= <-]. by apply Inv_Submit.
  - destruct (jobs st !! j) as [job|] eqn:Hj; [|done].
    destruct (phase job) eqn:Hph; try done.
    intros [= <-]. by apply Inv_StartSettled.
  - destruct (jobs st !! j) as [job|] eqn:Hj; [|done].
    destruct (phase job) eqn:Hph; try done.
    intros [= <-]. by apply Inv_StatusSettled.
  - destruct (jobs st !! j) as [job|] eqn:Hj; [|done].
    destruct (phase job) eqn:Hph; try done.
    intros [= <-]. apply Inv_TimerFired; [done|done|congruence].
Qed.

(** The invariant holds throughout a chat session. *)
Lemma reachable_Inv st : reachable st → Inv st.
Proof.
  induction 1 as [page data Hpage|st ev st' _ IH Hstep].
  - by apply Inv_init.
  - by eapply Inv_step.
Qed.

Lemma run_reachable evs st st' :
  reachable st → run evs st = Some st' → reachable st'.
Proof.
  revert st. induction evs as [|ev evs IH]; simpl; intros st Hst.
  - by intros [= <-].
  - destruct (step ev st) as [st1|] eqn:Hstep; [|done].
    apply IH. by eapply reachable_step.
Qed.

(** *** How a job evolves *)

Lemma lookup_update_job (js : list Job) j k job job' jobk :
  js !! j = Some job → js !! k = Some jobk →
  <[j := job']> js !! k = Some (if decide (k = j) then job' else jobk).
Proof.
  intros Hj Hk. destruct (decide (k = j)) as [->|Hne].
  - apply list_lookup_insert_eq. by eapply lookup_lt_Some.
  - by rewrite list_lookup_insert_ne.
Qed.

(** An event leaves every job in the list, with the same placeholders
    and at least the same responses received; a job that is over does
    not change. *)
Lemma step_job st ev st' k jobk :
  Inv st → step ev st = Some st' → jobs st !! k = Some jobk →
  ∃ jobk', jobs st' !! k = Some jobk'
    ∧ responsesReceived jobk ⊆ responsesReceived jobk'
    ∧ placeholders jobk' = placeholders jobk
    ∧ (phase jobk = Ended → jobk' = jobk).
Proof.
  intros HI Hstep Hk.
  assert (Hupdate : ∀ st'' j job job',
    jobs st !! j = Some job → jobs st'' = <[j := job']> (jobs st) →
    phase job ≠ Ended →
    responsesReceived job ⊆ responsesReceived job' →
    placeholders job' = placeholders job →
    ∃ jobk', jobs st'' !! k = Some jobk'
      ∧ responsesReceived jobk ⊆ responsesReceived jobk'
      ∧ placeholders jobk' = placeholders jobk
      ∧ (phase jobk = Ended → jobk' = jobk)).
  { clear Hstep. intros st'' j job job' Hj Hjobs Hph Hsub Hpl. eexists.
    rewrite Hjobs. split; [by eapply lookup_update_job|].
    destruct (decide (k = j)) as [->|Hne]; [|done].
    assert (jobk = job) as -> by congruence. done. }
  destruct ev as [value|j reply now|j reply now|j]; simpl in Hstep.
  - injection Hstep as <-.
    destruct (isProcessing st) eqn:Hip;
      [rewrite handleMessageSubmit_rejected by (auto; apply HI); eauto|].
    destruct (decide (trim value = EmptyString)) as [Hempty|Hmsg];
      [rewrite handleMessageSubmit_rejected by (auto; apply HI); eauto|].
    destruct (handleMessageSubmit_accepted value st (inv_complete st HI)
                Hip Hmsg)
      as (st' & u1 & u2 & -> & _ & _ & _ & _ & _ & _ & _ & _ & _ & _
          & Hjobs).
    simpl. exists jobk. rewrite Hjobs. split; [|done].
    rewrite lookup_app_l; [done|]. by eapply lookup_lt_Some.
  - destruct (jobs st !! j) as [job|] eqn:Hj; [|done].
    destruct (phase job) eqn:Hph; try done. injection Hstep as <-.
    assert (Hrr : responsesReceived job = ∅) by by eapply inv_fresh.
    destruct reply as [startResponse|error].
    + rewrite handleMessageSubmit_settled_resolved.
      eapply (Hupdate _ j job); [done|reflexivity|congruence| |done].
      rewrite Hrr. set_solver.
    + rewrite handleMessageSubmit_settled_rejected;
        [|eapply Inv_slot_ok; eauto; congruence..|done].
      eapply (Hupdate _ j job); [done|reflexivity|congruence|done|done].
  - destruct (jobs st !! j) as [job|] eqn:Hj; [|done].
    destruct (phase job) eqn:Hph; try done. injection Hstep as <-.
    destruct (Inv_StatusSettled st j job reply now HI Hj Hph) as [-> _].
    destruct (Inv_placeholders st j job HI Hj) as (p1 & p2 & Hp1 & Hp2).
    destruct (settled_closure reply now job (dom st) p1 p2 Hp1 Hp2)
      as (_ & _ & Hpl & _ & _ & Hsub);
      [eapply Inv_slot_ok; eauto; congruence..|].
    eapply (Hupdate _ j job); [done|reflexivity|congruence|done|done].
  - destruct (jobs st !! j) as [job|] eqn:Hj; [|done].
    destruct (phase job) eqn:Hph; try done. injection Hstep as <-.
    eapply (Hupdate _ j job); [done|reflexivity|congruence|done|done].
Qed.

Lemma run_job evs st st' k jobk :
  Inv st → run evs st = Some st' → jobs st !! k = Some jobk →
  ∃ jobk', jobs st' !! k = Some jobk'
    ∧ responsesReceived jobk ⊆ responsesReceived jobk'
    ∧ placeholders jobk' = placeholders jobk
    ∧ (phase jobk = Ended → jobk' = jobk).
Proof.
  revert st jobk. induction evs as [|ev evs IH]; simpl; intros st jobk HI.
  - intros [= <-] Hk. eauto.
  - destruct (step ev st) as [st1|] eqn:Hstep; [|done]. intros Hrun Hk.
    destruct (step_job st ev st1 k jobk HI Hstep Hk)
      as (job1 & Hk1 & Hsub1 & Hpl1 & Hend1).
    destruct (IH st1 job1 (Inv_step _ _ _ HI Hstep) Hrun Hk1)
      as (job2 & Hk2 & Hsub2 & Hpl2 & Hend2).
    exists job2. split; [done|]. split; [set_solver|].
    split; [congruence|]. intros Hph.
    rewrite <- (Hend1 Hph). apply Hend2. by rewrite (Hend1 Hph).
Qed.

(** *** The states of the examples *)

Lemma complete_chat_page : complete chat_page.
Proof. repeat split; eauto. Qed.

Lemma reachable_chat_start : reachable chat_start.
Proof. apply reachable_init, complete_chat_page. Qed.

Lemma reachable_sending : reachable sending.
Proof.
  apply (run_reachable [Submit "hello"] chat_start);
    [apply reachable_chat_start|by vm_compute].
Qed.

Lemma reachable_polling : reachable polling.
Proof.
  apply (run_reachable
           [Submit "hello"; StartSettled 0 (Resolved started) 1000]
           chat_start); [apply reachable_chat_start|by vm_compute].
Qed.

Lemma reachable_half_answered : reachable half_answered.
Proof.
  apply (run_reachable
           [Submit "hello"; StartSettled 0 (Resolved started) 1000;
            StatusSettled 0 (Resolved (status_a "processing")) 1400]
           chat_start); [apply reachable_chat_start|by vm_compute].
Qed.


(** *** The re-entrancy guard *)

(** C1 (the code departs from it): after [hello] is submitted and
    [startChatMessage] has resolved, [handleMessageSubmit] has run its
    [finally] clause although nothing awaits the poll loop: the guard
    is down and the send button enabled while both placeholders of the
    job are still on the page, and a second submission creates a second
    job. *)
Theorem second_job_while_first_unresolved :
  isProcessing polling = false
  ∧ send_button (dom polling)
    = Some {| button_disabled := false; button_text := "Send" |}
  ∧ jobs polling !! 0%nat = Some (hello_job AwaitingStatus (Some "r1") 1000 ∅)
  ∧ contains ai_1 0 (dom polling) = true
  ∧ contains ai_2 1 (dom polling) = true
  ∧ ∃ st,
      step (Submit "again") polling = Some st
      ∧ List.length (jobs st) = 2%nat
      ∧ calls st
        = [Api.StartChatMessage (Some "s1") "again";
           Api.GetChatStatus (Some "r1");
           Api.StartChatMessage (Some "s1") "hello"].
Proof.
  repeat (split; [by vm_compute|]).
  eexists. split; [reflexivity|]. split; by vm_compute.
Qed.

(** The guard does hold while [startChatMessage] is pending: a
    submission is then ignored. *)
Lemma submit_ignored_while_processing value st :
  complete (dom st) → isProcessing st = true →
  step (Submit value) st = Some st.
Proof.
  intros Hc Hip. simpl. by rewrite handleMessageSubmit_rejected by auto.
Qed.

(** In every chat session the guard is released as soon as
    [startChatMessage] resolves, with both slots of the job open. *)
Lemma guard_released_on_start st j job startResponse now st' :
  reachable st → jobs st !! j = Some job → phase job = AwaitingStart →
  step (StartSettled j (Resolved startResponse) now) st = Some st' →
  isProcessing st' = false
  ∧ ∃ job', jobs st' !! j = Some job' ∧ open ai_1 job' ∧ open ai_2 job'.
Proof.
  intros Hreach Hj Hph. unfold step. rewrite Hj, Hph. intros [= <-].
  split; [done|].
  eexists. split.
  - simpl. apply list_lookup_insert_eq. by eapply lookup_lt_Some.
  - split; (split; [done|set_solver]).
Qed.

(** *** The failure of [startChatMessage] *)

Lemma settle_both_here aiId p node text job d :
  get aiId (placeholders job) = Some p → aiId ∉ responsesReceived job →
  column aiId
    (settle_open ai_2 node text job (settle_open ai_1 node text job d))
  = replaceChild node p (column aiId d)
  ∧ indicator aiId
      (settle_open ai_2 node text job (settle_open ai_1 node text job d))
    = match indicator aiId d with
      | Some _ =>
          Some {| className := "ai-status error"; textContent := text |}
      | None => None
      end.
Proof.
  intros Hp Hnot. destruct aiId.
  - destruct (settle_open_untouched ai_1 ai_2 node text job
                (settle_open ai_1 node text job d)) as [-> ->]; [by left|].
    by apply settle_open_here.
  - destruct (settle_open_here ai_2 p node text job
                (settle_open ai_1 node text job d)) as [-> ->]; [done..|].
    destruct (settle_open_untouched ai_2 ai_1 node text job d)
      as [-> ->]; [by left|done].
Qed.

Lemma complete_indicator aiId d : complete d → is_Some (indicator aiId d).
Proof. intros (_ & _ & ? & ? & _). by destruct aiId. Qed.

(** C4: when [startChatMessage] fails, for each of the two columns the
    placeholder of the job is replaced, where it stands, by the message
    [Error: <message>] with the metadata [processing_time_seconds = 0,
    cost_usd = 0, error = true], and the indicator of the column shows
    the error status; the controller is idle again ([isProcessing] is
    false and the send button is enabled); no call of [getChatStatus]
    is made, and the job is over for good: no poll of it ever settles
    and no timer of it ever fires. *)
Theorem start_failure_ends_job st j job error now :
  reachable st → jobs st !! j = Some job → phase job = AwaitingStart →
  ∃ st',
    step (StartSettled j (Rejected error) now) st = Some st'
    ∧ (∀ aiId, ∃ p before after,
         get aiId (placeholders job) = Some p
         ∧ column aiId (dom st)
           = (before ++ (PlaceholderEl p :: after))%list
         ∧ column aiId (dom st')
           = (before
              ++ (MessageEl assistant ("Error: " +:+ JS.message error)
                    {| display_name := None;
                       processing_time_seconds := Some 0%Q;
                       cost_usd := Some 0%Q;
                       error := Some true |}
                  :: after))%list
         ∧ indicator aiId (dom st')
           = Some {| className := "ai-status error";
                     textContent := "Error" |})
    ∧ isProcessing st' = false
    ∧ send_button (dom st')
      = Some {| button_disabled := false; button_text := "Send" |}
    ∧ calls st' = calls st
    ∧ jobs st' !! j = Some (set_phase Ended job)
    ∧ (∀ evs st'', run evs st' = Some st'' →
         jobs st'' !! j = Some (set_phase Ended job)
         ∧ ∀ reply now',
             step (StatusSettled j reply now') st'' = None
             ∧ step (TimerFired j) st'' = None).
Proof.
  intros Hreach Hj Hph. pose proof (reachable_Inv st Hreach) as HI.
  assert (Hrr : responsesReceived job = ∅) by by eapply inv_fresh.
  assert (Hs1 : slot_ok ai_1 job (dom st))
    by (eapply Inv_slot_ok; eauto; congruence).
  assert (Hs2 : slot_ok ai_2 job (dom st))
    by (eapply Inv_slot_ok; eauto; congruence).
  destruct (Inv_placeholders st j job HI Hj) as (p1 & p2 & Hp1 & Hp2).
  assert (Hstep : step (StartSettled j (Rejected error) now) st
                  = Some (final (handleMessageSubmit_settled j job
                                   (Rejected error) now st))).
  { simpl. by rewrite Hj, Hph. }
  pose proof (Inv_step _ _ _ HI Hstep) as HI'.
  eexists. split; [exact Hstep|].
  rewrite handleMessageSubmit_settled_rejected in HI' |- * by done.
  assert (Hlookup :
    <[j := set_phase Ended job]> (jobs st) !! j = Some (set_phase Ended job)).
  { apply list_lookup_insert_eq. by eapply lookup_lt_Some. }
  split; [|split; [done|split; [|split; [done|split; [exact Hlookup|]]]]].
  - intros aiId.
    destruct (inv_slot st HI j job aiId Hj) as (p & Hp & _ & _ & Hin).
    assert (Hopen : aiId ∉ responsesReceived job) by (rewrite Hrr; set_solver).
    assert (Hc : PlaceholderEl p ∈ column aiId (dom st)).
    { apply contains_true, Hin. split; [congruence|done]. }
    destruct (replaceChild_split (error_node error) p _ Hc)
      as (before & after & Hcol & _ & Hrep).
    destruct (settle_both_here aiId p (error_node error) "Error" job (dom st)
                Hp Hopen) as [Hcol' Hind'].
    destruct (complete_indicator aiId (dom st) (inv_complete st HI))
      as [s Hs].
    exists p, before, after. split; [done|]. split; [done|]. split.
    + change (column aiId (dom (updateSendButton ?s)))
        with (column aiId (dom s)). simpl.
      rewrite Hcol', Hrep. reflexivity.
    + change (indicator aiId (dom (updateSendButton ?s)))
        with (indicator aiId (dom s)). simpl.
      by rewrite Hind', Hs.
  - destruct (resolves_settle_both p1 p2 (error_node error) "Error" job
                (dom st) I Hp1 Hp2 Hs1 Hs2) as [_ Hb _ _ _ _ _].
    destruct (inv_complete st HI) as (_ & _ & _ & _ & Hbutton & _).
    apply Hb in Hbutton as [b Hbutton]. simpl. by rewrite Hbutton.
  - intros evs st'' Hrun.
    destruct (run_job evs _ st'' j (set_phase Ended job) HI' Hrun Hlookup)
      as (job'' & Hj'' & _ & _ & Hend).
    rewrite (Hend eq_refl) in Hj''. split; [exact Hj''|].
    intros reply now'. simpl. by rewrite Hj''.
Qed.

Lemma start_failure_ends_job_witness :
  reachable sending
  ∧ jobs sending !! 0%nat = Some (hello_job AwaitingStart None 0 ∅)
  ∧ phase (hello_job AwaitingStart None 0 ∅) = AwaitingStart
  ∧ ∃ st',
      step (StartSettled 0 (Rejected network_error) 1000) sending = Some st'
      ∧ isProcessing st' = false
      ∧ calls st' = calls sending.
Proof.
  assert (Hjob : jobs sending !! 0%nat
                 = Some (hello_job AwaitingStart None 0 ∅))
    by (vm_compute; reflexivity).
  split; [apply reachable_sending|]. split; [exact Hjob|].
  split; [reflexivity|].
  destruct (start_failure_ends_job sending 0
              (hello_job AwaitingStart None 0 ∅) network_error 1000
              reachable_sending Hjob eq_refl)
    as (st' & Hstep & _ & Hidle & _ & Hcalls & _).
  exists st'. auto.
Defined.

Example start_failure_columns :
  column ai_1 (dom start_failed)
  = [MessageEl user "hello" no_metadata;
     MessageEl assistant "Error: Failed to fetch" error_metadata]
  ∧ column ai_2 (dom start_failed)
    = [MessageEl user "hello" no_metadata;
       MessageEl assistant "Error: Failed to fetch" error_metadata]
  ∧ (phase <$> jobs start_failed) = [Ended]
  ∧ calls start_failed = [Api.StartChatMessage (Some "s1") "hello"].
Proof. by vm_compute. Qed.

(** *** The poll loop *)

(** What a poll that settles does, in a chat session. *)
Lemma step_StatusSettled st j job reply now st' job' :
  reachable st → jobs st !! j = Some job →
  step (StatusSettled j reply now) st = Some st' →
  jobs st' !! j = Some job' →
  phase job = AwaitingStatus
  ∧ slot_ok ai_1 job (dom st) ∧ slot_ok ai_2 job (dom st)
  ∧ job' = (settled reply now job (dom st)).1
  ∧ dom st' = (settled reply now job (dom st)).2.
Proof.
  intros Hreach Hj Hstep Hj'. pose proof (reachable_Inv st Hreach) as HI.
  simpl in Hstep. rewrite Hj in Hstep.
  destruct (phase job) eqn:Hph; try done. injection Hstep as <-.
  destruct (Inv_StatusSettled st j job reply now HI Hj Hph) as [Heq _].
  rewrite Heq in Hj' |- *. simpl in Hj'.
  rewrite list_lookup_insert_eq in Hj' by by eapply lookup_lt_Some.
  injection Hj' as <-.
  repeat split; try done; eapply Inv_slot_ok; eauto; congruence.
Qed.






Example timed_out_columns :
  column ai_1 (dom timed_out)
  = [MessageEl user "hello" no_metadata;
     MessageEl assistant "hi" metadata_a]
  ∧ column ai_2 (dom timed_out)
    = [MessageEl user "hello" no_metadata;
       MessageEl assistant "Request timeout" timeout_metadata]
  ∧ indicator ai_1 (dom timed_out)
    = Some {| className := "ai-status ready"; textContent := "Ready" |}.
Proof. by vm_compute. Qed.

(** C3: once a slot of a job is resolved, its response received or the
    job over, no later answer to a poll of that job changes the column
    or the indicator of the slot, and the slot stays resolved. *)
Theorem resolved_slot_is_final st j job aiId evs st1 reply now st2 :
  reachable st → jobs st !! j = Some job →
  aiId ∈ responsesReceived job ∨ phase job = Ended →
  run evs st = Some st1 →
  step (StatusSettled j reply now) st1 = Some st2 →
  column aiId (dom st2) = column aiId (dom st1)
  ∧ indicator aiId (dom st2) = indicator aiId (dom st1)
  ∧ ∃ job2, jobs st2 !! j = Some job2
      ∧ (aiId ∈ responsesReceived job2 ∨ phase job2 = Ended).
Proof.
  intros Hreach Hj Hresolved Hrun Hstep.
  pose proof (reachable_Inv st Hreach) as HI.
  pose proof (run_reachable evs st st1 Hreach Hrun) as Hreach1.
  pose proof (reachable_Inv st1 Hreach1) as HI1.
  destruct (run_job evs st st1 j job HI Hrun Hj)
    as (job1 & Hj1 & Hsub & _ & Hend).
  destruct (step_job st1 _ st2 j job1 HI1 Hstep Hj1)
    as (job2 & Hj2 & Hsub2 & _).
  destruct (step_StatusSettled st1 j job1 reply now st2 job2 Hreach1 Hj1
              Hstep Hj2) as (Hph & Hs1 & Hs2 & _ & ->).
  destruct (Inv_placeholders st1 j job1 HI1 Hj1) as (p1 & p2 & Hp1 & Hp2).
  assert (Hin : aiId ∈ responsesReceived job1).
  { destruct Hresolved as [Hin|Hended]; [by apply Hsub|].
    rewrite (Hend Hended) in Hph. congruence. }
  destruct (settled_received reply now job1 (dom st1) p1 p2 Hp1 Hp2 Hs1 Hs2
              aiId Hin) as [Hcol Hind].
  split; [done|]. split; [done|]. exists job2. split; [done|]. left.
  by apply Hsub2.
Qed.

Lemma resolved_slot_is_final_witness :
  reachable half_answered
  ∧ jobs half_answered !! 0%nat
    = Some (hello_job (TimerPending 200) (Some "r1") 1000 {[ai_1]})
  ∧ ai_1 ∈ ({[ai_1]} : gset AiId)
  ∧ run [TimerFired 0] half_answered = Some polling_again
  ∧ step (StatusSettled 0 (Resolved (status_a "processing")) 1700)
      polling_again
    = Some answered_again
  ∧ column ai_1 (dom answered_again) = column ai_1 (dom polling_again).
Proof.
  assert (H1 : jobs half_answered !! 0%nat
               = Some (hello_job (TimerPending 200) (Some "r1") 1000
                         {[ai_1]}))
    by (vm_compute; reflexivity).
  assert (H2 : ai_1 ∈ ({[ai_1]} : gset AiId))
    by (apply (bool_decide_unpack _); vm_compute; exact I).
  assert (H3 : run [TimerFired 0] half_answered = Some polling_again)
    by (vm_compute; reflexivity).
  assert (H4 : step (StatusSettled 0 (Resolved (status_a "processing")) 1700)
                 polling_again = Some answered_again)
    by (vm_compute; reflexivity).
  split; [apply reachable_half_answered|]. split; [exact H1|].
  split; [exact H2|]. split; [exact H3|]. split; [exact H4|].
  exact (proj1 (resolved_slot_is_final half_answered 0 _ ai_1
                  [TimerFired 0] polling_again _ 1700 answered_again
                  reachable_half_answered H1 (or_introl H2) H3 H4)).
Defined.

End ChatSpec.


(** ** Strings *)

Module StringSpec.

Lemma app_nil_string (t : string) : EmptyString +:+ t = t.
Proof. reflexivity. Qed.

Lemma app_cons_string (c : ascii) (s t : string) :
  String c s +:+ t = String c (s +:+ t).
Proof. reflexivity. Qed.

Lemma app_empty_r (s : string) : s +:+ EmptyString = s.
Proof.
  induction s as [|c s IH]; [done|]. by rewrite app_cons_string, IH.
Qed.

Lemma app_assoc_string (s t u : string) : (s +:+ t) +:+ u = s +:+ (t +:+ u).
Proof.
  induction s as [|c s IH]; [done|]. by rewrite !app_cons_string, IH.
Qed.

Lemma rev_app_spec (s t : string) :
  String.rev_app s t = String.rev s +:+ t.
Proof.
  unfold String.rev. revert t. induction s as [|c s IH]; intros t; simpl;
    [done|].
  rewrite (IH (String c EmptyString)), IH, app_assoc_string. done.
Qed.

Lemma rev_String (c : ascii) (s : string) :
  String.rev (String c s) = String.rev s +:+ String c EmptyString.
Proof. unfold String.rev at 1. simpl. apply rev_app_spec. Qed.

Lemma rev_app (s t : string) :
  String.rev (s +:+ t) = String.rev t +:+ String.rev s.
Proof.
  induction s as [|c s IH].
  - by rewrite app_nil_string, app_empty_r.
  - by rewrite app_cons_string, !rev_String, IH, app_assoc_string.
Qed.

Lemma rev_involutive (s : string) : String.rev (String.rev s) = s.
Proof.
  induction s as [|c s IH]; [done|].
  by rewrite rev_String, rev_app, IH.
Qed.

Lemma rev_empty (s : string) : String.rev s = EmptyString → s = EmptyString.
Proof. intros H. by rewrite <- (rev_involutive s), H. Qed.

Lemma trimStart_head (s : string) :
  starts_with_white_space (trimStart s) = false.
Proof.
  induction s as [|c s IH]; simpl; [done|].
  destruct (is_white_space c) eqn:Hc; [done|]. simpl. exact Hc.
Qed.

Lemma trimStart_id (s : string) :
  starts_with_white_space s = false → trimStart s = s.
Proof. destruct s as [|c s]; simpl; [done|]. by intros ->. Qed.

Lemma trimStart_app (s t : string) :
  trimStart (s +:+ t)
  = match trimStart s with
    | EmptyString => trimStart t
    | String _ _ => trimStart s +:+ t
    end.
Proof.
  induction s as [|c s IH]; [done|].
  rewrite app_cons_string. simpl. by destruct (is_white_space c).
Qed.

(** [trimEnd], from the first character on. *)
Lemma trimEnd_String (c : ascii) (s : string) :
  trimEnd (String c s)
  = match trimEnd s with
    | EmptyString =>
        if is_white_space c then EmptyString else String c EmptyString
    | String _ _ => String c (trimEnd s)
    end.
Proof.
  unfold trimEnd. rewrite rev_String, trimStart_app.
  destruct (trimStart (String.rev s)) as [|c' u] eqn:Hu.
  - simpl. by destruct (is_white_space c).
  - rewrite rev_app.
    change (String.rev (String c EmptyString)) with (String c EmptyString).
    rewrite app_cons_string, app_nil_string.
    destruct (String.rev (String c' u)) eqn:Hrev; [|done].
    by apply rev_empty in Hrev.
Qed.

Lemma trimEnd_head (s : string) :
  starts_with_white_space s = false →
  starts_with_white_space (trimEnd s) = false.
Proof.
  destruct s as [|c s]; [done|]. simpl. intros Hc.
  rewrite trimEnd_String. destruct (trimEnd s); simpl; by rewrite ?Hc.
Qed.

Lemma trimEnd_last (s : string) : ends_with_white_space (trimEnd s) = false.
Proof.
  unfold ends_with_white_space, trimEnd. rewrite rev_involutive.
  apply trimStart_head.
Qed.

Lemma trimEnd_idempotent (s : string) : trimEnd (trimEnd s) = trimEnd s.
Proof.
  unfold trimEnd. rewrite rev_involutive.
  by rewrite (trimStart_id (trimStart _)) by apply trimStart_head.
Qed.

(** The result of [trim] neither starts nor ends with white space. *)
Lemma trim_trimmed (s : string) : trimmed (trim s).
Proof.
  split.
  - apply trimEnd_head, trimStart_head.
  - apply trimEnd_last.
Qed.

Lemma trim_idempotent (s : string) : trim (trim s) = trim s.
Proof.
  unfold trim.
  rewrite (trimStart_id (trimEnd _)) by apply trimEnd_head, trimStart_head.
  apply trimEnd_idempotent.
Qed.

End StringSpec.

(** ** The chat screen: what a poll brings *)

Module PollSpec.
Import Chat Examples ChatSpec.






Lemma answer_brings aiId status job rs ms :
  responses status = Some rs → metadata status = Some ms →
  is_Some (answer aiId rs ms job)
  ↔ brings aiId status job ∧ aiId ∉ responsesReceived job.
Proof.
  intros Hrs Hms. unfold answer, brings. rewrite Hrs, Hms.
  destruct (agents job !! index aiId) as [agent|]; simpl.
  - destruct (rs !! key agent) as [content|] eqn:Hcontent; simpl.
    + destruct content as [|c content]; simpl.
      * split; [by intros []|].
        intros [(? & ? & ? & ? & [= <-] & [= <-] & _ & Hc & Hne) _].
        rewrite Hcontent in Hc. by injection Hc as <-.
      * destruct (has aiId job) eqn:Hhas; simpl.
        -- apply has_true in Hhas. split; [by intros []|]. by intros [_ ?].
        -- apply has_false in Hhas. split; [|eauto]. intros _.
           split; [|done]. by exists agent, rs, ms, (String c content).
    + split; [by intros []|].
      intros [(? & ? & ? & ? & [= <-] & [= <-] & _ & Hc & _) _].
      by rewrite Hcontent in Hc.
  - split; [by intros []|]. by intros [(? & ? & ? & ? & ? & _) _].
Qed.

Lemma receive_received aiId aiId' status job d :
  is_Some (get aiId' (placeholders job)) →
  aiId ∈ responsesReceived (receive aiId' status (job, d)).1
  ↔ aiId ∈ responsesReceived job ∨ (aiId = aiId' ∧ brings aiId' status job).
Proof.
  intros [p Hp]. unfold receive. cbn [fst snd].
  destruct (responses status) as [rs|] eqn:Hrs;
    [destruct (metadata status) as [ms|] eqn:Hms|].
  - pose proof (answer_brings aiId' status job rs ms Hrs Hms) as Hanswer.
    rewrite Hp. destruct (answer aiId' rs ms job) as [node|]; cbn [fst].
    + destruct Hanswer as [[Hb Hopen] _]; [eauto|].
      simpl. rewrite elem_of_union, elem_of_singleton. split.
      * intros [->|?]; auto.
      * intros [?|[-> _]]; auto.
    + split; [by left|]. intros [?|[-> Hb]]; [done|].
      destruct (decide (aiId' ∈ responsesReceived job)) as [|Hopen]; [done|].
      destruct Hanswer as [_ []]; done.
  - split; [by left|]. intros [?|[_ (? & ? & ? & ? & _ & _ & ? & _)]];
      [done|congruence].
  - split; [by left|]. intros [?|[_ (? & ? & ? & ? & _ & ? & _)]];
      [done|congruence].
Qed.

Lemma brings_closure aiId status job job' :
  agents job' = agents job → brings aiId status job' ↔ brings aiId status job.
Proof. intros Hagents. unfold brings. by rewrite Hagents. Qed.

Lemma settled_received_iff status now job d aiId :
  is_Some (at_1 (placeholders job)) → is_Some (at_2 (placeholders job)) →
  aiId ∈ responsesReceived (settled (Resolved status) now job d).1
  ↔ aiId ∈ responsesReceived job ∨ brings aiId status job.
Proof.
  intros Hp1 Hp2.
  assert (Hrr : responsesReceived (settled (Resolved status) now job d).1
                = responsesReceived
                    (receive ai_2 status
                       (receive ai_1 status (set_phase Ended job, d))).1).
  { unfold settled. by destruct (continue_polling _ _ _). }
  rewrite Hrr.
  pose proof (same_closure_receive ai_1 status (set_phase Ended job) d)
    as (_ & Hagents & Hpl & _).
  pose proof (receive_received aiId ai_1 status (set_phase Ended job) d)
    as H1.
  destruct (receive ai_1 status (set_phase Ended job, d)) as [job1 d1].
  cbn [fst snd] in *.
  rewrite (receive_received aiId ai_2 status job1 d1)
    by (by rewrite Hpl).
  rewrite H1 by done.
  rewrite (brings_closure ai_2 status (set_phase Ended job) job1) by done.
  change (brings ai_1 status (set_phase Ended job))
    with (brings ai_1 status job).
  change (brings ai_2 status (set_phase Ended job))
    with (brings ai_2 status job).
  change (responsesReceived (set_phase Ended job))
    with (responsesReceived job).
  destruct aiId; split.
  - intros [[?|[_ ?]]|[? _]]; auto; done.
  - intros [?|?]; auto.
  - intros [[?|[? _]]|[_ ?]]; auto; done.
  - intros [?|?]; auto.
Qed.



(** When a poll fails, the job is over: no timer is armed and no call
    is made; in each column whose response had not been received the
    placeholder of the job is replaced, where it stands, by the message
    [Error: <message>] with the metadata [processing_time_seconds = 0,
    cost_usd = 0, error = true] and the indicator shows the error
    status; a column whose response had been received is left as it
    is. *)
Theorem poll_failure_ends_job st j job error now st' job' :
  reachable st → jobs st !! j = Some job →
  step (StatusSettled j (Rejected error) now) st = Some st' →
  jobs st' !! j = Some job' →
  phase job' = Ended
  ∧ responsesReceived job' = responsesReceived job
  ∧ calls st' = calls st
  ∧ ∀ aiId,
      (aiId ∈ responsesReceived job →
         column aiId (dom st') = column aiId (dom st)
         ∧ indicator aiId (dom st') = indicator aiId (dom st))
      ∧ (aiId ∉ responsesReceived job →
           ∃ p before after,
             get aiId (placeholders job) = Some p
             ∧ column aiId (dom st)
               = (before ++ (PlaceholderEl p :: after))%list
             ∧ column aiId (dom st')
               = (before
                  ++ (MessageEl assistant ("Error: " +:+ JS.message error)
                        {| display_name := None;
                           processing_time_seconds := Some 0%Q;
                           cost_usd := Some 0%Q;
                           error := Some true |}
                      :: after))%list
             ∧ indicator aiId (dom st')
               = Some {| className := "ai-status error";
                         textContent := "Error" |}).
Proof.
  intros Hreach Hj Hstep Hj'.
  pose proof (reachable_Inv st Hreach) as HI.
  destruct (step_StatusSettled st j job _ now st' job' Hreach Hj Hstep Hj')
    as (Hph & Hs1 & Hs2 & -> & Hdom).
  destruct (Inv_placeholders st j job HI Hj) as (p1 & p2 & Hp1 & Hp2).
  split; [done|]. split; [done|]. split.
  { simpl in Hstep. rewrite Hj, Hph in Hstep. injection Hstep as <-.
    by destruct (Inv_StatusSettled st j job (Rejected error) now HI Hj Hph)
      as [-> _]. }
  intros aiId. rewrite Hdom. split.
  - intros Hin.
    by apply (settled_received (Rejected error) now job (dom st) p1 p2).
  - intros Hopen.
    destruct (inv_slot st HI j job aiId Hj) as (p & Hp & _ & _ & Hin).
    assert (Hon : contains aiId p (dom st) = true).
    { apply Hin. split; [congruence|done]. }
    destruct (settle_both_here aiId p (error_node error) "Error"
                (set_phase Ended job) (dom st) Hp Hopen) as [Hcol Hind].
    destruct (replaceChild_split (error_node error) p _
                (proj1 (contains_true _ _ _) Hon))
      as (before & after & Hbefore & _ & Hrep).
    destruct (complete_indicator aiId (dom st) (inv_complete st HI))
      as [s Hs].
    exists p, before, after. simpl. rewrite Hcol, Hind, Hrep, Hs. done.
Qed.

Lemma poll_failure_ends_job_witness :
  reachable polling
  ∧ jobs polling !! 0%nat = Some (hello_job AwaitingStatus (Some "r1") 1000 ∅)
  ∧ step (StatusSettled 0 (Rejected network_error) 1400) polling
    = Some poll_failed
  ∧ jobs poll_failed !! 0%nat
    = Some (hello_job Ended (Some "r1") 1000 ∅)
  ∧ calls poll_failed = calls polling.
Proof.
  assert (H1 : jobs polling !! 0%nat
               = Some (hello_job AwaitingStatus (Some "r1") 1000 ∅))
    by (vm_compute; reflexivity).
  assert (H2 : step (StatusSettled 0 (Rejected network_error) 1400) polling
               = Some poll_failed)
    by (vm_compute; reflexivity).
  assert (H3 : jobs poll_failed !! 0%nat
               = Some (hello_job Ended (Some "r1") 1000 ∅))
    by (vm_compute; reflexivity).
  split; [apply reachable_polling|]. split; [exact H1|].
  split; [exact H2|]. split; [exact H3|].
  exact (proj1 (proj2 (proj2 (poll_failure_ends_job polling 0 _ network_error
                                1400 poll_failed _ reachable_polling H1 H2
                                H3)))).
Defined.



End PollSpec.


(** ** The chat screen: what the handlers leave of the page *)

Module PageSpec.
Import Chat Examples ChatSpec.

(** *** Statements and relations *)

Section Keeps.
Context {S : Type} (P : S → Prop) (R : S → S → Prop).
Hypothesis R_refl : ∀ s, R s s.
Hypothesis R_trans : ∀ s1 s2 s3, R s1 s2 → R s2 s3 → R s1 s3.
Hypothesis P_R : ∀ s s', P s → R s s' → P s'.

Lemma keeps_pure (f : S → S) : (∀ s, P s → R s (f s)) → keeps P R (pure f).
Proof. intros Hf s Hs. by apply Hf. Qed.

Lemma keeps_seq (f g : Stmt S) :
  keeps P R f → keeps P R g → keeps P R (f >> g).
Proof.
  intros Hf Hg s Hs. specialize (Hf s Hs). unfold seq.
  destruct (f s) as [s'|e s']; simpl in *; [|done].
  eapply R_trans; [exact Hf|]. apply Hg. by eapply P_R.
Qed.

Lemma keeps_try_catch (f : Stmt S) (h : JS.Error → Stmt S) :
  keeps P R f → (∀ e, keeps P R (h e)) → keeps P R (try_catch f h).
Proof.
  intros Hf Hh s Hs. specialize (Hf s Hs). unfold try_catch.
  destruct (f s) as [s'|e s']; simpl in *; [done|].
  eapply R_trans; [exact Hf|]. apply Hh. by eapply P_R.
Qed.

Lemma keeps_try_finally (f : Stmt S) (g : S → S) :
  keeps P R f → (∀ s, P s → R s (g s)) → keeps P R (try_finally f g).
Proof.
  intros Hf Hg s Hs. specialize (Hf s Hs). unfold try_finally.
  destruct (f s) as [s'|e s']; simpl in *;
    (eapply R_trans; [exact Hf|]; apply Hg; by eapply P_R).
Qed.

End Keeps.

(** *** Quiet handlers *)

Lemma history_kept_refl d : history_kept d d.
Proof. intros aiId. split; [lia|auto]. Qed.

Lemma history_kept_trans d1 d2 d3 :
  history_kept d1 d2 → history_kept d2 d3 → history_kept d1 d3.
Proof.
  intros H12 H23 aiId.
  destruct (H12 aiId) as [Hl12 Hm12], (H23 aiId) as [Hl23 Hm23].
  split; [lia|]. auto.
Qed.

Lemma history_kept_columns d d' :
  (∀ aiId, column aiId d' = column aiId d) → history_kept d d'.
Proof. intros Hcol aiId. rewrite Hcol. split; [lia|auto]. Qed.

Lemma quiet_refl d : quiet d d.
Proof. split; [apply history_kept_refl|done]. Qed.

Lemma quiet_trans d1 d2 d3 : quiet d1 d2 → quiet d2 d3 → quiet d1 d3.
Proof.
  intros [H12 [Hb12 Hi12]] [H23 [Hb23 Hi23]]. split.
  - by eapply history_kept_trans.
  - split; congruence.
Qed.

Lemma length_replaceChild node p (l : list Node) :
  List.length (replaceChild node p l) = List.length l.
Proof.
  induction l as [|x l IH]; simpl; [done|].
  destruct (decide (x = PlaceholderEl p)); simpl; congruence.
Qed.

Lemma lookup_replaceChild node p (l : list Node) i x :
  l !! i = Some x → is_message x → replaceChild node p l !! i = Some x.
Proof.
  revert i. induction l as [|y l IH]; intros i; simpl; [done|].
  destruct (decide (y = PlaceholderEl p)) as [->|Hy].
  - destruct i as [|i]; simpl; [|done]. intros [= <-] [].
  - destruct i as [|i]; simpl; [done|]. apply IH.
Qed.

Lemma quiet_set_messages_append aiId children node d :
  get aiId (messages d) = Some children →
  quiet d (set_messages aiId (children ++ [node])%list d).
Proof.
  intros Hget. split; [|done]. intros aiId'.
  rewrite column_set_messages.
  destruct (decide (aiId' = aiId)) as [->|]; [|split; [lia|auto]].
  unfold column. rewrite Hget. simpl. rewrite length_app. split; [lia|].
  intros i x Hi _. by apply lookup_app_l_Some.
Qed.

Lemma quiet_set_messages_replace aiId node p d :
  quiet d (set_messages aiId (replaceChild node p (column aiId d)) d).
Proof.
  split; [|done]. intros aiId'. rewrite column_set_messages.
  destruct (decide (aiId' = aiId)) as [->|]; [|split; [lia|auto]].
  rewrite length_replaceChild. split; [lia|]. intros i x.
  apply lookup_replaceChild.
Qed.

Lemma quiet_updateAIStatus aiId c t d : quiet d (updateAIStatus aiId c t d).
Proof.
  split.
  - apply history_kept_columns. intros aiId'. apply column_updateAIStatus.
  - unfold same_form, updateAIStatus. by destruct (get aiId (statuses d)).
Qed.

Lemma quiet_showErrorModal msg d : quiet d (showErrorModal msg d).
Proof. split; [by apply history_kept_columns|done]. Qed.

Lemma keeps_appendChild aiId node : keeps always quiet (appendChild aiId node).
Proof.
  intros d _. unfold appendChild.
  destruct (get aiId (messages d)) as [children|] eqn:Hget; simpl.
  - by apply quiet_set_messages_append.
  - apply quiet_refl.
Qed.

Lemma keeps_replace_placeholder node p :
  keeps always quiet (replace_placeholder node p).
Proof.
  intros d _. unfold replace_placeholder.
  destruct (parentNode p d) as [parent|]; simpl.
  - apply quiet_set_messages_replace.
  - apply quiet_refl.
Qed.

Lemma keeps_quiet_pure (f : Dom → Dom) :
  (∀ d, quiet d (f d)) → keeps always quiet (pure f).
Proof. intros Hf d _. apply Hf. Qed.

Lemma keeps_quiet_seq (f g : Stmt Dom) :
  keeps always quiet f → keeps always quiet g → keeps always quiet (f >> g).
Proof. apply keeps_seq; [apply quiet_trans|done]. Qed.

Lemma keeps_replaceWithActualResponse placeholder aiId content metadata :
  keeps always quiet
    (replaceWithActualResponse placeholder aiId content metadata).
Proof.
  unfold replaceWithActualResponse. destruct placeholder as [p|].
  - apply keeps_quiet_seq; [apply keeps_replace_placeholder|].
    apply keeps_quiet_pure. intros d. apply quiet_updateAIStatus.
  - apply keeps_quiet_pure. intros d. apply quiet_refl.
Qed.

Lemma keeps_handleResponseFailure placeholder aiId message metadata status :
  keeps always quiet
    (handleResponseFailure placeholder aiId message metadata status).
Proof.
  unfold handleResponseFailure. destruct placeholder as [p|].
  - apply keeps_quiet_seq; [apply keeps_replace_placeholder|].
    apply keeps_quiet_pure. intros d. apply quiet_updateAIStatus.
  - apply keeps_quiet_pure. intros d. apply quiet_refl.
Qed.

(** *** The poll loop is quiet *)

Lemma quiet_pair_trans (jd1 jd2 jd3 : Job * Dom) :
  quiet_pair jd1 jd2 → quiet_pair jd2 jd3 → quiet_pair jd1 jd3.
Proof. apply quiet_trans. Qed.

Lemma keeps_on_dom (f : Stmt Dom) :
  keeps always quiet f → keeps always quiet_pair (on_dom f).
Proof.
  intros Hf [job d] _. specialize (Hf d I). unfold on_dom.
  by destruct (f d).
Qed.

Lemma keeps_pair_seq (f g : Stmt (Job * Dom)) :
  keeps always quiet_pair f → keeps always quiet_pair g →
  keeps always quiet_pair (f >> g).
Proof.
  apply keeps_seq; [|done]. intros ???. apply quiet_trans.
Qed.

Lemma keeps_check_response aiId rs ms :
  keeps always quiet_pair (check_response aiId rs ms).
Proof.
  intros [job d] _. unfold check_response.
  destruct (agents job !! index aiId) as [agent|]; [|apply quiet_refl].
  destruct (_ && _); [|apply quiet_refl].
  apply (keeps_on_dom _ (keeps_replaceWithActualResponse _ _ _ _)
           (add aiId job, d) I).
Qed.

Lemma keeps_check_responses status :
  keeps always quiet_pair (check_responses status).
Proof.
  unfold check_responses.
  destruct (responses status) as [rs|];
    [destruct (metadata status) as [ms|]|];
    try (intros jd _; apply quiet_refl).
  apply keeps_pair_seq; apply keeps_check_response.
Qed.

Lemma keeps_guarded aiId (f : option nat → Stmt Dom) :
  (∀ placeholder, keeps always quiet (f placeholder)) →
  keeps always quiet_pair
    (λ '(job, d),
       if has aiId job then Normal (job, d)
       else on_dom (f (get aiId (placeholders job))) (job, d)).
Proof.
  intros Hf [job d] _. destruct (has aiId job); [apply quiet_refl|].
  apply (keeps_on_dom _ (Hf _) (job, d) I).
Qed.

Lemma keeps_timeout_remaining : keeps always quiet_pair timeout_remaining.
Proof.
  apply keeps_pair_seq.
  - apply (keeps_guarded ai_1 (λ pl, handleResponseTimeout pl ai_1)).
    intros pl. apply keeps_handleResponseFailure.
  - apply (keeps_guarded ai_2 (λ pl, handleResponseTimeout pl ai_2)).
    intros pl. apply keeps_handleResponseFailure.
Qed.

Lemma keeps_error_remaining error :
  keeps always quiet_pair (error_remaining error).
Proof.
  apply keeps_pair_seq.
  - apply (keeps_guarded ai_1 (λ pl, handleResponseError pl ai_1 error)).
    intros pl. apply keeps_handleResponseFailure.
  - apply (keeps_guarded ai_2 (λ pl, handleResponseError pl ai_2 error)).
    intros pl. apply keeps_handleResponseFailure.
Qed.

Lemma keeps_poll_body status now : keeps always quiet_pair (poll_body status now).
Proof.
  apply keeps_pair_seq; [apply keeps_check_responses|].
  intros [job d] _.
  destruct (continue_polling status now job); [apply quiet_refl|].
  destruct (bool_decide _); [|apply quiet_refl].
  apply (keeps_timeout_remaining (job, d) I).
Qed.

Lemma quiet_pollForResponses_settled reply now job d :
  quiet d (pollForResponses_settled reply now job d).2.
Proof.
  unfold pollForResponses_settled. destruct reply as [status|error].
  - apply (keeps_try_catch always quiet_pair quiet_pair_trans
             ltac:(done) _ _ (keeps_poll_body status now)
             keeps_error_remaining (set_phase Ended job, d) I).
  - apply (keeps_error_remaining error (set_phase Ended job, d) I).
Qed.

(** *** The controller *)

Lemma quiet_state_refl st : quiet_state st st.
Proof. split; [apply quiet_refl|done]. Qed.

Lemma quiet_state_trans st1 st2 st3 :
  quiet_state st1 st2 → quiet_state st2 st3 → quiet_state st1 st3.
Proof.
  intros (H12 & Hp12 & Hs12) (H23 & Hp23 & Hs23). split.
  - by eapply quiet_trans.
  - split; congruence.
Qed.

Lemma keeps_state_seq (f g : Stmt State) :
  keeps always quiet_state f → keeps always quiet_state g →
  keeps always quiet_state (f >> g).
Proof. apply keeps_seq; [apply quiet_state_trans|done]. Qed.

Lemma keeps_on_page (f : Stmt Dom) :
  keeps always quiet f → keeps always quiet_state (on_page f).
Proof.
  intros Hf st _. specialize (Hf (dom st) I). unfold on_page.
  by destruct (f (dom st)).
Qed.

Lemma keeps_on_page_pure (f : Dom → Dom) :
  (∀ d, quiet d (f d)) → keeps always quiet_state (on_page (pure f)).
Proof. intros Hf. by apply keeps_on_page, keeps_quiet_pure. Qed.

Lemma keeps_addUserMessage message :
  keeps always quiet_state (addUserMessage message).
Proof.
  intros st _. unfold addUserMessage.
  apply keeps_state_seq; [| |done].
  - destruct (selected st !! 0%nat).
    + apply keeps_on_page, keeps_appendChild.
    + intros st' _. apply quiet_state_refl.
  - destruct (selected st !! 1%nat).
    + apply keeps_on_page, keeps_appendChild.
    + intros st' _. apply quiet_state_refl.
Qed.

Lemma quiet_createPlaceholderMessage aiId d :
  quiet d (createPlaceholderMessage aiId d).2.
Proof.
  unfold createPlaceholderMessage.
  destruct (get aiId (messages d)) as [children|] eqn:Hget;
    [|apply quiet_refl].
  apply (quiet_set_messages_append aiId children
           (PlaceholderEl (next_element d)) d) in Hget as [Hh Hf].
  split; [|done]. intros aiId'. specialize (Hh aiId').
  by unfold column in *.
Qed.

Lemma quiet_state_sendMessageWithStreaming message st :
  quiet_state st (sendMessageWithStreaming message st).
Proof.
  unfold sendMessageWithStreaming.
  pose proof (quiet_createPlaceholderMessage ai_1 (dom st)) as H1.
  destruct (createPlaceholderMessage ai_1 (dom st)) as [pl1 d1].
  pose proof (quiet_createPlaceholderMessage ai_2 d1) as H2.
  destruct (createPlaceholderMessage ai_2 d1) as [pl2 d2].
  split; [|done]. simpl in *. by eapply quiet_trans.
Qed.

Lemma quiet_state_updateSendButton st :
  history_kept (dom st) (dom (updateSendButton st))
  ∧ isProcessing (updateSendButton st) = isProcessing st
  ∧ sessionData (updateSendButton st) = sessionData st.
Proof. split; [by apply history_kept_columns|done]. Qed.

(** A submission is ignored, or the guard is set, the form updated,
    and the rest of the handler is quiet. *)
Lemma handleMessageSubmit_final value st :
  final (handleMessageSubmit value st) = st
  ∨ (isProcessing st = false
     ∧ quiet_state (updateSendButton (set_isProcessing true st))
         (final (handleMessageSubmit value st))).
Proof.
  unfold handleMessageSubmit.
  destruct (isProcessing st) eqn:Hip; [by left|].
  destruct (message_input (dom st)); [|by left].
  destruct (negb (truthy (trim value))); [by left|].
  right. split; [done|].
  change ((pure (set_isProcessing true) >> pure updateSendButton >> ?f) st)
    with (f (updateSendButton (set_isProcessing true st))).
  apply keeps_state_seq; [apply keeps_addUserMessage| |done].
  apply keeps_state_seq;
    [apply keeps_on_page_pure; intros d; apply quiet_updateAIStatus|].
  apply keeps_state_seq;
    [apply keeps_on_page_pure; intros d; apply quiet_updateAIStatus|].
  intros st' _. apply quiet_state_sendMessageWithStreaming.
Qed.

Lemma keeps_sendMessageWithStreaming_settled j job reply now :
  keeps always quiet_state (sendMessageWithStreaming_settled j job reply now).
Proof.
  unfold sendMessageWithStreaming_settled.
  destruct reply as [startResponse|error].
  - intros st _. split; [apply quiet_refl|done].
  - apply keeps_state_seq; [intros st _; split; [apply quiet_refl|done]|].
    apply keeps_state_seq;
      apply keeps_on_page, keeps_handleResponseFailure.
Qed.

Lemma final_try_finally {S} (f : Stmt S) (g : S → S) s :
  final (try_finally f g s) = g (final (f s)).
Proof. unfold try_finally. by destruct (f s). Qed.

(** When [startChatMessage] settles, the handler is quiet up to its
    [finally] clause, which releases the guard and updates the form. *)
Lemma handleMessageSubmit_settled_final j job reply now st :
  ∃ s, quiet_state st s
    ∧ final (handleMessageSubmit_settled j job reply now st)
      = updateSendButton (set_isProcessing false s).
Proof.
  unfold handleMessageSubmit_settled. rewrite final_try_finally.
  eexists. split; [|reflexivity].
  apply (keeps_try_catch always quiet_state quiet_state_trans
           ltac:(done)); [apply keeps_sendMessageWithStreaming_settled| |done].
  intros e.
  apply keeps_state_seq;
    [apply keeps_on_page_pure; intros d; apply quiet_showErrorModal|].
  apply keeps_state_seq;
    apply keeps_on_page_pure; intros d; apply quiet_updateAIStatus.
Qed.

Lemma quiet_state_pollForResponses_resumed j job reply now st :
  quiet_state st (pollForResponses_resumed j job reply now st).
Proof.
  unfold pollForResponses_resumed.
  pose proof (quiet_pollForResponses_settled reply now job (dom st)) as H.
  destruct (pollForResponses_settled reply now job (dom st)) as [job' d].
  by split.
Qed.

Lemma step_history ev st st' :
  step ev st = Some st' → history_kept (dom st) (dom st').
Proof.
  destruct ev as [value|j reply now|j reply now|j]; simpl.
  - intros [= <-].
    destruct (handleMessageSubmit_final value st) as [->|[_ [[H _] _]]];
      [apply history_kept_refl|].
    eapply history_kept_trans; [|exact H]. by apply history_kept_columns.
  - destruct (jobs st !! j) as [job|]; [|done].
    destruct (phase job); try done. intros [= <-].
    destruct (handleMessageSubmit_settled_final j job reply now st)
      as (s & [[H _] _] & ->).
    eapply history_kept_trans; [exact H|]. by apply history_kept_columns.
  - destruct (jobs st !! j) as [job|]; [|done].
    destruct (phase job); try done. intros [= <-].
    apply quiet_state_pollForResponses_resumed.
  - destruct (jobs st !! j) as [job|]; [|done].
    destruct (phase job); try done. intros [= <-].
    apply history_kept_refl.
Qed.

(** The history of the chat is kept by every event, on any page and
    in any state of the controller, even when a handler throws: a
    column never gets shorter, and a message, of the user or of an
    assistant, stays what it is and where it is; only placeholders are
    replaced. *)
Theorem history_append_only evs st st' :
  run evs st = Some st' → history_kept (dom st) (dom st').
Proof.
  revert st. induction evs as [|ev evs IH]; simpl; intros st.
  - intros [= <-]. apply history_kept_refl.
  - destruct (step ev st) as [st1|] eqn:Hstep; [|done]. intros Hrun.
    eapply history_kept_trans; [by eapply step_history|by apply IH].
Qed.

Lemma history_append_only_witness :
  run [Submit "hello"; StartSettled 0 (Resolved started) 1000;
       StatusSettled 0 (Resolved (status_a "processing")) 1400]
    chat_start
  = Some half_answered
  ∧ history_kept (dom chat_start) (dom half_answered).
Proof.
  assert (H : run [Submit "hello"; StartSettled 0 (Resolved started) 1000;
                   StatusSettled 0 (Resolved (status_a "processing")) 1400]
                chat_start
              = Some half_answered) by (vm_compute; reflexivity).
  split; [exact H|]. exact (history_append_only _ _ _ H).
Defined.

Lemma form_shows_guard_init page data :
  complete page →
  form_shows_guard (initializeChat data (new_ChatComparisonState page)).
Proof.
  intros (_ & _ & _ & _ & [b Hb] & [i Hi]).
  destruct (quiet_updateAIStatus ai_1 "ready" "Ready" page) as [_ [Hb1 Hi1]].
  destruct (quiet_updateAIStatus ai_2 "ready" "Ready"
              (updateAIStatus ai_1 "ready" "Ready" page)) as [_ [Hb2 Hi2]].
  unfold form_shows_guard, initializeChat, updateAIHeaders. simpl.
  destruct (bool_decide _); simpl; rewrite ?Hb2, ?Hb1, ?Hi2, ?Hi1, Hb, Hi;
    done.
Qed.

Lemma form_shows_guard_update b s :
  is_Some (send_button (dom s)) → is_Some (message_input (dom s)) →
  form_shows_guard (updateSendButton (set_isProcessing b s)).
Proof.
  intros [x Hx] [y Hy]. unfold form_shows_guard. simpl. by rewrite Hx, Hy.
Qed.

Lemma form_shows_guard_quiet st st' :
  quiet_state st st' → form_shows_guard st → form_shows_guard st'.
Proof.
  intros ([_ [Hb Hi]] & Hp & _) [Hb' Hi']. unfold form_shows_guard.
  by rewrite Hb, Hi, Hp.
Qed.

(** Throughout a chat session the form shows the guard: the send
    button is disabled and reads [Sending...] exactly while
    [isProcessing] is set, it is enabled and reads [Send] otherwise,
    and the message input is disabled exactly while the button is. *)
Theorem form_shows_guard_in_session st :
  reachable st → form_shows_guard st.
Proof.
  induction 1 as [page data Hpage|st ev st' _ IH Hstep];
    [by apply form_shows_guard_init|].
  destruct ev as [value|j reply now|j reply now|j]; simpl in Hstep.
  - injection Hstep as <-.
    destruct (handleMessageSubmit_final value st) as [->|[_ Hq]]; [done|].
    eapply form_shows_guard_quiet; [exact Hq|].
    destruct IH as [Hb Hi].
    apply form_shows_guard_update; simpl; rewrite ?Hb, ?Hi; eauto.
  - destruct (jobs st !! j) as [job|]; [|done].
    destruct (phase job); try done. injection Hstep as <-.
    destruct (handleMessageSubmit_settled_final j job reply now st)
      as (s & ([_ [Hb Hi]] & _) & ->).
    destruct IH as [Hb' Hi'].
    apply form_shows_guard_update; rewrite ?Hb, ?Hi, ?Hb', ?Hi'; eauto.
  - destruct (jobs st !! j) as [job|]; [|done].
    destruct (phase job); try done. injection Hstep as <-.
    eapply form_shows_guard_quiet; [|exact IH].
    apply quiet_state_pollForResponses_resumed.
  - destruct (jobs st !! j) as [job|]; [|done].
    destruct (phase job); try done. by injection Hstep as <-.
Qed.

Lemma form_shows_guard_in_session_witness :
  reachable polling
  ∧ send_button (dom polling)
    = Some {| button_disabled := false; button_text := "Send" |}.
Proof.
  split; [apply reachable_polling|].
  exact (proj1 (form_shows_guard_in_session polling reachable_polling)).
Defined.

(** *** Jobs whose placeholders are gone *)





Lemma page_left_refl jd : page_left jd jd.
Proof. done. Qed.










Lemma parentNode_clearMessages p d : parentNode p (clearMessages d) = None.
Proof.
  unfold parentNode, contains, clearMessages. simpl.
  by destruct (at_1 (messages d)), (at_2 (messages d)).
Qed.



Lemma detached_initializeChat job data st :
  detached job (dom (initializeChat data st)).
Proof.
  intros aiId p _. unfold initializeChat. simpl.
  apply (parentNode_clearMessages p).
Qed.



End PageSpec.


(** ** The chat screen: the calls and the agents of a session *)

Module SessionSpec.
Import Chat Examples ChatSpec PollSpec.

(** What an event of a chat session does to the jobs and to the calls:
    nothing, or a job is added and started, or one job moves on. *)
Lemma step_cases st ev st' :
  Inv st → step ev st = Some st' →
  sessionData st' = sessionData st
  ∧ (st' = st
     ∨ (∃ value job,
          trim value ≠ EmptyString
          ∧ calls st'
            = Api.StartChatMessage (session_id (sessionData st)) (trim value)
              :: calls st
          ∧ jobs st' = (jobs st ++ [job])%list
          ∧ agents job = selected st ∧ phase job = AwaitingStart
          ∧ responsesReceived job = ∅)
     ∨ (∃ j job job',
          jobs st !! j = Some job
          ∧ jobs st' = <[j := job']> (jobs st)
          ∧ agents job' = agents job
          ∧ phase job' ≠ AwaitingStart
          ∧ (phase job ≠ AwaitingStart → requestId job' = requestId job)
          ∧ (calls st' = calls st
             ∨ calls st' = Api.GetChatStatus (requestId job') :: calls st)
          ∧ ∀ aiId, aiId ∈ responsesReceived job' →
              aiId ∈ responsesReceived job
              ∨ is_Some (agents job !! index aiId))).
Proof.
  intros HI Hstep.
  destruct ev as [value|j reply now|j reply now|j]; simpl in Hstep.
  - injection Hstep as <-.
    destruct (isProcessing st) eqn:Hip;
      [rewrite handleMessageSubmit_rejected by (auto; apply HI); auto|].
    destruct (decide (trim value = EmptyString)) as [Hempty|Hmsg];
      [rewrite handleMessageSubmit_rejected by (auto; apply HI); auto|].
    destruct (handleMessageSubmit_accepted value st (inv_complete st HI)
                Hip Hmsg)
      as (st' & u1 & u2 & -> & _ & _ & _ & _ & _ & _ & _ & _ & Hsd & Hcalls
          & Hjobs).
    simpl. split; [done|]. right. left. eexists value, _.
    split; [done|]. split; [done|]. split; [done|]. done.
  - destruct (jobs st !! j) as [job|] eqn:Hj; [|done].
    destruct (phase job) eqn:Hph; try done. injection Hstep as <-.
    assert (Hrr : responsesReceived job = ∅) by by eapply inv_fresh.
    destruct reply as [startResponse|error].
    + rewrite handleMessageSubmit_settled_resolved. split; [done|].
      right. right. eexists j, job, _. split; [done|].
      split; [reflexivity|]. simpl.
      split; [done|]. split; [done|]. split; [congruence|].
      split; [by right|]. intros aiId Hin. by apply elem_of_empty in Hin.
    + rewrite handleMessageSubmit_settled_rejected;
        [|eapply Inv_slot_ok; eauto; congruence..|done].
      split; [done|]. right. right. eexists j, job, _. split; [done|].
      split; [reflexivity|]. simpl.
      split; [done|]. split; [done|]. split; [done|].
      split; [by left|]. auto.
  - destruct (jobs st !! j) as [job|] eqn:Hj; [|done].
    destruct (phase job) eqn:Hph; try done. injection Hstep as <-.
    destruct (Inv_StatusSettled st j job reply now HI Hj Hph) as [-> _].
    destruct (Inv_placeholders st j job HI Hj) as (p1 & p2 & Hp1 & Hp2).
    assert (Hs1 : slot_ok ai_1 job (dom st))
      by (eapply Inv_slot_ok; eauto; congruence).
    assert (Hs2 : slot_ok ai_2 job (dom st))
      by (eapply Inv_slot_ok; eauto; congruence).
    destruct (settled_closure reply now job (dom st) p1 p2 Hp1 Hp2 Hs1 Hs2)
      as (_ & Hagents & _ & Hrid & _ & _).
    pose proof (settled_phase reply now job (dom st) p1 p2 Hp1 Hp2 Hs1 Hs2)
      as Hphase.
    split; [done|]. right. right.
    exists j, job, (settled reply now job (dom st)).1. split; [done|].
    split; [reflexivity|]. split; [done|]. split.
    { rewrite Hphase. destruct reply; [|done].
      by destruct (continue_polling _ _ _). }
    split; [done|]. split; [by left|].
    intros aiId Hin. destruct reply as [status|error]; [|by left].
    apply settled_received_iff in Hin; [|eauto..].
    destruct Hin as [?|(agent & _ & _ & _ & Hagent & _)]; [by left|].
    right. eauto.
  - destruct (jobs st !! j) as [job|] eqn:Hj; [|done].
    destruct (phase job) eqn:Hph; try done. injection Hstep as <-.
    split; [done|]. right. right.
    exists j, job, (set_phase AwaitingStatus job). split; [done|].
    split; [reflexivity|]. split; [done|]. split; [done|].
    split; [done|]. split; [by right|]. auto.
Qed.

Lemma chat_call_step st ev st' op :
  Inv st → step ev st = Some st' → chat_call st op → chat_call st' op.
Proof.
  intros HI Hstep Hop.
  destruct (step_cases st ev st' HI Hstep) as [Hsd Hcases].
  destruct op; try done; simpl in *.
  - by rewrite Hsd.
  - destruct Hop as (k & jobk & Hk & Hph & Hrid).
    destruct Hcases
      as [->|[(value & job & _ & _ & Hjobs & _)
             |(j & job & job' & Hj & Hjobs & _ & Hph' & Hrid' & _)]].
    + eauto.
    + exists k, jobk. rewrite Hjobs. split; [|done].
      apply lookup_app_l_Some. done.
    + rewrite Hjobs. destruct (decide (k = j)) as [->|Hne].
      * exists j, job'. assert (jobk = job) as -> by congruence.
        split; [|split; [done|by rewrite Hrid']].
        apply list_lookup_insert_eq. by eapply lookup_lt_Some.
      * exists k, jobk. by rewrite list_lookup_insert_ne.
Qed.

(** The calls of a chat session: the controller only calls
    [startChatMessage] and [getChatStatus], never the blocking [chat]
    operation; every message it sends goes with the session id of the
    controller, is not empty and neither starts nor ends with white
    space; every status it asks for is the one of the request of a job
    it has started. *)
Theorem calls_in_session st op :
  reachable st → op ∈ calls st → chat_call st op.
Proof.
  intros Hreach. revert op.
  induction Hreach as [page data Hpage|st ev st' Hreach IH Hstep];
    intros op Hop.
  { simpl in Hop. by apply elem_of_nil in Hop. }
  pose proof (reachable_Inv st Hreach) as HI.
  destruct (step_cases st ev st' HI Hstep) as [Hsd Hcases].
  assert (Hold : op ∈ calls st → chat_call st' op).
  { intros Hin. eapply chat_call_step; eauto. }
  destruct Hcases
    as [->|[(value & job & Hmsg & Hcalls & _)
           |(j & job & job' & Hj & Hjobs & _ & Hph' & _ & Hcalls & _)]].
  - auto.
  - rewrite Hcalls in Hop. apply elem_of_cons in Hop as [->|Hop]; [|auto].
    simpl. rewrite Hsd. split; [done|]. split; [done|].
    apply StringSpec.trim_trimmed.
  - destruct Hcalls as [Hcalls|Hcalls]; rewrite Hcalls in Hop; [auto|].
    apply elem_of_cons in Hop as [->|Hop]; [|auto].
    simpl. exists j, job'. rewrite Hjobs. split; [|done].
    apply list_lookup_insert_eq. by eapply lookup_lt_Some.
Qed.

Lemma calls_in_session_witness :
  reachable polling
  ∧ Api.GetChatStatus (Some "r1") ∈ calls polling
  ∧ chat_call polling (Api.GetChatStatus (Some "r1")).
Proof.
  assert (Hcalls : calls polling
                   = [Api.GetChatStatus (Some "r1");
                      Api.StartChatMessage (Some "s1") "hello"])
    by (vm_compute; reflexivity).
  assert (H : Api.GetChatStatus (Some "r1") ∈ calls polling)
    by (rewrite Hcalls; apply list_elem_of_here).
  split; [apply reachable_polling|]. split; [exact H|].
  exact (calls_in_session polling _ reachable_polling H).
Defined.

(** The agents of every job of a chat session are the selected agents
    of the session, and a slot is only ever received for a column that
    has an agent: with fewer than two selected agents the second
    column never shows a response, its placeholders can only end as
    failures. *)
Theorem received_columns_have_agents st j job :
  reachable st → jobs st !! j = Some job →
  agents job = selected st
  ∧ ∀ aiId, aiId ∈ responsesReceived job →
      is_Some (selected st !! index aiId).
Proof.
  intros Hreach. revert j job.
  induction Hreach as [page data Hpage|st ev st' Hreach IH Hstep];
    intros k jobk Hk.
  { simpl in Hk. by rewrite lookup_nil in Hk. }
  pose proof (reachable_Inv st Hreach) as HI.
  destruct (step_cases st ev st' HI Hstep) as [Hsd Hcases].
  assert (Hsel : selected st' = selected st)
    by (unfold selected; by rewrite Hsd).
  rewrite Hsel.
  destruct Hcases
    as [->|[(value & job & _ & _ & Hjobs & Hagents & _ & Hrr)
           |(j & job & job' & Hj & Hjobs & Hagents & _ & _ & _ & Hin)]].
  - by apply (IH k).
  - rewrite Hjobs in Hk. apply lookup_snoc_Some in Hk as [[_ Hk]|[_ <-]];
      [by apply (IH k)|].
    split; [done|]. intros aiId. rewrite Hrr. by intros ?%elem_of_empty.
  - rewrite Hjobs in Hk. destruct (decide (k = j)) as [->|Hne].
    + rewrite list_lookup_insert_eq in Hk by by eapply lookup_lt_Some.
      injection Hk as <-. destruct (IH j job Hj) as [Hag Hrec].
      split; [congruence|]. intros aiId [?|Hsome]%Hin; [auto|].
      by rewrite <- Hag.
    + rewrite list_lookup_insert_ne in Hk by done. by apply (IH k).
Qed.

Lemma received_columns_have_agents_witness :
  reachable half_answered
  ∧ jobs half_answered !! 0%nat
    = Some (hello_job (TimerPending 200) (Some "r1") 1000 {[ai_1]})
  ∧ agents (hello_job (TimerPending 200) (Some "r1") 1000 {[ai_1]})
    = selected half_answered.
Proof.
  assert (H : jobs half_answered !! 0%nat
              = Some (hello_job (TimerPending 200) (Some "r1") 1000
                        {[ai_1]}))
    by (vm_compute; reflexivity).
  split; [apply reachable_half_answered|]. split; [exact H|].
  exact (proj1 (received_columns_have_agents half_answered 0 _
                  reachable_half_answered H)).
Defined.

(** Jobs that overlap do not interfere: when a poll of one job is
    answered, every other job is left as it is, and each of its
    placeholders is on the page afterwards exactly if it was before;
    the reply to a job only ever replaces placeholders of that job. *)
Theorem jobs_do_not_interfere st j k job jobk reply now st' :
  reachable st → jobs st !! j = Some job → jobs st !! k = Some jobk →
  k ≠ j → step (StatusSettled j reply now) st = Some st' →
  jobs st' !! k = Some jobk
  ∧ ∀ aiId aiId' p, get aiId (placeholders jobk) = Some p →
      contains aiId' p (dom st') = contains aiId' p (dom st).
Proof.
  intros Hreach Hj Hk Hne Hstep.
  pose proof (reachable_Inv st Hreach) as HI.
  simpl in Hstep. rewrite Hj in Hstep.
  destruct (phase job) eqn:Hph; try done. injection Hstep as <-.
  destruct (Inv_StatusSettled st j job reply now HI Hj Hph) as [-> _].
  destruct (Inv_placeholders st j job HI Hj) as (p1 & p2 & Hp1 & Hp2).
  assert (Hs1 : slot_ok ai_1 job (dom st))
    by (eapply Inv_slot_ok; eauto; congruence).
  assert (Hs2 : slot_ok ai_2 job (dom st))
    by (eapply Inv_slot_ok; eauto; congruence).
  destruct (settled_resolves reply now job (dom st) p1 p2 Hp1 Hp2 Hs1 Hs2)
    as [_ _ _ _ _ Hin Hkeep].
  split.
  - simpl. by rewrite list_lookup_insert_ne.
  - intros aiId aiId' p Hp. simpl. apply eq_true_iff_eq. split; [apply Hin|].
    apply Hkeep. intros Hp12.
    apply elem_of_cons in Hp12 as [->|Hp12].
    { destruct (inv_distinct st HI k j jobk job aiId ai_1 p1); auto. }
    apply elem_of_cons in Hp12 as [->|Hp12].
    { destruct (inv_distinct st HI k j jobk job aiId ai_2 p2); auto. }
    by apply not_elem_of_nil in Hp12.
Qed.

Lemma jobs_do_not_interfere_witness :
  reachable two_jobs
  ∧ jobs two_jobs !! 0%nat = Some (hello_job AwaitingStatus (Some "r1") 1000 ∅)
  ∧ step (StatusSettled 0 (Resolved (status_a "completed")) 1400) two_jobs
    = Some first_job_over
  ∧ contains ai_1 2 (dom first_job_over) = contains ai_1 2 (dom two_jobs).
Proof.
  assert (Hreach : reachable two_jobs).
  { apply (run_reachable
             [Submit "hello"; StartSettled 0 (Resolved started) 1000;
              Submit "again"]
             chat_start); [apply reachable_chat_start|by vm_compute]. }
  assert (H1 : jobs two_jobs !! 0%nat
               = Some (hello_job AwaitingStatus (Some "r1") 1000 ∅))
    by (vm_compute; reflexivity).
  assert (H2 : jobs two_jobs !! 1%nat = Some again_job)
    by (vm_compute; reflexivity).
  assert (H3 : step (StatusSettled 0 (Resolved (status_a "completed")) 1400)
                 two_jobs = Some first_job_over)
    by (vm_compute; reflexivity).
  split; [exact Hreach|]. split; [exact H1|]. split; [exact H3|].
  exact (proj2 (jobs_do_not_interfere two_jobs 0 1 _ _ _ 1400 first_job_over
                  Hreach H1 H2 ltac:(discriminate) H3)
           ai_1 ai_1 2%nat eq_refl).
Defined.

End SessionSpec.


(** ** From the session screen to the chat *)

Module NavigationSpec.
Import Selection Examples SelectionSpec.

Lemma truthy_opt_true (o : option string) :
  truthy_opt o = true ↔ ∃ s, o = Some s ∧ s ≠ EmptyString.
Proof.
  destruct o as [[|c s]|]; simpl; split; try done.
  - intros (s & [= <-] & Hs). done.
  - intros _. eexists. split; [done|]. done.
  - intros (s & ? & _). done.
Qed.

Lemma transitionToAISelection_opens m app sid :
  session_id (sessionData m) = Some sid → sid ≠ EmptyString →
  transitionToAISelection m app
  = with_manager (showState ai_selection m) (loadAvailableAgents sid app).
Proof.
  intros Hsid Hne. unfold transitionToAISelection. rewrite Hsid.
  by destruct sid.
Qed.

Lemma transitionToAISelection_refused m app :
  truthy_opt (session_id (sessionData m)) = false →
  transitionToAISelection m app
  = with_overlay (showError "No session selected") app.
Proof.
  unfold transitionToAISelection.
  destruct (session_id (sessionData m)) as [[|c s]|]; simpl; done.
Qed.

(** The fields of a session that is created: every call of
    [createSession] that [handleNewSession] makes carries a name and a
    project title that are not empty and neither start nor end with
    white space, whatever was typed in the form. *)
Theorem created_session_fields_are_trimmed form_name form_project_title app
    name title :
  Api.CreateSession name title
    ∈ calls (handleNewSession form_name form_project_title app) →
  Api.CreateSession name title ∉ calls app →
  name ≠ EmptyString ∧ title ≠ EmptyString
  ∧ trimmed name ∧ trimmed title
  ∧ name = trim form_name ∧ title = trim form_project_title.
Proof.
  unfold handleNewSession. cbv zeta.
  destruct (trim form_name) as [|c1 n] eqn:Hn;
    [by intros ? ?|].
  destruct (trim form_project_title) as [|c2 t] eqn:Ht;
    [by intros ? ?|].
  simpl. intros [Heq|Hin]%elem_of_cons Hnot; [|done].
  injection Heq as -> ->. split; [done|]. split; [done|].
  rewrite <- Hn, <- Ht.
  split; [apply StringSpec.trim_trimmed|].
  split; [apply StringSpec.trim_trimmed|done].
Qed.

Lemma created_session_fields_are_trimmed_witness :
  Api.CreateSession "Ada" "my project"
    ∈ calls (handleNewSession "  Ada " " my project  " session_screen)
  ∧ (Api.CreateSession "Ada" "my project" ∉ calls session_screen)
  ∧ trimmed "my project".
Proof.
  assert (H1 : Api.CreateSession "Ada" "my project"
               ∈ calls (handleNewSession "  Ada " " my project  "
                          session_screen))
    by (vm_compute; apply list_elem_of_here).
  assert (H2 : Api.CreateSession "Ada" "my project" ∉ calls session_screen)
    by apply not_elem_of_nil.
  split; [exact H1|]. split; [exact H2|].
  destruct (created_session_fields_are_trimmed _ _ _ _ _ H1 H2)
    as (_ & _ & _ & Ht & _).
  exact Ht.
Defined.

(** When [createSession] succeeds, the coordinator records the new
    session and opens the agent screen for it: the catalog is asked
    for the new session id, which is also the one the agent controller
    will send with the selections; the selected agents the coordinator
    had are kept.  The loading overlay is hidden by the [finally]
    clause, the call for the catalog being still pending.  When the
    session id of the reply is the empty string, the agent screen is
    refused with [No session selected] and no call is made. *)
Theorem session_creation_opens_agent_selection name title r app m :
  stateManager app = Some m → sr_success r = Some true →
  let app' := handleNewSession_settled name title (Resolved r) app in
  (∀ sid, sr_session_id r = Some sid → sid ≠ EmptyString →
     stateManager app'
     = Some {| currentState := ai_selection;
               sessionData :=
                 {| session_id := Some sid; Data.name := Some name;
                    project_title := Some title;
                    selectedAgents := selectedAgents (sessionData m) |} |}
     ∧ sessionId (ai app') = Some sid
     ∧ calls app' = Api.GetAvailableAgents sid :: calls app
     ∧ loading_shown (overlay app') = None)
  ∧ (sr_session_id r = Some EmptyString →
       (∃ m', stateManager app' = Some m'
              ∧ currentState m' = currentState m)
       ∧ ai app' = ai app
       ∧ calls app' = calls app
       ∧ error_shown (overlay app') = Some "No session selected").
Proof.
  intros Hm Hs%flag_true app'. subst app'.
  unfold handleNewSession_settled. rewrite Hs. cbn [stateManager].
  rewrite Hm. split.
  - intros sid Hsid Hne.
    rewrite (transitionToAISelection_opens _ _ sid);
      [|by simpl; rewrite Hsid|done].
    simpl. rewrite Hsid. done.
  - intros Hid. rewrite transitionToAISelection_refused.
    + simpl. split; [|split; [|split]]; try done.
      eexists. split; [reflexivity|done].
    + simpl. by rewrite Hid.
Qed.

Lemma session_creation_opens_agent_selection_witness :
  stateManager session_screen
  = Some {| currentState := user_selection; sessionData := no_session_data |}
  ∧ calls
      (handleNewSession_settled "Ada" "Demo"
         (Resolved {| sr_success := Some true; sr_session_id := Some "s1" |})
         session_screen)
    = [Api.GetAvailableAgents "s1"].
Proof.
  split; [reflexivity|].
  destruct (session_creation_opens_agent_selection "Ada" "Demo"
              {| sr_success := Some true; sr_session_id := Some "s1" |}
              session_screen _ eq_refl eq_refl) as [H _].
  destruct (H "s1" eq_refl ltac:(discriminate)) as (_ & _ & Hcalls & _).
  exact Hcalls.
Defined.

Lemma find_session_Some sessionId l s :
  find_session sessionId l = Some s → s ∈ l ∧ s_session_id s = sessionId.
Proof.
  unfold find_session. intros [Hin Hid]%List.find_some.
  split; [by apply list_elem_of_In|]. by apply bool_decide_eq_true in Hid.
Qed.

(** When [selectSession] succeeds for a session of the list, the
    session the coordinator records is the first one of the list with
    the id that was clicked, and the agent screen is opened for that
    id.  When the list has no session with that id, nothing is
    recorded: the coordinator keeps the session it had, and the agent
    screen is opened for that one or refused. *)
Theorem session_selection_opens_agent_selection sessionId r app m :
  stateManager app = Some m → sr_success r = Some true →
  let app' := selectSession_settled sessionId (Resolved r) app in
  (∀ s, find_session sessionId (sessions (user app)) = Some s →
     sessionId ≠ EmptyString →
     s ∈ sessions (user app)
     ∧ stateManager app'
       = Some {| currentState := ai_selection;
                 sessionData :=
                   {| session_id := Some sessionId;
                      Data.name := Some (s_name s);
                      project_title := Some (s_project_title s);
                      selectedAgents := selectedAgents (sessionData m) |} |}
     ∧ selectedSession (user app') = Some (session_data s)
     ∧ Selection.sessionId (ai app') = Some sessionId
     ∧ calls app' = Api.GetAvailableAgents sessionId :: calls app)
  ∧ (find_session sessionId (sessions (user app)) = None →
       selectedSession (user app') = None
       ∧ (∃ m', stateManager app' = Some m'
                ∧ sessionData m' = sessionData m)
       ∧ (calls app' = calls app
          ∨ ∃ sid, session_id (sessionData m) = Some sid
              ∧ calls app' = Api.GetAvailableAgents sid :: calls app)).
Proof.
  intros Hm Hs%flag_true app'. subst app'.
  unfold selectSession_settled. rewrite Hs. cbn [stateManager set_user].
  rewrite Hm. split.
  - intros s Hfind Hne. rewrite Hfind.
    destruct (find_session_Some _ _ _ Hfind) as [Hin <-].
    split; [done|]. simpl default.
    by rewrite (transitionToAISelection_opens _ _ (s_session_id s)).
  - intros Hfind. rewrite Hfind. simpl default. simpl fmap.
    assert (Hdata : setSessionData no_session_data m = m).
    { destruct m as [c [a b d e]]. done. }
    rewrite Hdata.
    destruct (truthy_opt (session_id (sessionData m))) eqn:Hid.
    + apply truthy_opt_true in Hid as (sid & Hsid & Hne).
      rewrite (transitionToAISelection_opens _ _ sid) by done.
      simpl. split; [done|]. split; [eauto|]. right. eauto.
    + rewrite transitionToAISelection_refused by done.
      simpl. split; [done|]. split; [eauto|]. by left.
Qed.

Lemma session_selection_opens_agent_selection_witness :
  stateManager listed_screen
  = Some {| currentState := user_selection; sessionData := no_session_data |}
  ∧ find_session "s2" (sessions (user listed_screen)) = Some listed_s2
  ∧ calls (selectSession_settled "s2" (Resolved created_s1) listed_screen)
    = [Api.GetAvailableAgents "s2"].
Proof.
  split; [reflexivity|]. split; [reflexivity|].
  destruct (session_selection_opens_agent_selection "s2" created_s1
              listed_screen _ eq_refl eq_refl) as [H _].
  destruct (H listed_s2 eq_refl ltac:(discriminate))
    as (_ & _ & _ & _ & Hcalls).
  exact Hcalls.
Defined.

(** A call of [createSession] or of [selectSession] that fails, or
    whose reply does not have the [success] flag set, is reported and
    changes nothing else: the coordinator, the controllers and the
    list of calls are as before, and the loading overlay is hidden. *)
Theorem session_failure_is_reported name title sessionId reply app :
  (∀ r, reply = Resolved r → sr_success r ≠ Some true) →
  let created := handleNewSession_settled name title reply app in
  let selected := selectSession_settled sessionId reply app in
  (stateManager created = stateManager app ∧ user created = user app
   ∧ ai created = ai app ∧ calls created = calls app
   ∧ overlay created
     = {| loading_shown := None;
          error_shown :=
            Some match reply with
                 | Resolved _ => "Error creating session."
                 | Rejected error =>
                     "Error creating session: " +:+ JS.message error
                 end |})
  ∧ (stateManager selected = stateManager app ∧ user selected = user app
     ∧ ai selected = ai app ∧ calls selected = calls app
     ∧ overlay selected
       = {| loading_shown := None;
            error_shown :=
              Some match reply with
                   | Resolved _ => "Error selecting session."
                   | Rejected error =>
                       "Error selecting session: " +:+ JS.message error
                   end |}).
Proof.
  intros Hfail. unfold handleNewSession_settled, selectSession_settled.
  destruct reply as [r|error]; [|done].
  destruct (flag (sr_success r)) eqn:Hs; [|done].
  apply flag_true in Hs. by destruct (Hfail r eq_refl).
Qed.

Lemma session_failure_is_reported_witness :
  (∀ r, Rejected (A := SessionReply) network_error = Resolved r →
        sr_success r ≠ Some true)
  ∧ error_shown
      (overlay (selectSession_settled "s2" (Rejected network_error)
                  listed_screen))
    = Some "Error selecting session: Failed to fetch".
Proof.
  assert (H : ∀ r, Rejected (A := SessionReply) network_error = Resolved r →
                   sr_success r ≠ Some true) by (intros r Hr; discriminate Hr).
  split; [exact H|].
  destruct (session_failure_is_reported "Ada" "Demo" "s2"
              (Rejected network_error) listed_screen H)
    as [_ (_ & _ & _ & _ & Ho)].
  rewrite Ho. reflexivity.
Defined.

(** When the selection of the second agent is confirmed, the chat is
    opened if and only if the coordinator has a session id: the chat
    controller is then initialised with the session of the coordinator
    and the catalog filtered by the keys of the reply, which become
    the agents of its columns; without a session id the chat is
    refused, whatever the agents are. *)
Theorem chat_opens_with_finalized_pair agentKey r keys app m page :
  stateManager app = Some m →
  success r = Some true → ready_for_conversation r = Some true →
  selected_agents r = Some keys →
  let app' := selectSecondAgent_settled agentKey (Resolved r) app in
  let pair := filter_selected (availableAgents (ai app)) keys in
  let data :=
    {| session_id := session_id (sessionData m);
       Data.name := Data.name (sessionData m);
       project_title := project_title (sessionData m);
       selectedAgents := Some pair |} in
  (truthy_opt (session_id (sessionData m)) = true →
     stateManager app'
     = Some {| currentState := chat_comparison; sessionData := data |}
     ∧ chatSession app' = Some data
     ∧ Chat.selected
         (Chat.initializeChat data (Chat.new_ChatComparisonState page))
       = pair
     ∧ Chat.sessionData
         (Chat.initializeChat data (Chat.new_ChatComparisonState page))
       = data)
  ∧ (truthy_opt (session_id (sessionData m)) = false →
       stateManager app'
       = Some {| currentState := currentState m; sessionData := data |}
       ∧ chatSession app' = chatSession app
       ∧ error_shown (overlay app')
         = Some "Missing session data or selected agents").
Proof.
  intros Hm Hs Hr Hkeys. cbv zeta.
  rewrite (selectSecondAgent_settled_ready agentKey r keys app m) by done.
  destruct m as [c [sid n t sel]].
  unfold onAISelectionComplete, transitionToChatComparison. simpl.
  split; intros Hid; rewrite Hid; done.
Qed.

Lemma chat_opens_with_finalized_pair_witness :
  stateManager agent_screen
  = Some {| currentState := ai_selection; sessionData := session_s1 |}
  ∧ Chat.selected
      (Chat.initializeChat
         {| session_id := Some "s1"; Data.name := Some "Ada";
            project_title := Some "Demo";
            selectedAgents := Some [agent_a; agent_b] |}
         (Chat.new_ChatComparisonState chat_page))
    = [agent_a; agent_b].
Proof.
  split; [reflexivity|].
  destruct (chat_opens_with_finalized_pair "a" ready_reply ["b"; "a"]
              agent_screen _ chat_page eq_refl eq_refl eq_refl eq_refl)
    as [H _].
  destruct (H eq_refl) as (_ & _ & Hsel & _).
  exact Hsel.
Defined.

(** [resetToUserSelection] brings the application back to the session
    screen with nothing left of the session: the coordinator has no
    session data, the session controller no selection, the agent
    controller neither catalog nor session id; the list of sessions is
    asked for twice, once by each reset of the session controller.
    From there neither screen can be opened before a session is
    chosen, and the reply to a selection of the second agent made
    before the reset does not open the chat. *)
Theorem reset_returns_to_session_screen m app :
  let app' := resetToUserSelection m app in
  let m' := {| currentState := user_selection;
               sessionData := no_session_data |} in
  stateManager app' = Some m'
  ∧ user app'
    = {| sessions := sessions (user app); selectedSession := None |}
  ∧ ai app' = {| availableAgents := []; sessionId := None |}
  ∧ calls app' = Api.GetSessions :: Api.GetSessions :: calls app
  ∧ loading_shown (overlay app') = Some "Loading sessions..."
  ∧ (stateManager (transitionToAISelection m' app') = Some m'
     ∧ calls (transitionToAISelection m' app') = calls app'
     ∧ error_shown (overlay (transitionToAISelection m' app'))
       = Some "No session selected")
  ∧ (stateManager (transitionToChatComparison m' app') = Some m'
     ∧ chatSession (transitionToChatComparison m' app') = chatSession app
     ∧ error_shown (overlay (transitionToChatComparison m' app'))
       = Some "Missing session data or selected agents")
  ∧ ∀ agentKey reply,
      chatSession (selectSecondAgent_settled agentKey reply app')
      = chatSession app
      ∧ ∃ m'', stateManager (selectSecondAgent_settled agentKey reply app')
               = Some m''
          ∧ currentState m'' = user_selection.
Proof.
  cbv zeta. repeat (split; [done|]).
  intros agentKey reply.
  unfold selectSecondAgent_settled.
  destruct reply as [r|e]; [|by eauto].
  destruct (flag (success r) && flag (ready_for_conversation r)); [|by eauto].
  simpl. destruct (selected_agents r); simpl; eauto.
Qed.

End NavigationSpec.


(** ** The cards of the agent screen *)

Module AgentScreenSpec.
Import Selection Examples SelectionSpec AgentScreen.

Lemma cards_render agents :
  cards (render agents) = (λ a, createAICard a false false) <$> agents.
Proof.
  induction agents as [|a agents IH]; [done|].
  change (createAICard a false false :: cards (render agents)
          = createAICard a false false
            :: ((λ a, createAICard a false false) <$> agents)).
  by rewrite IH.
Qed.

Lemma agents_render agents : agent <$> cards (render agents) = agents.
Proof.
  rewrite cards_render.
  induction agents as [|a agents IH]; [done|]. simpl. by f_equal.
Qed.

Lemma cards_update agentKey disableOthers children :
  cards ((λ child,
            match child with
            | CardEl card => CardEl (update_card agentKey disableOthers card)
            | NoticeEl text => NoticeEl text
            end) <$> children)
  = update_card agentKey disableOthers <$> cards children.
Proof.
  induction children as [|[card|text] children IH]; [done| |exact IH].
  change (update_card agentKey disableOthers card
          :: cards ((λ child,
                       match child with
                       | CardEl card =>
                           CardEl (update_card agentKey disableOthers card)
                       | NoticeEl text => NoticeEl text
                       end) <$> children)
          = update_card agentKey disableOthers card
            :: (update_card agentKey disableOthers <$> cards children)).
  by rewrite IH.
Qed.

Lemma shown_updateAgentSelection agentKey disableOthers container :
  shown (updateAgentSelection agentKey disableOthers container)
  = update_card agentKey disableOthers <$> shown container.
Proof.
  unfold shown. destruct container as [children|]; simpl; [|done].
  apply cards_update.
Qed.

Lemma agent_update_card agentKey disableOthers card :
  agent (update_card agentKey disableOthers card) = agent card.
Proof. unfold update_card. by destruct (decide _). Qed.

Lemma update_card_idempotent agentKey disableOthers card :
  update_card agentKey disableOthers
    (update_card agentKey disableOthers card)
  = update_card agentKey disableOthers card.
Proof.
  unfold update_card at 1. rewrite agent_update_card.
  unfold update_card. by destruct (decide _).
Qed.

(** [updateAgentSelection] keeps the cards of the container, with
    their agents and their order; afterwards a card is selected
    exactly when it carries the key, it has the badge exactly when it
    is selected, and a card that does not carry the key is disabled or
    not as [disableOthers] says; a second update for the same key
    changes nothing. *)
Theorem updateAgentSelection_marks_key agentKey disableOthers container :
  let container' := updateAgentSelection agentKey disableOthers container in
  agent <$> shown container' = agent <$> shown container
  ∧ (∀ card, card ∈ shown container' →
       (selected card = true ↔ key (agent card) = agentKey)
       ∧ well_formed card
       ∧ (key (agent card) ≠ agentKey → disabled card = disableOthers))
  ∧ updateAgentSelection agentKey disableOthers container' = container'.
Proof.
  cbv zeta. split; [|split].
  - rewrite shown_updateAgentSelection.
    induction (shown container) as [|card l IH]; [done|].
    rewrite !fmap_cons, agent_update_card. by f_equal.
  - intros card. rewrite shown_updateAgentSelection.
    intros (card0 & -> & _)%list_elem_of_fmap.
    unfold update_card, well_formed.
    destruct (decide (key (agent card0) = agentKey)); simpl; split;
      try done; split; done.
  - destruct container as [children|]; simpl; [|done]. f_equal.
    induction children as [|[card|text] children IH]; [done|..];
      rewrite !fmap_cons; [rewrite update_card_idempotent|]; by f_equal.
Qed.

Lemma updateAgentSelection_marks_key_witness :
  let card := {| agent := agent_a; selected := false; disabled := true;
                 badge := false |} in
  card ∈ shown (updateAgentSelection "b" true
                  (Some (render [agent_a; agent_b])))
  ∧ (key agent_a ≠ "b" → disabled card = true).
Proof.
  intros card.
  assert (H : card ∈ shown (updateAgentSelection "b" true
                              (Some (render [agent_a; agent_b])))).
  { assert (Hs : shown (updateAgentSelection "b" true
                          (Some (render [agent_a; agent_b])))
                 = [card; {| agent := agent_b; selected := true;
                             disabled := false; badge := true |}])
      by (vm_compute; reflexivity).
    rewrite Hs. apply list_elem_of_here. }
  split; [exact H|].
  exact (proj2 (proj2 (proj1 (proj2
           (updateAgentSelection_marks_key "b" true
              (Some (render [agent_a; agent_b])))) card H))).
Defined.

(** *** The first container *)

Lemma ai_transitionToChatComparison m a :
  ai (transitionToChatComparison m a) = ai a.
Proof.
  unfold transitionToChatComparison.
  destruct (selectedAgents (sessionData m)); [|done].
  by destruct (truthy_opt _).
Qed.

Lemma ai_selectSecondAgent_settled agentKey response a :
  ai (Selection.selectSecondAgent_settled agentKey response a) = ai a.
Proof.
  unfold Selection.selectSecondAgent_settled. simpl.
  destruct response as [r|e]; [|done].
  destruct (flag (success r) && flag (ready_for_conversation r)); [|done].
  destruct (selected_agents r) as [keys|];
    [|destruct (availableAgents (ai a)); [|done]];
    (destruct (stateManager a); [|done]);
    unfold onAISelectionComplete; by rewrite ai_transitionToChatComparison.
Qed.

Lemma agents_cards_update agentKey disableOthers children :
  agent <$> cards ((λ child,
                      match child with
                      | CardEl card =>
                          CardEl (update_card agentKey disableOthers card)
                      | NoticeEl text => NoticeEl text
                      end) <$> children)
  = agent <$> cards children.
Proof.
  rewrite cards_update.
  induction (cards children) as [|card l IH]; [done|].
  rewrite !fmap_cons, agent_update_card. by f_equal.
Qed.

Lemma cards_show_catalog_page s s' :
  page s' = page s →
  availableAgents (ai (app s')) = availableAgents (ai (app s)) →
  cards_show_catalog s → cards_show_catalog s'.
Proof. unfold cards_show_catalog. by intros -> ->. Qed.

Lemma well_formed_render agents card :
  card ∈ cards (render agents) → disabled card = false ∧ well_formed card.
Proof.
  rewrite cards_render. by intros (a & -> & _)%list_elem_of_fmap.
Qed.

Lemma cards_show_catalog_step s ev s' :
  cards_show_catalog s → step ev s = Some s' → cards_show_catalog s'.
Proof.
  intros Hinv. pose proof Hinv as (Hcat & Hfirst & Hsecond).
  destruct ev as [sid|i|i|i response|]; simpl.
  - intros [= <-]. by apply (cards_show_catalog_page s).
  - intros [= <-]. destruct (clicked _ i); [|done].
    by apply (cards_show_catalog_page s).
  - intros [= <-]. destruct (clicked _ i); [|done].
    by apply (cards_show_catalog_page s).
  - destruct (pending s !! i) as [[|agentKey| |agentKey|]|]; try done;
      intros [= <-].
    + unfold loadAvailableAgents_settled.
      destruct response as [r|e];
        [|by apply (cards_show_catalog_page s)].
      destruct (flag (success r));
        [|by apply (cards_show_catalog_page s)].
      destruct (available_agents r) as [agents|];
        [|by apply (cards_show_catalog_page s)].
      unfold cards_show_catalog, renderFirstAgentOptions. simpl.
      destruct (first_ai_options (page s)) as [children|] eqn:Hc; simpl.
      * split; [|split; [|done]].
        -- intros ? [= <-]. destruct agents as [|a agents]; [done|].
           apply agents_render.
        -- unfold shown. simpl. destruct agents as [|a agents].
           ++ by intros card ?%elem_of_nil.
           ++ apply well_formed_render.
      * rewrite Hc. split; [done|]. split; [|done].
        by intros card ?%elem_of_nil.
    + unfold selectFirstAgent_settled.
      destruct response as [r|e];
        [|by apply (cards_show_catalog_page s)].
      destruct (flag (success r));
        [|by apply (cards_show_catalog_page s)].
      unfold cards_show_catalog. simpl. split; [|split; [|done]].
      * destruct (first_ai_options (page s)) as [children|]; [|done].
        simpl. intros ? [= <-]. rewrite agents_cards_update. by apply Hcat.
      * intros card. rewrite shown_updateAgentSelection.
        intros (card0 & -> & [Hd Hw]%Hfirst)%list_elem_of_fmap.
        unfold update_card, well_formed in *.
        by destruct (decide _).
    + unfold renderSecondAgentOptions_settled.
      destruct response as [r|e];
        [|by apply (cards_show_catalog_page s)].
      destruct (flag (success r));
        [|by apply (cards_show_catalog_page s)].
      destruct (available_agents r) as [agents|];
        [|by apply (cards_show_catalog_page s)].
      destruct (second_ai_options (page s)) as [children|] eqn:Hc;
        [|by apply (cards_show_catalog_page s)].
      unfold cards_show_catalog. simpl. split; [done|]. split; [done|].
      intros card Hcard. by apply (well_formed_render agents).
    + unfold selectSecondAgent_settled, cards_show_catalog. cbn [app page].
      rewrite ai_selectSecondAgent_settled.
      destruct response as [r|e]; [|done].
      destruct (flag (success r) && flag (ready_for_conversation r));
        [|done].
      simpl. split; [done|]. split; [done|].
      intros card. rewrite shown_updateAgentSelection.
      intros (card0 & -> & _)%list_elem_of_fmap.
      unfold update_card, well_formed. by destruct (decide _).
  - intros [= <-]. unfold cards_show_catalog. simpl.
    split; [|split].
    + destruct (first_ai_options (page s)); [|done]. by intros ? [= <-].
    + destruct (first_ai_options (page s)); by intros card ?%elem_of_nil.
    + destruct (second_ai_options (page s)); by intros card ?%elem_of_nil.
Qed.

(** Throughout the life of the agent screen the cards of the first
    container show the catalog of the controller, in its order, and
    none of them is disabled: a click on any of them selects its agent
    for the first slot, also after a first or a second selection has
    been made; and every card has the badge [Selected] exactly when it
    is selected. *)
Theorem first_container_shows_catalog s :
  reachable s →
  cards_show_catalog s
  ∧ ∀ children i card,
      first_ai_options (page s) = Some children →
      children !! i = Some (CardEl card) →
      clicked (first_ai_options (page s)) i = Some (key (agent card)).
Proof.
  intros Hreach.
  assert (Hinv : cards_show_catalog s).
  { induction Hreach as [a p [Hp1 Hp2]|s ev s' _ IH Hstep];
      [|by eapply cards_show_catalog_step].
    unfold cards_show_catalog, shown. simpl. split; [|split].
    - intros children Hc. by rewrite (Hp1 children Hc).
    - destruct (first_ai_options p) as [children|]; simpl;
        [rewrite (Hp1 children eq_refl)|]; by intros card ?%elem_of_nil.
    - destruct (second_ai_options p) as [children|]; simpl;
        [rewrite (Hp2 children eq_refl)|]; by intros card ?%elem_of_nil. }
  split; [exact Hinv|].
  intros children i card Hc Hi. unfold clicked. rewrite Hc, Hi.
  destruct Hinv as (_ & Hfirst & _).
  destruct (Hfirst card) as [-> _]; [|done].
  unfold shown. rewrite Hc. simpl. unfold cards.
  apply list_elem_of_omap. exists (CardEl card). split; [|done].
  by eapply list_elem_of_lookup_2.
Qed.

Lemma screen_run_reachable evs s s' :
  reachable s → run evs s = Some s' → reachable s'.
Proof.
  revert s. induction evs as [|ev evs IH]; simpl; intros s Hs.
  - by intros [= <-].
  - destruct (step ev s) as [s1|] eqn:Hstep; [|done].
    apply IH. by eapply reachable_step.
Qed.

Lemma reachable_agents_start : reachable agents_start.
Proof. apply reachable_init. split; by intros ? [= <-]. Qed.

Lemma reachable_agents_offered : reachable agents_offered.
Proof.
  apply (screen_run_reachable
           [Load "s1"; Settle 0 (Resolved catalog_reply); ClickFirst 0;
            Settle 1 (Resolved first_selected_reply);
            Settle 1 (Resolved options_reply)]
           agents_start); [apply reachable_agents_start|by vm_compute].
Qed.

Lemma first_container_shows_catalog_witness :
  reachable agents_offered
  ∧ agent <$> shown (first_ai_options (page agents_offered))
    = [agent_a; agent_b; agent_c]
  ∧ clicked (first_ai_options (page agents_offered)) 1 = Some "b".
Proof.
  split; [apply reachable_agents_offered|].
  split; [by vm_compute|].
  exact (proj2 (first_container_shows_catalog agents_offered
                  reachable_agents_offered)
           _ 1%nat (createAICard agent_b false false) eq_refl eq_refl).
Defined.

(** *** The second container *)

Lemma clicked_render agents j a :
  agents !! j = Some a → clicked (Some (render agents)) j = Some (key a).
Proof.
  intros Hj. unfold clicked, render. rewrite list_lookup_fmap, Hj. done.
Qed.

(** When the options for the second slot arrive, the second container
    is rebuilt from the reply alone: it shows one card for each agent
    the backend lists, in the order of the list, whatever it showed
    before and whichever agent was selected first; the cards are
    neither selected nor disabled, so that each of them can be
    clicked; the section is displayed.  A reply without the [success]
    flag or without the list changes nothing and reports nothing; a
    call that fails is reported and changes nothing else.  In every
    case the loading overlay is hidden. *)
Theorem second_options_as_listed i response s :
  let s' := renderSecondAgentOptions_settled i response s in
  (∀ r agents children,
     response = Resolved r → success r = Some true →
     available_agents r = Some agents →
     second_ai_options (page s) = Some children →
     second_ai_options (page s') = Some (render agents)
     ∧ shown (second_ai_options (page s'))
       = (λ a, createAICard a false false) <$> agents
     ∧ (∀ j a, agents !! j = Some a →
          clicked (second_ai_options (page s')) j = Some (key a))
     ∧ first_ai_options (page s') = first_ai_options (page s)
     ∧ (is_Some (second_ai_section (page s)) →
          second_ai_section (page s') = Some true)
     ∧ error_shown (overlay (app s')) = error_shown (overlay (app s)))
  ∧ (∀ r, response = Resolved r →
       success r ≠ Some true ∨ available_agents r = None →
       page s' = page s
       ∧ error_shown (overlay (app s')) = error_shown (overlay (app s)))
  ∧ (∀ e, response = Rejected e →
       page s' = page s
       ∧ error_shown (overlay (app s'))
         = Some ("Error loading second agent options: " +:+ JS.message e))
  ∧ loading_shown (overlay (app s')) = None
  ∧ calls (app s') = calls (app s).
Proof.
  cbv zeta. unfold renderSecondAgentOptions_settled.
  split; [|split; [|split; [|split]]].
  - intros r agents children -> Hs%flag_true Ha Hc. rewrite Hs, Ha, Hc.
    simpl. split; [done|]. split; [apply cards_render|].
    split; [apply clicked_render|]. split; [done|]. split; [|done].
    by intros [b ->].
  - intros r -> Hcase.
    destruct (flag (success r)) eqn:Hs; [|done].
    apply flag_true in Hs. destruct Hcase as [?| ->]; done.
  - by intros e ->.
  - destruct response as [r|e]; [|done].
    destruct (flag (success r)); [|done].
    destruct (available_agents r); [|done].
    by destruct (second_ai_options (page s)).
  - destruct response as [r|e]; [|done].
    destruct (flag (success r)); [|done].
    destruct (available_agents r); [|done].
    by destruct (second_ai_options (page s)).
Qed.

Lemma second_options_as_listed_witness :
  success options_reply = Some true
  ∧ available_agents options_reply = Some [agent_b; agent_c]
  ∧ second_ai_options (page agents_start) = Some []
  ∧ clicked
      (second_ai_options
         (page (renderSecondAgentOptions_settled 0 (Resolved options_reply)
                  agents_start)))
      1
    = Some "c".
Proof.
  split; [reflexivity|]. split; [reflexivity|]. split; [reflexivity|].
  destruct (second_options_as_listed 0 (Resolved options_reply) agents_start)
    as [H _].
  destruct (H options_reply [agent_b; agent_c] [] eq_refl eq_refl eq_refl
              eq_refl) as (_ & _ & Hclick & _).
  exact (Hclick 1%nat agent_c eq_refl).
Defined.

(** When the reply to the selection of the second agent has its two
    flags, the cards of the second container that do not carry the
    selected key are disabled, and a click on any of them is ignored:
    no call is made and nothing changes; a card that carries the key
    answers to clicks as before.  This holds whether or not the reply
    lists the selected agents, the cards being marked before the
    agents are filtered. *)
Theorem second_choice_locks_the_others i agentKey r s :
  success r = Some true → ready_for_conversation r = Some true →
  let s' := selectSecondAgent_settled i agentKey (Resolved r) s in
  ∀ children j card,
    second_ai_options (page s) = Some children →
    children !! j = Some (CardEl card) →
    (key (agent card) ≠ agentKey →
       clicked (second_ai_options (page s')) j = None
       ∧ step (ClickSecond j) s' = Some s')
    ∧ (key (agent card) = agentKey →
         clicked (second_ai_options (page s')) j
         = clicked (second_ai_options (page s)) j).
Proof.
  intros Hs%flag_true Hr%flag_true s' children j card Hc Hj.
  assert (Hpage : second_ai_options (page s')
                  = updateAgentSelection agentKey true
                      (second_ai_options (page s))).
  { subst s'. unfold selectSecondAgent_settled. simpl. by rewrite Hs, Hr. }
  assert (Hclick : clicked (second_ai_options (page s')) j
                   = if disabled (update_card agentKey true card) then None
                     else Some (key (agent card))).
  { rewrite Hpage, Hc. unfold clicked, updateAgentSelection.
    rewrite list_lookup_fmap, Hj. simpl. by rewrite agent_update_card. }
  split.
  - intros Hne.
    assert (Hnone : clicked (second_ai_options (page s')) j = None).
    { rewrite Hclick. unfold update_card. by rewrite decide_False. }
    split; [done|]. unfold step. by rewrite Hnone.
  - intros Heq. rewrite Hclick. unfold clicked. rewrite Hc, Hj.
    unfold update_card. by rewrite decide_True.
Qed.

Lemma second_choice_locks_the_others_witness :
  success ready_reply = Some true
  ∧ ready_for_conversation ready_reply = Some true
  ∧ second_ai_options (page agents_offered) = Some (render [agent_b; agent_c])
  ∧ step (ClickSecond 1)
      (selectSecondAgent_settled 2 "b" (Resolved ready_reply) agents_offered)
    = Some
        (selectSecondAgent_settled 2 "b" (Resolved ready_reply)
           agents_offered).
Proof.
  assert (Hc : second_ai_options (page agents_offered)
               = Some (render [agent_b; agent_c])) by (by vm_compute).
  split; [reflexivity|]. split; [reflexivity|]. split; [exact Hc|].
  destruct (second_choice_locks_the_others 2 "b" ready_reply agents_offered
              eq_refl eq_refl _ 1%nat (createAICard agent_c false false)
              Hc eq_refl) as [H _].
  exact (proj2 (H ltac:(discriminate))).
Defined.

End AgentScreenSpec.


(** ** The gateway client: when a call resolves *)

Module RequestSpec.
Import Api Examples ApiSpec.

(** An operation of the gateway resolves only with the parsed body of
    a reply whose status is in 200-299 and whose body is JSON; the
    reply is the one of a request to an address under the base URL of
    the client, sent with the default headers of the client, and with
    the method [POST] exactly when it has a body. *)
Theorem perform_resolves_only_on_ok_json {A} (this : APIClient)
    (fetch : Fetch A) (op : Operation) (a : A) :
  perform this fetch op = Resolved a →
  ∃ endpoint config response detail,
    fetch (baseURL this +:+ endpoint) config = Resolved response
    ∧ 200 ≤ status response ≤ 299
    ∧ json response = Json a detail
    ∧ cfg_headers config = defaultHeaders this
    ∧ (cfg_method config = Some "POST" ↔ is_Some (cfg_body config))
    ∧ (cfg_method config = None ∨ cfg_method config = Some "POST").
Proof.
  assert (Hrequest : ∀ endpoint options,
    headers options = None →
    (method options = Some "POST" ↔ is_Some (body options)) →
    (method options = None ∨ method options = Some "POST") →
    request this fetch endpoint options = Resolved a →
    ∃ endpoint config response detail,
      fetch (baseURL this +:+ endpoint) config = Resolved response
      ∧ 200 ≤ status response ≤ 299
      ∧ json response = Json a detail
      ∧ cfg_headers config = defaultHeaders this
      ∧ (cfg_method config = Some "POST" ↔ is_Some (cfg_body config))
      ∧ (cfg_method config = None ∨ cfg_method config = Some "POST")).
  { intros endpoint options Hh Hm Hm'. unfold request. rewrite Hh.
    destruct (fetch _ _) as [response|e] eqn:Hfetch; [|done].
    destruct (ok response) eqn:Hok; simpl; [|done].
    destruct (json response) as [why|payload detail] eqn:Hjson; [done|].
    intros [= <-]. apply ok_iff in Hok.
    eexists endpoint, _, response, detail. split; [exact Hfetch|].
    split; [done|]. split; [done|]. split; [done|]. split; done. }
  destruct op; simpl; apply Hrequest; simpl; try done;
    try (by left); try (by right);
    split; try done; intros [? ?]; done.
Qed.

Lemma perform_resolves_only_on_ok_json_witness :
  perform (new_APIClient "http://localhost:3000/chatbot")
    (λ _ _,
       Resolved
         {| status := 200; statusText := "OK"; json := Json 7%nat None |})
    HealthCheck
  = Resolved 7%nat
  ∧ ∃ (endpoint : string) (config : Config)
      (response : Response nat) (detail : option string),
      200 ≤ status response ≤ 299 ∧ json response = Json 7%nat detail.
Proof.
  assert (H : perform (new_APIClient "http://localhost:3000/chatbot")
                (λ _ _,
                   Resolved
                     {| status := 200; statusText := "OK";
                        json := Json 7%nat None |})
                HealthCheck
              = Resolved 7%nat) by reflexivity.
  split; [exact H|].
  destruct (perform_resolves_only_on_ok_json _ _ _ _ H)
    as (endpoint & config & response & detail & _ & Hok & Hjson & _).
  by exists endpoint, config, response, detail.
Defined.

(** What fails below an operation of the gateway is passed on as it
    is: when [fetch] rejects, the operation rejects with the error of
    [fetch]; when the reply has a status in 200-299 and a body that is
    not JSON, it rejects with the error of the parser. *)
Theorem perform_passes_failures_on {A} (this : APIClient) (fetch : Fetch A)
    (op : Operation) :
  (∀ e, (∀ url config, fetch url config = Rejected e) →
        perform this fetch op = Rejected e)
  ∧ (∀ response why,
       (∀ url config, fetch url config = Resolved response) →
       200 ≤ status response ≤ 299 → json response = NotJson why →
       perform this fetch op = Rejected why).
Proof.
  destruct (perform_request this fetch op) as (endpoint & options & ->).
  split.
  - intros e Hfetch. unfold request. by rewrite Hfetch.
  - intros response why Hfetch Hok%ok_iff Hjson.
    rewrite (request_constant this fetch response) by done.
    by rewrite Hok, Hjson.
Qed.

Lemma perform_passes_failures_on_witness :
  perform (A := nat) (new_APIClient "http://localhost:3000/chatbot")
    (λ _ _, Rejected (new_Error "Failed to fetch")) HealthCheck
  = Rejected (new_Error "Failed to fetch").
Proof.
  apply (proj1 (perform_passes_failures_on (A := nat)
                  (new_APIClient "http://localhost:3000/chatbot")
                  (λ _ _, Rejected (new_Error "Failed to fetch"))
                  HealthCheck)).
  intros url config. reflexivity.
Defined.

(** The status of a job without request id: when the reply of
    [startChatMessage] has no [request_id], the job polls all the
    same, and the address it asks is [/chat/status/undefined]. *)
Theorem status_without_request_id {A} (this : APIClient) (fetch : Fetch A)
    (st : Chat.State) j job now st' :
  Chat.jobs st !! j = Some job → Chat.phase job = Chat.AwaitingStart →
  Chat.step
    (Chat.StartSettled j (Resolved {| Chat.request_id := None |}) now) st
  = Some st' →
  Chat.calls st' = GetChatStatus None :: Chat.calls st
  ∧ (∃ job', Chat.jobs st' !! j = Some job'
       ∧ Chat.phase job' = Chat.AwaitingStatus
       ∧ Chat.requestId job' = None)
  ∧ perform this fetch (GetChatStatus None)
    = request this fetch "/chat/status/undefined" no_options.
Proof.
  intros Hj Hph. unfold Chat.step. rewrite Hj, Hph.
  rewrite ChatSpec.handleMessageSubmit_settled_resolved. intros [= <-].
  split; [done|]. split; [|done].
  eexists. split.
  { simpl. apply list_lookup_insert_eq. by eapply lookup_lt_Some. }
  done.
Qed.

Lemma status_without_request_id_witness :
  Chat.jobs sending !! 0%nat = Some (hello_job Chat.AwaitingStart None 0 ∅)
  ∧ Chat.calls
      (default sending
         (Chat.step
            (Chat.StartSettled 0 (Resolved {| Chat.request_id := None |})
               1000)
            sending))
    = [GetChatStatus None; StartChatMessage (Some "s1") "hello"].
Proof.
  assert (H1 : Chat.jobs sending !! 0%nat
               = Some (hello_job Chat.AwaitingStart None 0 ∅))
    by (vm_compute; reflexivity).
  assert (H2 : Chat.calls sending = [StartChatMessage (Some "s1") "hello"])
    by (vm_compute; reflexivity).
  split; [exact H1|].
  destruct (Chat.step
              (Chat.StartSettled 0 (Resolved {| Chat.request_id := None |})
                 1000)
              sending) as [st'|] eqn:Hstep.
  - destruct (status_without_request_id
                (new_APIClient "http://localhost:3000/chatbot")
                (λ _ _, Rejected (A := Response unit) network_error)
                sending 0 _ 1000 st' H1 eq_refl Hstep) as (Hcalls & _).
    simpl. rewrite Hcalls, H2. reflexivity.
  - exfalso. revert Hstep. unfold Chat.step. rewrite H1. discriminate.
Defined.

End RequestSpec.

(** ** The entry point *)

Module StartupSpec.
Import Startup.

Lemma ready_checkDependencies w :
  ready w = true ↔ checkDependencies w = None.
Proof.
  unfold ready, checkDependencies.
  destruct (missing w) as [|c l].
  - rewrite bool_decide_eq_true_2 by done. simpl.
    by destruct (apiClient w).
  - rewrite bool_decide_eq_false_2 by done. done.
Qed.

(** [checkScripts] from the check number [n] on. *)
Lemma checkScripts_from windows fuel n :
  (n ≤ 49)%nat → (49 - n ≤ fuel)%nat →
  (∀ k, (n ≤ k < 50)%nat → ready (windows k) = false) ∧
    checkScripts fuel windows n (100 * Z.of_nat n)
    = Some (Rejected (timeout_error (windows 49%nat)))
  ∨ ∃ k, (n ≤ k < 50)%nat ∧ ready (windows k) = true
      ∧ (∀ i, (n ≤ i < k)%nat → ready (windows i) = false)
      ∧ checkScripts fuel windows n (100 * Z.of_nat n) = Some (Resolved ()).
Proof.
  revert n. induction fuel as [|fuel IH]; intros n Hn Hfuel.
  - assert (n = 49%nat) as -> by lia. simpl.
    destruct (ready (windows 49%nat)) eqn:Hr.
    + right. exists 49%nat. split; [lia|]. split; [done|].
      split; [intros; lia|done].
    + left. split; [|done]. intros k Hk.
      by assert (k = 49%nat) as -> by lia.
  - simpl. destruct (ready (windows n)) eqn:Hr.
    + right. exists n. split; [lia|]. split; [done|].
      split; [intros; lia|done].
    + unfold maxWait, checkInterval.
      destruct (decide (n = 49%nat)) as [->|Hne].
      * rewrite bool_decide_eq_true_2 by lia. left. split; [|done].
        intros k Hk. by assert (k = 49%nat) as -> by lia.
      * rewrite bool_decide_eq_false_2 by lia.
        replace (100 * Z.of_nat n + 100) with (100 * Z.of_nat (S n)) by lia.
        destruct (IH (S n)) as [[Hall ->]|(k & Hk & Hrk & Hbefore & ->)];
          [lia|lia| |].
        -- left. split; [|done]. intros k Hk.
           destruct (decide (k = n)) as [->|]; [done|]. apply Hall. lia.
        -- right. exists k. split; [lia|]. split; [done|].
           split; [|done]. intros i Hi.
           destruct (decide (i = n)) as [->|]; [done|]. apply Hbefore. lia.
Qed.

(** [waitForScripts] resolves at the first of its fifty checks that
    finds the five classes and the client of the gateway, 49 timers
    being enough for that; on the window of that check
    [checkDependencies], which [start] runs next, throws nothing. *)
Theorem scripts_found_within_fifty_checks windows fuel n :
  (49 ≤ fuel)%nat → (n < 50)%nat → ready (windows n) = true →
  waitForScripts fuel windows = Some (Resolved ())
  ∧ checkDependencies (windows n) = None.
Proof.
  intros Hfuel Hn Hr. split; [|by apply ready_checkDependencies].
  unfold waitForScripts.
  destruct (checkScripts_from windows fuel 0) as [[Hall _]|(k & _ & _ & _ & H)];
    [lia|lia| |exact H].
  rewrite Hall in Hr by lia. done.
Qed.

Lemma scripts_found_within_fifty_checks_witness :
  (49 ≤ 49)%nat ∧ (3 < 50)%nat
  ∧ waitForScripts 49
      (λ n, {| classes := if bool_decide (3 ≤ n)%nat
                          then list_to_set requiredClasses else ∅;
               apiClient := true |})
    = Some (Resolved ()).
Proof.
  split; [lia|]. split; [lia|].
  refine (proj1 (scripts_found_within_fifty_checks _ 49 3 _ _ _));
    [lia|lia|by vm_compute].
Defined.

(** When none of the fifty checks finds the scripts, [waitForScripts]
    rejects at the fiftieth, with an error that lists the classes
    missing at that check, separated by commas; the list is empty when
    only the client of the gateway is missing. *)
Theorem scripts_timeout_after_fifty_checks windows fuel :
  (49 ≤ fuel)%nat →
  (∀ n, (n < 50)%nat → ready (windows n) = false) →
  waitForScripts fuel windows
  = Some
      (Rejected
         (new_Error
            ("Timeout waiting for scripts. Missing: "
             +:+ join ", " (missing (windows 49%nat)))))
  ∧ (missing (windows 49%nat) = [] →
       apiClient (windows 49%nat) = false
       ∧ waitForScripts fuel windows
         = Some
             (Rejected (new_Error "Timeout waiting for scripts. Missing: "))).
Proof.
  intros Hfuel Hnone. unfold waitForScripts.
  destruct (checkScripts_from windows fuel 0)
    as [[_ H]|(k & Hk & Hr & _)]; [lia|lia| |].
  - change (100 * Z.of_nat 0) with 0 in H. rewrite H.
    split; [done|]. intros Hm. unfold timeout_error. rewrite Hm.
    split; [|done].
    specialize (Hnone 49%nat ltac:(lia)). unfold ready in Hnone.
    rewrite Hm in Hnone. by rewrite bool_decide_eq_true_2 in Hnone.
  - rewrite Hnone in Hr by lia. done.
Qed.

Lemma scripts_timeout_after_fifty_checks_witness :
  (49 ≤ 49)%nat
  ∧ waitForScripts 49
      (λ _, {| classes := {["UIUtils"; "StateManager"]};
               apiClient := true |})
    = Some
        (Rejected
           (new_Error
              ("Timeout waiting for scripts. Missing: "
               +:+ "UserSelectionState, AISelectionState, "
               +:+ "ChatComparisonState"))).
Proof.
  split; [lia|].
  refine (eq_trans
            (proj1 (scripts_timeout_after_fifty_checks _ 49 _ _)) _);
    [lia|intros n _; by vm_compute|by vm_compute].
Defined.

End StartupSpec.

(** ** The stand-alone chat page *)

Module LegacySpec.
Import Legacy.

(** The session id is saved where it is recovered from: after the
    start of the script the storage holds the session id in use, the
    other entries of the storage are untouched, and a later start on
    that storage recovers the same id and leaves the storage as it is,
    whatever [crypto.randomUUID()] returns then. *)
Theorem session_id_is_persistent uuid storage later :
  uuid ≠ EmptyString →
  let recovered := recover_session uuid storage in
  recovered.2 !! "session_id" = Some recovered.1
  ∧ recovered.1 ≠ EmptyString
  ∧ (∀ k, k ≠ "session_id" → recovered.2 !! k = storage !! k)
  ∧ recover_session later recovered.2 = recovered.
Proof.
  intros Huuid. cbv zeta.
  assert (Hnew : ∀ s : Storage,
    let recovered := (uuid, <["session_id" := uuid]> s) in
    recovered.2 !! "session_id" = Some recovered.1
    ∧ recovered.1 ≠ EmptyString
    ∧ (∀ k, k ≠ "session_id" → recovered.2 !! k = s !! k)
    ∧ recover_session later recovered.2 = recovered).
  { intros s. cbv zeta. cbn [fst snd]. split; [apply lookup_insert_eq|].
    split; [done|]. split; [by intros k Hk; apply lookup_insert_ne|].
    unfold recover_session.
    rewrite (lookup_insert_eq (M := gmap string) s "session_id" uuid).
    by destruct uuid. }
  assert (Hcases :
    recover_session uuid storage = (uuid, <["session_id" := uuid]> storage)
    ∨ ∃ c s, storage !! "session_id" = Some (String c s)
        ∧ recover_session uuid storage = (String c s, storage)).
  { unfold recover_session.
    destruct (storage !! "session_id") as [[|c s]|]; eauto. }
  destruct Hcases as [->|(c & s & Hs & ->)]; [apply Hnew|]. cbn [fst snd].
  split; [done|]. split; [done|]. split; [done|].
  unfold recover_session. by rewrite Hs.
Qed.

Lemma session_id_is_persistent_witness :
  "3f2a" ≠ EmptyString
  ∧ recover_session "9c1d" (recover_session "3f2a" ∅).2
    = recover_session "3f2a" ∅.
Proof.
  assert (H : "3f2a" ≠ EmptyString) by discriminate.
  split; [exact H|].
  exact (proj2 (proj2 (proj2
           (session_id_is_persistent "3f2a" ∅ "9c1d" H)))).
Defined.

(** The two chat boxes go in step: a message that is empty once
    trimmed adds nothing; any other message adds to each box the
    message of the user, the same in both, and then exactly one
    message of the bot, whatever the backend answers and also when it
    cannot be reached. *)
Theorem boxes_go_in_step value reply b :
  let b' := exchange value reply b in
  (trim value = EmptyString → b' = b)
  ∧ (trim value ≠ EmptyString →
       ∃ azureText awsText,
         azureChat b'
         = (azureChat b
            ++ [{| kind := from_user; text := "Usuario: " +:+ trim value |};
                {| kind := from_bot; text := azureText |}])%list
         ∧ awsChat b'
           = (awsChat b
              ++ [{| kind := from_user;
                     text := "Usuario: " +:+ trim value |};
                  {| kind := from_bot; text := awsText |}])%list
         ∧ ((∀ data, reply ≠ Answered data) → azureText = awsText)
         ∧ (∀ data, reply = Answered data →
              azureText
              = "Azure: " +:+ default "No response from Azure" (azure data)
              ∧ awsText
                = "AWS: " +:+ default "No response from AWS" (aws data))).
Proof.
  cbv zeta. unfold exchange, sendMessage.
  destruct (trim value) as [|c m] eqn:Hm; simpl; split; try done.
  intros _. destruct reply as [|status body| |data]; simpl;
    eexists _, _; rewrite <- !app_assoc; simpl;
    (split; [reflexivity|]); (split; [reflexivity|]); split; try done.
  - intros H. by destruct (H data).
  - by intros data' [= <-].
Qed.

Lemma boxes_go_in_step_witness :
  trim " hola " ≠ EmptyString
  ∧ List.length
      (azureChat
         (exchange " hola " Unreachable {| azureChat := []; awsChat := [] |}))
    = 2%nat.
Proof.
  assert (H : trim " hola " ≠ EmptyString) by (vm_compute; discriminate).
  split; [exact H|].
  destruct (boxes_go_in_step " hola " Unreachable
              {| azureChat := []; awsChat := [] |}) as [_ Hsent].
  destruct (Hsent H) as (azureText & awsText & -> & _).
  reflexivity.
Defined.

End LegacySpec.
